(** * Shallow embedding of the UDS delay engine core

    Source files: Source/Core/SafetyLimiter.h, Source/Core/RoutingGraph.h,
    Source/Core/DelayMatrix.h, Source/Core/GenerativeModulator.h,
    Source/Core/AttackEnvelope.h, Source/Core/ModulationEngine.h,
    Source/Core/RoutingUndoManager.h, Source/UI/NodeVisual.h.

    Number models.
    - SafetyLimiter: the claims are about NaN, infinities and overflow, so
      [float] and [double] are IEEE-754 binary32 / binary64 values of the
      Standard Library's [SpecFloat] (round to nearest even), with every
      operation of the source written out in its precision.
    - DelayMatrix final mix: binary32 as well, with [std::cos] and
      [std::sin] on [float] left as parameters (library functions).
    - GenerativeModulator, ModulationEngine, AttackEnvelope: sample
      arithmetic is modelled over the reals [R] (exact arithmetic), with
      [sin], [cos] and [exp] the real functions.
    - RoutingGraph: node ids are C++ [int]s, modelled as [Z].
    - RoutingUndoManager: the history index is a [nat]; [history_.size() - 1]
      is [size_t] arithmetic, written out modulo 2^64. *)

From Stdlib Require Import ZArith List ListDec Bool Lia Relations Sorting.Sorted.
From Stdlib Require Import Floats.SpecFloat.
From Stdlib Require Import Reals Lra Psatz.
Import ListNotations.

(* ================================================================== *)
(** ** IEEE-754 binary32 / binary64 *)

Module F.

Definition prec32 : Z := 24.
Definition emax32 : Z := 128.
Definition prec64 : Z := 53.
Definition emax64 : Z := 1024.

(** [float] (binary32) operations. *)
Definition add := SFadd prec32 emax32.
Definition sub := SFsub prec32 emax32.
Definition mul := SFmul prec32 emax32.
Definition div := SFdiv prec32 emax32.
Definition abs := SFabs.
Definition opp := SFopp.

(** [a < b] and [a > b] (false as soon as one side is NaN). *)
Definition lt (a b : spec_float) : bool := SFltb a b.
Definition gt (a b : spec_float) : bool := SFltb b a.

(** [std::isfinite] *)
Definition isfinite (x : spec_float) : bool :=
  match x with
  | S754_zero _ | S754_finite _ _ _ => true
  | _ => false
  end.

(** [std::max(a, b)] is [(a < b) ? b : a]. *)
Definition max (a b : spec_float) : spec_float := if lt a b then b else a.

(** [std::clamp(v, lo, hi)] is [(v < lo) ? lo : (hi < v) ? hi : v]. *)
Definition clamp (v lo hi : spec_float) : spec_float :=
  if lt v lo then lo else if lt hi v then hi else v.

(** Literals: the integer [z], and the decimal [n / d] correctly rounded. *)
Definition of_Z (z : Z) : spec_float := binary_normalize prec32 emax32 z 0 false.
Definition lit (n d : Z) : spec_float := div (of_Z n) (of_Z d).

Definition zero : spec_float := S754_zero false.
Definition one : spec_float := of_Z 1.

(** [double] (binary64) operations, used by [prepare]. *)
Definition dadd := SFadd prec64 emax64.
Definition dsub := SFsub prec64 emax64.
Definition dmul := SFmul prec64 emax64.
Definition ddiv := SFdiv prec64 emax64.
Definition dof_Z (z : Z) : spec_float := binary_normalize prec64 emax64 z 0 false.
Definition dlit (n d : Z) : spec_float := ddiv (dof_Z n) (dof_Z d).

(** [static_cast<float>(double)]: rounding of a binary64 value to binary32. *)
Definition to_float (d : spec_float) : spec_float :=
  match d with
  | S754_finite s m e => binary_round prec32 emax32 s m e
  | x => x
  end.

(** [static_cast<int>(double)] on a finite value: truncation toward zero
    (out-of-range casts are undefined behaviour in C++ and are sent to 0). *)
Definition trunc (d : spec_float) : Z :=
  match d with
  | S754_finite s m e =>
      let a := if (0 <=? e)%Z then Z.shiftl (Zpos m) e
               else Z.shiftr (Zpos m) (- e) in
      if s then (- a)%Z else a
  | _ => 0%Z
  end.

(** The largest finite binary32 value, [FLT_MAX = (2^24 - 1) * 2^104]. *)
Definition flt_max : spec_float := S754_finite false 16777215 104.

End F.

(* ================================================================== *)
(** ** SafetyLimiter (Source/Core/SafetyLimiter.h) *)

Module Limiter.

Inductive MuteReason := None_ | SustainedPeak | DCOffset | NaNInf.

(** The data members, in source order.  Fields of type [double] hold
    binary64 values, fields of type [float] binary32 values, [int] fields
    are [Z] (the counters never approach the [int] range: each is reset to
    0 or latches the mute long before). *)
Record t := mk {
  sampleRate_ : spec_float;
  attackCoeff_ : spec_float;
  releaseCoeff_ : spec_float;
  envelope_ : spec_float;
  threshold_ : spec_float;
  dcBlockCoeff_ : spec_float;
  dcBlockStateL_ : spec_float;
  dcBlockStateR_ : spec_float;
  dcBlockPrevL_ : spec_float;
  dcBlockPrevR_ : spec_float;
  sustainedCoeff_ : spec_float;
  sustainedLevel_ : spec_float;
  sustainedThreshold_ : spec_float;
  sustainedPeakCoeff_ : spec_float;
  sustainedPeakLevel_ : spec_float;
  dangerPeakThreshold_ : spec_float;
  sustainedPeakCounter_ : Z;
  sustainedPeakThresholdSamples_ : Z;
  dcDetectCoeff_ : spec_float;
  dcOffsetLevel_ : spec_float;
  dcOffsetThreshold_ : spec_float;
  dcOffsetCounter_ : Z;
  dcOffsetThresholdSamples_ : Z;
  permanentlyMuted_ : bool;
  muteReason_ : MuteReason;
  dangerEventCount_ : Z;
  maxSlewRate_ : spec_float;
  prevOutputL_ : spec_float;
  prevOutputR_ : spec_float }.

(** [SafetyLimiter() = default]: the default member initialisers. *)
Definition default : t := {|
  sampleRate_ := F.dof_Z 44100;
  attackCoeff_ := S754_zero false;
  releaseCoeff_ := S754_zero false;
  envelope_ := F.zero;
  threshold_ := F.lit 9 10;
  dcBlockCoeff_ := F.dlit 999 1000;
  dcBlockStateL_ := F.zero;
  dcBlockStateR_ := F.zero;
  dcBlockPrevL_ := F.zero;
  dcBlockPrevR_ := F.zero;
  sustainedCoeff_ := S754_zero false;
  sustainedLevel_ := F.zero;
  sustainedThreshold_ := F.lit 7 10;
  sustainedPeakCoeff_ := S754_zero false;
  sustainedPeakLevel_ := F.zero;
  dangerPeakThreshold_ := F.of_Z 2;
  sustainedPeakCounter_ := 0;
  sustainedPeakThresholdSamples_ := 4410;
  dcDetectCoeff_ := S754_zero false;
  dcOffsetLevel_ := F.zero;
  dcOffsetThreshold_ := F.lit 1 2;
  dcOffsetCounter_ := 0;
  dcOffsetThresholdSamples_ := 22050;
  permanentlyMuted_ := false;
  muteReason_ := None_;
  dangerEventCount_ := 0;
  maxSlewRate_ := F.lit 1 2;
  prevOutputL_ := F.zero;
  prevOutputR_ := F.zero |}.

(** [reset()]: the permanent-mute latch is not touched. *)
Definition reset (s : t) : t := {|
  sampleRate_ := sampleRate_ s;
  attackCoeff_ := attackCoeff_ s;
  releaseCoeff_ := releaseCoeff_ s;
  envelope_ := F.zero;
  threshold_ := threshold_ s;
  dcBlockCoeff_ := dcBlockCoeff_ s;
  dcBlockStateL_ := F.zero;
  dcBlockStateR_ := F.zero;
  dcBlockPrevL_ := F.zero;
  dcBlockPrevR_ := F.zero;
  sustainedCoeff_ := sustainedCoeff_ s;
  sustainedLevel_ := F.zero;
  sustainedThreshold_ := sustainedThreshold_ s;
  sustainedPeakCoeff_ := sustainedPeakCoeff_ s;
  sustainedPeakLevel_ := F.zero;
  dangerPeakThreshold_ := dangerPeakThreshold_ s;
  sustainedPeakCounter_ := 0;
  sustainedPeakThresholdSamples_ := sustainedPeakThresholdSamples_ s;
  dcDetectCoeff_ := dcDetectCoeff_ s;
  dcOffsetLevel_ := F.zero;
  dcOffsetThreshold_ := dcOffsetThreshold_ s;
  dcOffsetCounter_ := 0;
  dcOffsetThresholdSamples_ := dcOffsetThresholdSamples_ s;
  permanentlyMuted_ := permanentlyMuted_ s;
  muteReason_ := muteReason_ s;
  dangerEventCount_ := dangerEventCount_ s;
  maxSlewRate_ := maxSlewRate_ s;
  prevOutputL_ := F.zero;
  prevOutputR_ := F.zero |}.

(** [unlockPermanentMute()] *)
Definition unlockPermanentMute (s : t) : t := {|
  sampleRate_ := sampleRate_ s;
  attackCoeff_ := attackCoeff_ s;
  releaseCoeff_ := releaseCoeff_ s;
  envelope_ := envelope_ s;
  threshold_ := threshold_ s;
  dcBlockCoeff_ := dcBlockCoeff_ s;
  dcBlockStateL_ := dcBlockStateL_ s;
  dcBlockStateR_ := dcBlockStateR_ s;
  dcBlockPrevL_ := dcBlockPrevL_ s;
  dcBlockPrevR_ := dcBlockPrevR_ s;
  sustainedCoeff_ := sustainedCoeff_ s;
  sustainedLevel_ := sustainedLevel_ s;
  sustainedThreshold_ := sustainedThreshold_ s;
  sustainedPeakCoeff_ := sustainedPeakCoeff_ s;
  sustainedPeakLevel_ := F.zero;
  dangerPeakThreshold_ := dangerPeakThreshold_ s;
  sustainedPeakCounter_ := 0;
  sustainedPeakThresholdSamples_ := sustainedPeakThresholdSamples_ s;
  dcDetectCoeff_ := dcDetectCoeff_ s;
  dcOffsetLevel_ := F.zero;
  dcOffsetThreshold_ := dcOffsetThreshold_ s;
  dcOffsetCounter_ := 0;
  dcOffsetThresholdSamples_ := dcOffsetThresholdSamples_ s;
  permanentlyMuted_ := false;
  muteReason_ := None_;
  dangerEventCount_ := dangerEventCount_ s;
  maxSlewRate_ := maxSlewRate_ s;
  prevOutputL_ := prevOutputL_ s;
  prevOutputR_ := prevOutputR_ s |}.

(** One iteration of the sample loop of [process(left, right, n)]: the new
    state and the pair written back to [(left[i], right[i])]. *)
Definition process_sample (s : t) (l r : spec_float)
  : t * (spec_float * spec_float) :=
  if permanentlyMuted_ s then (s, (F.zero, F.zero)) else
  (* Stage 0: sustained peak detection *)
  let instantPeak := F.max (F.abs l) (F.abs r) in
  let spc := F.to_float (sustainedPeakCoeff_ s) in
  let sustainedPeakLevel :=
    F.add (F.mul spc (sustainedPeakLevel_ s)) (F.mul (F.sub F.one spc) instantPeak) in
  let '(sustainedPeakCounter, muted0, reason0, events0) :=
    if F.gt sustainedPeakLevel (dangerPeakThreshold_ s) then
      let c := (sustainedPeakCounter_ s + 1)%Z in
      if (sustainedPeakThresholdSamples_ s <=? c)%Z
      then (c, true, SustainedPeak, (dangerEventCount_ s + 1)%Z)
      else (c, false, muteReason_ s, dangerEventCount_ s)
    else (0%Z, false, muteReason_ s, dangerEventCount_ s) in
  (* Stage 1: NaN/Inf protection *)
  let '(l1, muted1, reason1) :=
    if F.isfinite l then (l, muted0, reason0) else (F.zero, true, NaNInf) in
  let '(r1, muted1, reason1) :=
    if F.isfinite r then (r, muted1, reason1) else (F.zero, true, NaNInf) in
  (* Stage 2: DC offset detection *)
  let dcLevel := F.abs (F.mul (F.lit 1 2) (F.add l1 r1)) in
  let ddc := F.to_float (dcDetectCoeff_ s) in
  let dcOffsetLevel :=
    F.add (F.mul ddc (dcOffsetLevel_ s)) (F.mul (F.sub F.one ddc) dcLevel) in
  let '(dcOffsetCounter, muted2, reason2, events2) :=
    if F.gt dcOffsetLevel (dcOffsetThreshold_ s) then
      let c := (dcOffsetCounter_ s + 1)%Z in
      if (dcOffsetThresholdSamples_ s <=? c)%Z
      then (c, true, DCOffset, (events0 + 1)%Z)
      else (c, muted1, reason1, events0)
    else (0%Z, muted1, reason1, events0) in
  (* Stage 3: DC offset blocking *)
  let dbc := F.to_float (dcBlockCoeff_ s) in
  let dcFreeL := F.add (F.sub l1 (dcBlockPrevL_ s)) (F.mul dbc (dcBlockStateL_ s)) in
  let dcFreeR := F.add (F.sub r1 (dcBlockPrevR_ s)) (F.mul dbc (dcBlockStateR_ s)) in
  (* Stage 4: soft-knee limiting *)
  let peak := F.max (F.abs dcFreeL) (F.abs dcFreeR) in
  let envelope :=
    if F.gt peak (envelope_ s) then
      let a := F.to_float (attackCoeff_ s) in
      F.add (F.mul a (envelope_ s)) (F.mul (F.sub F.one a) peak)
    else
      let rc := F.to_float (releaseCoeff_ s) in
      F.add (F.mul rc (envelope_ s)) (F.mul (F.sub F.one rc) peak) in
  let gain :=
    if F.gt envelope (threshold_ s)
    then let overshoot := F.div envelope (threshold_ s) in F.div F.one overshoot
    else F.one in
  let l4 := F.mul dcFreeL gain in
  let r4 := F.mul dcFreeR gain in
  (* Stage 5: sustained loudness detection *)
  let postPeak := F.max (F.abs l4) (F.abs r4) in
  let sc := F.to_float (sustainedCoeff_ s) in
  let sustainedLevel :=
    F.add (F.mul sc (sustainedLevel_ s)) (F.mul (F.sub F.one sc) postPeak) in
  let '(l5, r5) :=
    if F.gt sustainedLevel (sustainedThreshold_ s)
    then let sustainGain := F.div (sustainedThreshold_ s) sustainedLevel in
         (F.mul l4 sustainGain, F.mul r4 sustainGain)
    else (l4, r4) in
  (* Stage 6: slew rate limiting *)
  let slewL := F.sub l5 (prevOutputL_ s) in
  let slewR := F.sub r5 (prevOutputR_ s) in
  let l6 :=
    if F.gt (F.abs slewL) (maxSlewRate_ s)
    then F.add (prevOutputL_ s)
           (if F.gt slewL F.zero then maxSlewRate_ s else F.opp (maxSlewRate_ s))
    else l5 in
  let r6 :=
    if F.gt (F.abs slewR) (maxSlewRate_ s)
    then F.add (prevOutputR_ s)
           (if F.gt slewR F.zero then maxSlewRate_ s else F.opp (maxSlewRate_ s))
    else r5 in
  (* Stage 7: hard clip *)
  let l7 := F.clamp l6 (F.opp F.one) F.one in
  let r7 := F.clamp r6 (F.opp F.one) F.one in
  ({| sampleRate_ := sampleRate_ s;
      attackCoeff_ := attackCoeff_ s;
      releaseCoeff_ := releaseCoeff_ s;
      envelope_ := envelope;
      threshold_ := threshold_ s;
      dcBlockCoeff_ := dcBlockCoeff_ s;
      dcBlockStateL_ := dcFreeL;
      dcBlockStateR_ := dcFreeR;
      dcBlockPrevL_ := l1;
      dcBlockPrevR_ := r1;
      sustainedCoeff_ := sustainedCoeff_ s;
      sustainedLevel_ := sustainedLevel;
      sustainedThreshold_ := sustainedThreshold_ s;
      sustainedPeakCoeff_ := sustainedPeakCoeff_ s;
      sustainedPeakLevel_ := sustainedPeakLevel;
      dangerPeakThreshold_ := dangerPeakThreshold_ s;
      sustainedPeakCounter_ := sustainedPeakCounter;
      sustainedPeakThresholdSamples_ := sustainedPeakThresholdSamples_ s;
      dcDetectCoeff_ := dcDetectCoeff_ s;
      dcOffsetLevel_ := dcOffsetLevel;
      dcOffsetThreshold_ := dcOffsetThreshold_ s;
      dcOffsetCounter_ := dcOffsetCounter;
      dcOffsetThresholdSamples_ := dcOffsetThresholdSamples_ s;
      permanentlyMuted_ := muted2;
      muteReason_ := reason2;
      dangerEventCount_ := events2;
      maxSlewRate_ := maxSlewRate_ s;
      prevOutputL_ := l6;
      prevOutputR_ := r6 |}, (l7, r7)).

(** [process(left, right, numSamples)] on the block of pairs
    [(left[i], right[i])]: the final state and the block written back. *)
Fixpoint process (s : t) (blk : list (spec_float * spec_float))
  : t * list (spec_float * spec_float) :=
  match blk with
  | [] => (s, [])
  | (l, r) :: rest =>
      let '(s1, o) := process_sample s l r in
      let '(s2, os) := process s1 rest in
      (s2, o :: os)
  end.

Section Configuration.

(** [std::exp] on [double] and [std::pow] on [float] are library functions;
    every statement below holds whatever they return. *)
Variable exp : spec_float -> spec_float.
Variable powf : spec_float -> spec_float -> spec_float.

(** [prepare(sampleRate)] *)
Definition prepare (sampleRate : spec_float) (s : t) : t :=
  let expm1_over (k : spec_float) :=
    exp (F.ddiv (F.opp (F.dof_Z 1)) (F.dmul k sampleRate)) in
  reset {|
    sampleRate_ := sampleRate;
    attackCoeff_ := expm1_over (F.dlit 1 10000);
    releaseCoeff_ := expm1_over (F.dlit 50 1000);
    envelope_ := envelope_ s;
    threshold_ := threshold_ s;
    dcBlockCoeff_ :=
      F.dsub (F.dof_Z 1)
        (F.ddiv (F.dmul (F.dmul (F.dof_Z 2) (F.dlit 314159265359 100000000000))
                        (F.dof_Z 10))
                sampleRate);
    dcBlockStateL_ := dcBlockStateL_ s;
    dcBlockStateR_ := dcBlockStateR_ s;
    dcBlockPrevL_ := dcBlockPrevL_ s;
    dcBlockPrevR_ := dcBlockPrevR_ s;
    sustainedCoeff_ := expm1_over (F.dlit 1 2);
    sustainedLevel_ := sustainedLevel_ s;
    sustainedThreshold_ := sustainedThreshold_ s;
    sustainedPeakCoeff_ := expm1_over (F.dlit 1 10);
    sustainedPeakLevel_ := sustainedPeakLevel_ s;
    dangerPeakThreshold_ := dangerPeakThreshold_ s;
    sustainedPeakCounter_ := sustainedPeakCounter_ s;
    sustainedPeakThresholdSamples_ := F.trunc (F.dmul (F.dlit 1 10) sampleRate);
    dcDetectCoeff_ := expm1_over (F.dlit 1 2);
    dcOffsetLevel_ := dcOffsetLevel_ s;
    dcOffsetThreshold_ := dcOffsetThreshold_ s;
    dcOffsetCounter_ := dcOffsetCounter_ s;
    dcOffsetThresholdSamples_ := F.trunc (F.dmul (F.dlit 1 2) sampleRate);
    permanentlyMuted_ := permanentlyMuted_ s;
    muteReason_ := muteReason_ s;
    dangerEventCount_ := dangerEventCount_ s;
    maxSlewRate_ := maxSlewRate_ s;
    prevOutputL_ := prevOutputL_ s;
    prevOutputR_ := prevOutputR_ s |}.

(** [setThreshold(thresholdDb)] and [setSustainedThreshold(level)]. *)
Definition set_thresholds (th sth : spec_float) (s : t) : t := {|
  sampleRate_ := sampleRate_ s;
  attackCoeff_ := attackCoeff_ s;
  releaseCoeff_ := releaseCoeff_ s;
  envelope_ := envelope_ s;
  threshold_ := th;
  dcBlockCoeff_ := dcBlockCoeff_ s;
  dcBlockStateL_ := dcBlockStateL_ s;
  dcBlockStateR_ := dcBlockStateR_ s;
  dcBlockPrevL_ := dcBlockPrevL_ s;
  dcBlockPrevR_ := dcBlockPrevR_ s;
  sustainedCoeff_ := sustainedCoeff_ s;
  sustainedLevel_ := sustainedLevel_ s;
  sustainedThreshold_ := sth;
  sustainedPeakCoeff_ := sustainedPeakCoeff_ s;
  sustainedPeakLevel_ := sustainedPeakLevel_ s;
  dangerPeakThreshold_ := dangerPeakThreshold_ s;
  sustainedPeakCounter_ := sustainedPeakCounter_ s;
  sustainedPeakThresholdSamples_ := sustainedPeakThresholdSamples_ s;
  dcDetectCoeff_ := dcDetectCoeff_ s;
  dcOffsetLevel_ := dcOffsetLevel_ s;
  dcOffsetThreshold_ := dcOffsetThreshold_ s;
  dcOffsetCounter_ := dcOffsetCounter_ s;
  dcOffsetThresholdSamples_ := dcOffsetThresholdSamples_ s;
  permanentlyMuted_ := permanentlyMuted_ s;
  muteReason_ := muteReason_ s;
  dangerEventCount_ := dangerEventCount_ s;
  maxSlewRate_ := maxSlewRate_ s;
  prevOutputL_ := prevOutputL_ s;
  prevOutputR_ := prevOutputR_ s |}.

Definition setThreshold (thresholdDb : spec_float) (s : t) : t :=
  set_thresholds (powf (F.of_Z 10) (F.div thresholdDb (F.of_Z 20)))
                 (sustainedThreshold_ s) s.

Definition setSustainedThreshold (level : spec_float) (s : t) : t :=
  set_thresholds (threshold_ s) (F.clamp level (F.lit 1 10) (F.lit 95 100)) s.

(** [resetDangerEventCount()] *)
Definition resetDangerEventCount (s : t) : t := {|
  sampleRate_ := sampleRate_ s;
  attackCoeff_ := attackCoeff_ s;
  releaseCoeff_ := releaseCoeff_ s;
  envelope_ := envelope_ s;
  threshold_ := threshold_ s;
  dcBlockCoeff_ := dcBlockCoeff_ s;
  dcBlockStateL_ := dcBlockStateL_ s;
  dcBlockStateR_ := dcBlockStateR_ s;
  dcBlockPrevL_ := dcBlockPrevL_ s;
  dcBlockPrevR_ := dcBlockPrevR_ s;
  sustainedCoeff_ := sustainedCoeff_ s;
  sustainedLevel_ := sustainedLevel_ s;
  sustainedThreshold_ := sustainedThreshold_ s;
  sustainedPeakCoeff_ := sustainedPeakCoeff_ s;
  sustainedPeakLevel_ := sustainedPeakLevel_ s;
  dangerPeakThreshold_ := dangerPeakThreshold_ s;
  sustainedPeakCounter_ := sustainedPeakCounter_ s;
  sustainedPeakThresholdSamples_ := sustainedPeakThresholdSamples_ s;
  dcDetectCoeff_ := dcDetectCoeff_ s;
  dcOffsetLevel_ := dcOffsetLevel_ s;
  dcOffsetThreshold_ := dcOffsetThreshold_ s;
  dcOffsetCounter_ := dcOffsetCounter_ s;
  dcOffsetThresholdSamples_ := dcOffsetThresholdSamples_ s;
  permanentlyMuted_ := permanentlyMuted_ s;
  muteReason_ := muteReason_ s;
  dangerEventCount_ := 0;
  maxSlewRate_ := maxSlewRate_ s;
  prevOutputL_ := prevOutputL_ s;
  prevOutputR_ := prevOutputR_ s |}.

(** The public mutators of a [SafetyLimiter]. *)
Inductive op :=
  | Prepare (sampleRate : spec_float)
  | Reset
  | Process (blk : list (spec_float * spec_float))
  | SetThreshold (thresholdDb : spec_float)
  | SetSustainedThreshold (level : spec_float)
  | UnlockPermanentMute
  | ResetDangerEventCount.

(** One call: the new state and, for a [process] call, the block written
    back. *)
Definition step (o : op) (s : t) : t * list (list (spec_float * spec_float)) :=
  match o with
  | Prepare sr => (prepare sr s, [])
  | Reset => (reset s, [])
  | Process blk => let '(s', b) := process s blk in (s', [b])
  | SetThreshold db => (setThreshold db s, [])
  | SetSustainedThreshold lv => (setSustainedThreshold lv s, [])
  | UnlockPermanentMute => (unlockPermanentMute s, [])
  | ResetDangerEventCount => (resetDangerEventCount s, [])
  end.

(** Running a sequence of calls: the final state and the blocks written
    back by its [process] calls. *)
Fixpoint run (ops : list op) (s : t) : t * list (list (spec_float * spec_float)) :=
  match ops with
  | [] => (s, [])
  | o :: rest =>
      let '(s1, out) := step o s in
      let '(s2, outs) := run rest s1 in
      (s2, out ++ outs)
  end.

End Configuration.

(** An output sample that is NaN or lies in [[-1, 1]]. *)
Definition unit_or_nan (y : spec_float) : Prop :=
  y = S754_nan \/ SFleb (F.opp F.one) y && SFleb y F.one = true.

End Limiter.

(* ================================================================== *)
(** ** RoutingGraph (Source/Core/RoutingGraph.h, Source/UI/NodeVisual.h) *)

Module Routing.
Open Scope Z_scope.

(** [enum class NodeId]: [Input = 0], [Band1 .. Band8 = 1 .. 8],
    [Output = 9]; [kNumBands = 8]. *)
Definition Input : Z := 0.
Definition Output : Z := 9.
Definition kNumBands : Z := 8.

(** [struct Connection] *)
Record Connection := mkConn { sourceId : Z; destId : Z }.

Definition conn_eqb (a b : Connection) : bool :=
  (sourceId a =? sourceId b) && (destId a =? destId b).

(** [std::set<int>]: an increasing list. *)
Fixpoint set_insert (x : Z) (l : list Z) : list Z :=
  match l with
  | [] => [x]
  | y :: r => if x <? y then x :: l else if x =? y then l else y :: set_insert x r
  end.

Definition set_erase (x : Z) (l : list Z) : list Z :=
  filter (fun y => negb (y =? x)) l.

Definition set_mem (x : Z) (l : list Z) : bool := existsb (Z.eqb x) l.

(** [{1, ..., kNumBands}] *)
Definition default_bands : list Z :=
  fold_left (fun acc i => set_insert i acc) [1; 2; 3; 4; 5; 6; 7; 8] [].

(** Total map with default 0, as [std::unordered_map<int,int>::operator[]]. *)
Definition upd (f : Z -> Z) (k v : Z) : Z -> Z :=
  fun y => if y =? k then v else f y.

(** [adj[n]]: destinations of the connections leaving [n], in order. *)
Definition adj_of (E : list Connection) (n : Z) : list Z :=
  map destId (filter (fun c => sourceId c =? n) E).

(** The nodes met in the connections ([allNodes]).  The iteration order of
    the [std::unordered_set] is unspecified: [kahn] below is stated for any
    duplicate-free enumeration, and this one is used for the state. *)
Definition all_nodes (E : list Connection) : list Z :=
  nodup Z.eq_dec (flat_map (fun c => [sourceId c; destId c]) E).

(** [inDegree], after [for (conn : connections_) inDegree[conn.destId]++]. *)
Definition indeg_of (E : list Connection) : Z -> Z :=
  fold_left (fun deg c => upd deg (destId c) (deg (destId c) + 1)) E (fun _ => 0).

(** [for (int neighbor : adj[node]) if (--inDegree[neighbor] == 0)
    queue.push(neighbor);] *)
Definition relax (st : (Z -> Z) * list Z) (neighbor : Z) : (Z -> Z) * list Z :=
  let '(deg, q) := st in
  let d := deg neighbor - 1 in
  (upd deg neighbor d, if d =? 0 then q ++ [neighbor] else q).

(** The [while (!queue.empty())] loop; [fuel] bounds the iterations (every
    node is queued at most once, so [length nodes] suffices). *)
Fixpoint kahn_loop (fuel : nat) (adj : Z -> list Z) (deg : Z -> Z)
    (queue order : list Z) : list Z :=
  match fuel with
  | O => order
  | S f =>
      match queue with
      | [] => order
      | node :: q =>
          let '(deg', q') := fold_left relax (adj node) (deg, q) in
          kahn_loop f adj deg' q' (order ++ [node])
      end
  end.

Definition kahn (nodes : list Z) (E : list Connection) : list Z :=
  let deg := indeg_of E in
  kahn_loop (length nodes) (adj_of E) deg (filter (fun n => deg n =? 0) nodes) [].

(** [rebuildProcessingOrder()] *)
Definition rebuildProcessingOrder (E : list Connection) : list Z :=
  kahn (all_nodes E) E.

(** [hasCycle(adj)]: the lambda [dfs] with its [visited] and [inStack]
    sets.  [dfs_neighbors] is its [for (int n : it->second)] loop, given
    the recursive call [dfs_rec]; it ends with [inStack.erase(node)].  The
    result is [None] only when [fuel] runs out, which [hasCycle] rules out by
    its choice of fuel. *)
Fixpoint dfs_neighbors
    (dfs_rec : Z -> list Z -> list Z -> option (bool * list Z * list Z))
    (node : Z) (ns : list Z) (visited inStack : list Z)
  : option (bool * list Z * list Z) :=
  match ns with
  | [] => Some (false, visited, remove Z.eq_dec node inStack)
  | n :: rest =>
      if set_mem n inStack then Some (true, visited, inStack)
      else if negb (set_mem n visited) then
        match dfs_rec n visited inStack with
        | None => None
        | Some (true, v, st) => Some (true, v, st)
        | Some (false, v, st) => dfs_neighbors dfs_rec node rest v st
        end
      else dfs_neighbors dfs_rec node rest visited inStack
  end.

(** [visited.insert(node); inStack.insert(node);] then the loop. *)
Fixpoint dfs (fuel : nat) (adj : Z -> list Z) (node : Z) (visited inStack : list Z)
  : option (bool * list Z * list Z) :=
  match fuel with
  | O => None
  | S f =>
      dfs_neighbors (fun n v st => dfs f adj n v st) node (adj node)
                    (node :: visited) (node :: inStack)
  end.

(** [for (const auto& [node, _] : adj) if (!visited.count(node) && dfs(node))
    return true;] over the keys of [adj] (the sources of the connections, in
    an order the [std::unordered_map] leaves unspecified). *)
Fixpoint dfs_keys (fuel : nat) (adj : Z -> list Z) (keys visited inStack : list Z)
  : option bool :=
  match keys with
  | [] => Some false
  | k :: ks =>
      if negb (set_mem k visited) then
        match dfs fuel adj k visited inStack with
        | None => None
        | Some (true, _, _) => Some true
        | Some (false, v, st) => dfs_keys fuel adj ks v st
        end
      else dfs_keys fuel adj ks visited inStack
  end.

Definition keys_of (E : list Connection) : list Z := nodup Z.eq_dec (map sourceId E).

(** [hasCycle] on the adjacency built from [E]. *)
Definition hasCycle (E : list Connection) : bool :=
  match dfs_keys (S (length (all_nodes E))) (adj_of E) (keys_of E) [] [] with
  | Some b => b
  | None => false
  end.

(** The graph object. *)
Record t := mk {
  connections_ : list Connection;
  processingOrder_ : list Z;
  activeBands_ : list Z }.

Definition with_connections (g : t) (E : list Connection) : t :=
  mk E (rebuildProcessingOrder E) (activeBands_ g).

(** [RoutingGraph()] *)
Definition create : t :=
  let E := [mkConn Input Output] in mk E (rebuildProcessingOrder E) default_bands.

(** [connect(sourceId, destId)] *)
Definition connect (g : t) (s d : Z) : t * bool :=
  if s =? d then (g, false)
  else if d =? Input then (g, false)
  else if s =? Output then (g, false)
  else if existsb (fun c => (sourceId c =? s) && (destId c =? d)) (connections_ g)
  then (g, false)
  else (with_connections g (connections_ g ++ [mkConn s d]), true).

(** [std::find_if] then [erase]: the first matching connection. *)
Fixpoint erase_first (s d : Z) (E : list Connection) : option (list Connection) :=
  match E with
  | [] => None
  | c :: r =>
      if (sourceId c =? s) && (destId c =? d) then Some r
      else option_map (cons c) (erase_first s d r)
  end.

(** [disconnect(sourceId, destId)] *)
Definition disconnect (g : t) (s d : Z) : t * bool :=
  match erase_first s d (connections_ g) with
  | Some E => (with_connections g E, true)
  | None => (g, false)
  end.

(** [disconnectAll(nodeId)] *)
Definition disconnectAll (g : t) (n : Z) : t :=
  with_connections g
    (filter (fun c => negb ((sourceId c =? n) || (destId c =? n))) (connections_ g)).

(** [clearAllConnections()] *)
Definition clearAllConnections (g : t) : t := with_connections g [].

(** [clear()] *)
Definition clear (g : t) : t :=
  let E := [mkConn Input Output] in mk E (rebuildProcessingOrder E) default_bands.

(** [addBand(bandId)] *)
Definition addBand (g : t) (b : Z) : t * bool :=
  if (b <? 1) || (12 <? b) then (g, false)
  else if set_mem b (activeBands_ g) then (g, false)
  else (mk (connections_ g) (processingOrder_ g) (set_insert b (activeBands_ g)), true).

(** [removeBand(bandId)] *)
Definition removeBand (g : t) (b : Z) : t * bool :=
  if (b <? 1) || (12 <? b) then (g, false)
  else if negb (set_mem b (activeBands_ g)) then (g, false)
  else let g1 := disconnectAll g b in
       (mk (connections_ g1) (processingOrder_ g1) (set_erase b (activeBands_ g1)), true).

(** [setActiveBands(bands)] *)
Definition setActiveBands (g : t) (bands : list Z) : t :=
  mk (connections_ g) (processingOrder_ g)
     (fold_left (fun acc b => if (1 <=? b) && (b <=? 12) then set_insert b acc else acc)
                bands []).

(** [setDefaultParallelRouting()] *)
Definition setDefaultParallelRouting (g : t) : t :=
  with_connections g
    (flat_map (fun b => [mkConn Input b; mkConn b Output]) (activeBands_ g)).

(** [connections_.push_back({bands[i], bands[i + 1]})] for consecutive bands. *)
Fixpoint series_links (bands : list Z) : list Connection :=
  match bands with
  | b1 :: ((b2 :: _) as rest) => mkConn b1 b2 :: series_links rest
  | _ => []
  end.

(** [setSeriesRouting()] *)
Definition setSeriesRouting (g : t) : t :=
  match activeBands_ g with
  | [] => with_connections g []
  | front :: _ =>
      let bands := activeBands_ g in
      with_connections g
        ([mkConn Input front] ++ series_links bands ++ [mkConn (last bands 0) Output])
  end.

(** [setConnections(newConnections)] *)
Definition setConnections (g : t) (E : list Connection) : t := with_connections g E.

(** [wouldCreateCycle(sourceId, destId)] and [hasCycles()] *)
Definition wouldCreateCycle (g : t) (s d : Z) : bool :=
  hasCycle (connections_ g ++ [mkConn s d]).

Definition hasCycles (g : t) : bool := hasCycle (connections_ g).

(** The public mutators ([fromXml] parses XML through JUCE and ends like
    [setActiveBands] followed by [setConnections]; it is not modelled). *)
Inductive op :=
  | Connect (s d : Z)
  | Disconnect (s d : Z)
  | DisconnectAll (n : Z)
  | ClearAllConnections
  | Clear
  | AddBand (b : Z)
  | RemoveBand (b : Z)
  | SetActiveBands (bands : list Z)
  | SetDefaultParallelRouting
  | SetSeriesRouting
  | SetConnections (E : list Connection).

Definition step (o : op) (g : t) : t :=
  match o with
  | Connect s d => fst (connect g s d)
  | Disconnect s d => fst (disconnect g s d)
  | DisconnectAll n => disconnectAll g n
  | ClearAllConnections => clearAllConnections g
  | Clear => clear g
  | AddBand b => fst (addBand g b)
  | RemoveBand b => fst (removeBand g b)
  | SetActiveBands bs => setActiveBands g bs
  | SetDefaultParallelRouting => setDefaultParallelRouting g
  | SetSeriesRouting => setSeriesRouting g
  | SetConnections E => setConnections g E
  end.

Definition run (ops : list op) (g : t) : t := fold_left (fun g o => step o g) ops g.

(** Graph vocabulary: an edge of the connection list, paths, acyclicity and
    the position of a node in a list. *)
Definition edge (E : list Connection) (u v : Z) : Prop := In (mkConn u v) E.
Definition path (E : list Connection) : Z -> Z -> Prop := clos_trans Z (edge E).
Definition acyclic (E : list Connection) : Prop := forall x, ~ path E x x.

Fixpoint index_of (x : Z) (l : list Z) : option nat :=
  match l with
  | [] => None
  | y :: r => if y =? x then Some O else option_map S (index_of x r)
  end.

(** DFS bookkeeping: a node is finished once visited and off the stack; the
    visited part is closed when the successors of finished nodes are
    finished and no finished node lies on a cycle; [unvisited] counts the
    nodes of [U] not yet visited. *)
Definition finished (V S : list Z) (x : Z) : Prop := In x V /\ ~ In x S.

Definition dfs_closed (E : list Connection) (V S : list Z) : Prop :=
  forall b, finished V S b -> (forall y, edge E b y -> finished V S y) /\ ~ path E b b.

Definition unvisited (U V : list Z) : nat :=
  length (filter (fun x => negb (set_mem x V)) U).

(** Kahn bookkeeping: the edges into [v] whose source is not yet output,
    and the loop invariant of [kahn_loop] for the output [O] and the queue
    [Q]: [deg] is that count, output and queue are distinct nodes of [N],
    a node is output or queued exactly when that count is zero, and the
    source of every edge into an output node was output before it. *)
Definition indeg_rest (E : list Connection) (O : list Z) (v : Z) : Z :=
  Z.of_nat (length (filter (fun c => (destId c =? v) && negb (set_mem (sourceId c) O)) E)).

Definition kahn_inv (E : list Connection) (N : list Z) (deg : Z -> Z) (Q O : list Z) : Prop :=
  (forall v, deg v = indeg_rest E O v) /\
  NoDup (O ++ Q) /\ incl (O ++ Q) N /\
  (forall v, In v N -> (indeg_rest E O v = 0 <-> In v (O ++ Q))) /\
  (forall c, In c E -> In (destId c) O ->
     exists i j, index_of (sourceId c) O = Some i /\ index_of (destId c) O = Some j /\
                 (i < j)%nat).

(** A walk backwards along the connections: each node of the list is a
    predecessor of the one before it. *)
Fixpoint back_walk (E : list Connection) (l : list Z) : Prop :=
  match l with
  | x :: ((y :: _) as r) => edge E y x /\ back_walk E r
  | _ => True
  end.

(** The well-formedness of a connection list asked for by the routing
    editor: no self-loop, nothing into Input, nothing out of Output, no pair
    twice. *)
Definition conn_ok (c : Connection) : Prop :=
  sourceId c <> destId c /\ destId c <> Input /\ sourceId c <> Output.

Definition valid_connections (E : list Connection) : Prop :=
  Forall conn_ok E /\ NoDup E.

(** The [std::set] of active bands: increasing, within [1, 12]. *)
Definition bands_ok (bs : list Z) : Prop :=
  Sorted.StronglySorted Z.lt bs /\ Forall (fun b => 1 <= b <= 12) bs.

(** The operations under which the well-formedness is kept: everything but
    [setConnections], with the two routing presets applied while band 9,
    whose id is the Output id, is inactive. *)
Definition keeps_wellformed (o : op) (g : t) : Prop :=
  match o with
  | SetConnections _ => False
  | SetDefaultParallelRouting | SetSeriesRouting => ~ In Output (activeBands_ g)
  | _ => True
  end.

Inductive reachable_wf : t -> Prop :=
  | rw_create : reachable_wf create
  | rw_step o g : reachable_wf g -> keeps_wellformed o g -> reachable_wf (step o g).

End Routing.

(* ================================================================== *)
(** ** DelayMatrix: final dry/wet mix (process and processWithRouting) *)

Module DelayMix.

Section PanLaw.

(** [std::cos] and [std::sin] on [float] are library functions. *)
Variable cosf : spec_float -> spec_float.
Variable sinf : spec_float -> spec_float.

(** The literal [3.14159f]. *)
Definition pi_literal : spec_float := F.lit 314159 100000.

(** [(dryPan + 1.0f) * 0.25f * 3.14159f] *)
Definition pan_angle (dryPan : spec_float) : spec_float :=
  F.mul (F.mul (F.add dryPan F.one) (F.lit 1 4)) pi_literal.

(** [float dryPanL = std::cos((dryPan + 1.0f) * 0.25f * 3.14159f) * dryLevel;] *)
Definition dryPanL (dryLevel dryPan : spec_float) : spec_float :=
  F.mul (cosf (pan_angle dryPan)) dryLevel.

(** [float dryPanR = std::sin((dryPan + 1.0f) * 0.25f * 3.14159f) * dryLevel;] *)
Definition dryPanR (dryLevel dryPan : spec_float) : spec_float :=
  F.mul (sinf (pan_angle dryPan)) dryLevel.

(** [float dryGain = (ch == 0) ? dryPanL : dryPanR;] *)
Definition dryGain (ch : nat) (dryLevel dryPan : spec_float) : spec_float :=
  if Nat.eqb ch 0 then dryPanL dryLevel dryPan else dryPanR dryLevel dryPan.

(** [out[s] = dry[s] * dryGain + wet[s] * wetMix;], each operation rounded
    to [float] (no fused multiply-add). *)
Definition mix_sample (ch : nat) (wetMix dryLevel dryPan d w : spec_float) : spec_float :=
  F.add (F.mul d (dryGain ch dryLevel dryPan)) (F.mul w wetMix).

(** The loop over [s < numSamples] of channel [ch]: [dry] is the channel of
    [dryBuffer] (a copy of the input), [wet] the channel of the limited
    Output-node buffer, and the result the channel of [buffer] afterwards.
    A read past the end of either channel is undefined behaviour: [None]. *)
Definition mix_channel (ch numSamples : nat) (dry wet : list spec_float)
    (wetMix dryLevel dryPan : spec_float) : option (list spec_float) :=
  if Nat.leb numSamples (length dry) && Nat.leb numSamples (length wet) then
    Some (map (fun s => mix_sample ch wetMix dryLevel dryPan (nth s dry F.zero) (nth s wet F.zero))
              (seq 0 numSamples) ++ skipn numSamples dry)
  else None.

(** The loop over [ch < numChannels]; the channels from [numChannels] on
    are not written and keep their input samples. *)
Fixpoint mix_channels (ch numChannels numSamples : nat) (buffer wet : list (list spec_float))
    (wetMix dryLevel dryPan : spec_float) : option (list (list spec_float)) :=
  match buffer with
  | [] => Some []
  | dry :: rest =>
      let out :=
        if Nat.ltb ch numChannels then
          match nth_error wet ch with
          | Some w => mix_channel ch numSamples dry w wetMix dryLevel dryPan
          | None => None
          end
        else Some dry in
      match out, mix_channels (S ch) numChannels numSamples rest wet wetMix dryLevel dryPan with
      | Some o, Some os => Some (o :: os)
      | _, _ => None
      end
  end.

(** The final mix of [DelayMatrix::process] (and [processWithRouting]) on
    [buffer], a list of channels of [buffer.getNumSamples()] samples each,
    with [numChannels = std::min(2, buffer.getNumChannels())] and the early
    return when [numSamples == 0 || numChannels == 0]. *)
Definition final_mix (buffer wet : list (list spec_float))
    (wetMix dryLevel dryPan : spec_float) : option (list (list spec_float)) :=
  let numSamples := match buffer with [] => O | c :: _ => length c end in
  let numChannels := Nat.min 2 (length buffer) in
  if Nat.eqb numSamples 0 || Nat.eqb numChannels 0 then Some buffer
  else mix_channels 0 numChannels numSamples buffer wet wetMix dryLevel dryPan.

End PanLaw.

(** Default arguments of [process] and [processWithRouting]. *)
Definition default_dryLevel : spec_float := F.one.
Definition default_dryPan : spec_float := F.zero.

(** The pan angle at the default dry pan, [3.14159f / 4] in [float]. *)
Definition default_angle : spec_float := S754_finite false 13176784 (-24).

(** A [float] value [k * 2^-24] with [0.7070 <= k * 2^-24 <= 0.7072]: what
    an accurate [std::cos] or [std::sin] returns at [default_angle] (the
    real values are about 0.70711). *)
Definition near_sqrt_half (x : spec_float) : Prop :=
  exists k, x = S754_finite false k (-24) /\ (11861492 <= Zpos k <= 11864847)%Z.

(** The [float] values nearest the real cosine and sine of [default_angle]
    (0.70710725 and 0.70710635); other arguments give NaN. *)
Definition cos_nearest (x : spec_float) : spec_float :=
  if SFeqb x default_angle then S754_finite false 11863291 (-24) else S754_nan.
Definition sin_nearest (x : spec_float) : spec_float :=
  if SFeqb x default_angle then S754_finite false 11863276 (-24) else S754_nan.

End DelayMix.

(* ================================================================== *)
(** ** GenerativeModulator *)

Module Modulator.
Local Open Scope R_scope.

Inductive ModulationType := Sine | Triangle | Saw | Square | Brownian | Lorenz.

(** [std::clamp(v, lo, hi)]: [v < lo ? lo : hi < v ? hi : v]. *)
Definition clamp (v lo hi : R) : R :=
  if Rlt_dec v lo then lo else if Rlt_dec hi v then hi else v.

Record t := mk {
  sampleRate_ : R;
  type_ : ModulationType;
  rateHz_ : R;
  depth_ : R;
  phase_ : R;
  brownianValue_ : R;
  brownianTarget_ : R;
  lorenzX_ : R;
  lorenzY_ : R;
  lorenzZ_ : R;
  lorenzSmoothed_ : R
}.

(** The member initialisers. The generator [rng_] is not part of the state:
    the value of [rng_.nextFloat()] is an argument of [tick]. *)
Definition init : t :=
  mk 44100 Sine 1 0 0 0 0 (1 / 10) 0 0 0.

Definition prepare (sampleRate : R) (m : t) : t :=
  mk sampleRate (type_ m) (rateHz_ m) (depth_ m) (phase_ m) (brownianValue_ m)
     (brownianTarget_ m) (lorenzX_ m) (lorenzY_ m) (lorenzZ_ m) (lorenzSmoothed_ m).

(** [reset] leaves [brownianTarget_] and [lorenzSmoothed_] alone. *)
Definition reset (m : t) : t :=
  mk (sampleRate_ m) (type_ m) (rateHz_ m) (depth_ m) 0 0
     (brownianTarget_ m) (1 / 10) 0 0 (lorenzSmoothed_ m).

Definition setParams (type : ModulationType) (rateHz depth : R) (m : t) : t :=
  mk (sampleRate_ m) type (clamp rateHz (1 / 100) 20) (clamp depth 0 1)
     (phase_ m) (brownianValue_ m) (brownianTarget_ m)
     (lorenzX_ m) (lorenzY_ m) (lorenzZ_ m) (lorenzSmoothed_ m).

(** [phase_ += inc; if (phase_ >= 1.0f) phase_ -= 1.0f;] *)
Definition advancePhase (phase inc : R) : R :=
  let p := phase + inc in
  if Rle_dec 1 p then p - 1 else p.

(** One Euler step of the Lorenz system, [sigma = 10], [rho = 28],
    [beta = 8/3], [dt = 0.01]. *)
Definition lorenz_step (xyz : R * R * R) : R * R * R :=
  let '(x, y, z) := xyz in
  let dx := 10 * (y - x) in
  let dy := x * (28 - z) - y in
  let dz := x * y - 8 / 3 * z in
  (x + dx * (1 / 100), y + dy * (1 / 100), z + dz * (1 / 100)).

Fixpoint lorenz_iter (n : nat) (xyz : R * R * R) : R * R * R :=
  match n with
  | O => xyz
  | S k => lorenz_iter k (lorenz_step xyz)
  end.

(** [std::max(1, static_cast<int>(rateHz_ * 0.5f))]; the truncation and the
    floor [Int_part] agree wherever the maximum with 1 does not win. *)
Definition lorenz_iterations (rateHz : R) : nat :=
  Z.to_nat (Z.max 1 (Int_part (rateHz * (1 / 2)))).

(** [tick()]: the returned value and the new state; [nextFloat] is the value
    [rng_.nextFloat()] would return if it is drawn. *)
Definition tick (nextFloat : R) (m : t) : R * t :=
  let phaseInc := rateHz_ m / sampleRate_ m in
  let '(rawValue, m') :=
    match type_ m with
    | Sine =>
        (sin (phase_ m * 2 * PI),
         mk (sampleRate_ m) (type_ m) (rateHz_ m) (depth_ m)
            (advancePhase (phase_ m) phaseInc) (brownianValue_ m) (brownianTarget_ m)
            (lorenzX_ m) (lorenzY_ m) (lorenzZ_ m) (lorenzSmoothed_ m))
    | Triangle =>
        (if Rlt_dec (phase_ m) (1 / 2) then 4 * phase_ m - 1 else 3 - 4 * phase_ m,
         mk (sampleRate_ m) (type_ m) (rateHz_ m) (depth_ m)
            (advancePhase (phase_ m) phaseInc) (brownianValue_ m) (brownianTarget_ m)
            (lorenzX_ m) (lorenzY_ m) (lorenzZ_ m) (lorenzSmoothed_ m))
    | Saw =>
        (2 * phase_ m - 1,
         mk (sampleRate_ m) (type_ m) (rateHz_ m) (depth_ m)
            (advancePhase (phase_ m) phaseInc) (brownianValue_ m) (brownianTarget_ m)
            (lorenzX_ m) (lorenzY_ m) (lorenzZ_ m) (lorenzSmoothed_ m))
    | Square =>
        (if Rlt_dec (phase_ m) (1 / 2) then 1 else -1,
         mk (sampleRate_ m) (type_ m) (rateHz_ m) (depth_ m)
            (advancePhase (phase_ m) phaseInc) (brownianValue_ m) (brownianTarget_ m)
            (lorenzX_ m) (lorenzY_ m) (lorenzZ_ m) (lorenzSmoothed_ m))
    | Brownian =>
        let prevPhase := phase_ m in
        let phase := advancePhase (phase_ m) phaseInc in
        let target :=
          if Rlt_dec phase prevPhase then
            let step := (nextFloat - 1 / 2) * (4 / 10) in
            clamp ((brownianTarget_ m + step) * (92 / 100)) (-1) 1
          else brownianTarget_ m in
        let value := brownianValue_ m + (target - brownianValue_ m) * (1 / 1000) in
        (value,
         mk (sampleRate_ m) (type_ m) (rateHz_ m) (depth_ m) phase value target
            (lorenzX_ m) (lorenzY_ m) (lorenzZ_ m) (lorenzSmoothed_ m))
    | Lorenz =>
        let '(x, y, z) :=
          lorenz_iter (lorenz_iterations (rateHz_ m)) (lorenzX_ m, lorenzY_ m, lorenzZ_ m) in
        let lorenzRaw := clamp (x / 20) (-1) 1 in
        let slewRate := 5 / 10000 + rateHz_ m * (1 / 10000) in
        let smoothed := lorenzSmoothed_ m + (lorenzRaw - lorenzSmoothed_ m) * slewRate in
        (smoothed,
         mk (sampleRate_ m) (type_ m) (rateHz_ m) (depth_ m) (phase_ m)
            (brownianValue_ m) (brownianTarget_ m) x y z smoothed)
    end in
  (rawValue * depth_ m, m').

Inductive op :=
  | Prepare (sampleRate : R)
  | Reset
  | SetParams (type : ModulationType) (rateHz depth : R)
  | Tick (nextFloat : R).

Definition step (m : t) (o : op) : t :=
  match o with
  | Prepare sr => prepare sr m
  | Reset => reset m
  | SetParams ty r d => setParams ty r d m
  | Tick u => snd (tick u m)
  end.

Definition run (ops : list op) (m : t) : t := fold_left step ops m.

(** The sample rates handed to [prepare] are at least the largest rate
    [setParams] lets through (20 Hz), so one tick advances the phase by at
    most one period. *)
Definition prepare_ok (o : op) : Prop :=
  match o with
  | Prepare sr => 20 <= sr
  | _ => True
  end.

(** The invariant of a modulator. *)
Definition inv (m : t) : Prop :=
  20 <= sampleRate_ m /\ 1 / 100 <= rateHz_ m <= 20 /\ 0 <= depth_ m <= 1 /\
  0 <= phase_ m < 1 /\ -1 <= brownianValue_ m <= 1 /\
  -1 <= brownianTarget_ m <= 1 /\ -1 <= lorenzSmoothed_ m <= 1.

End Modulator.

(* ================================================================== *)
(** ** AttackEnvelope *)

Module AttackEnvelope.
Local Open Scope R_scope.

(** [std::clamp(v, lo, hi)]. *)
Definition clamp (v lo hi : R) : R :=
  if Rlt_dec v lo then lo else if Rlt_dec hi v then hi else v.

Record t := mk {
  sampleRate_ : R;
  attackTimeMs_ : R;
  releaseTimeMs_ : R;
  threshold_ : R;
  attackCoeff_ : R;
  releaseCoeff_ : R;
  envelope_ : R;
  triggered_ : bool
}.

Definition init : t := mk 44100 0 100 (1 / 1000) 1 (1 / 100) 0 false.

(** [updateCoefficients()], with its early return when [sampleRate_ <= 0]. *)
Definition updateCoefficients (e : t) : t :=
  if Rle_dec (sampleRate_ e) 0 then e
  else
    let attackCoeff :=
      if Rlt_dec 0 (attackTimeMs_ e) then
        let attackSamples := attackTimeMs_ e / 1000 * sampleRate_ e in
        1 - exp ((-5) / attackSamples)
      else 1 in
    let releaseSamples := releaseTimeMs_ e / 1000 * sampleRate_ e in
    let releaseCoeff := 1 - exp ((-5) / releaseSamples) in
    mk (sampleRate_ e) (attackTimeMs_ e) (releaseTimeMs_ e) (threshold_ e)
       attackCoeff releaseCoeff (envelope_ e) (triggered_ e).

Definition prepare (sampleRate : R) (e : t) : t :=
  updateCoefficients
    (mk sampleRate (attackTimeMs_ e) (releaseTimeMs_ e) (threshold_ e)
        (attackCoeff_ e) (releaseCoeff_ e) (envelope_ e) (triggered_ e)).

Definition reset (e : t) : t :=
  mk (sampleRate_ e) (attackTimeMs_ e) (releaseTimeMs_ e) (threshold_ e)
     (attackCoeff_ e) (releaseCoeff_ e) 0 false.

Definition setAttackTimeMs (attackMs : R) (e : t) : t :=
  if Req_dec_T (attackTimeMs_ e) attackMs then e
  else updateCoefficients
         (mk (sampleRate_ e) (clamp attackMs 0 5000) (releaseTimeMs_ e) (threshold_ e)
             (attackCoeff_ e) (releaseCoeff_ e) (envelope_ e) (triggered_ e)).

Definition setReleaseTimeMs (releaseMs : R) (e : t) : t :=
  if Req_dec_T (releaseTimeMs_ e) releaseMs then e
  else updateCoefficients
         (mk (sampleRate_ e) (attackTimeMs_ e) (clamp releaseMs 1 5000) (threshold_ e)
             (attackCoeff_ e) (releaseCoeff_ e) (envelope_ e) (triggered_ e)).

(** [threshold_ = std::pow(10.0f, thresholdDb / 20.0f);] *)
Definition setThreshold (thresholdDb : R) (e : t) : t :=
  mk (sampleRate_ e) (attackTimeMs_ e) (releaseTimeMs_ e) (Rpower 10 (thresholdDb / 20))
     (attackCoeff_ e) (releaseCoeff_ e) (envelope_ e) (triggered_ e).

Definition with_env (env : R) (trig : bool) (e : t) : t :=
  mk (sampleRate_ e) (attackTimeMs_ e) (releaseTimeMs_ e) (threshold_ e)
     (attackCoeff_ e) (releaseCoeff_ e) env trig.

(** [process(inputLevel)]: the returned envelope value and the new state. *)
Definition process (inputLevel : R) (e : t) : R * t :=
  if Rlt_dec (threshold_ e) inputLevel then
    let env := envelope_ e + attackCoeff_ e * (1 - envelope_ e) in
    (env, with_env env true e)
  else if triggered_ e then
    let env := envelope_ e - releaseCoeff_ e * envelope_ e in
    if Rlt_dec env (1 / 1000) then (0, with_env 0 false e)
    else (env, with_env env true e)
  else (envelope_ e, e).

(** [processBlock(inputL, inputR, wetL, wetR)]: the new wet pair and state. *)
Definition processBlock (inputL inputR wetL wetR : R) (e : t) : (R * R) * t :=
  let inputLevel := Rmax (Rabs inputL) (Rabs inputR) in
  let '(env, e') := process inputLevel e in
  ((wetL * env, wetR * env), e').

Inductive op :=
  | Prepare (sampleRate : R)
  | Reset
  | SetAttackTimeMs (attackMs : R)
  | SetReleaseTimeMs (releaseMs : R)
  | SetThreshold (thresholdDb : R)
  | Process (inputLevel : R)
  | ProcessBlock (inputL inputR wetL wetR : R).

Definition step (e : t) (o : op) : t :=
  match o with
  | Prepare sr => prepare sr e
  | Reset => reset e
  | SetAttackTimeMs a => setAttackTimeMs a e
  | SetReleaseTimeMs r => setReleaseTimeMs r e
  | SetThreshold db => setThreshold db e
  | Process l => snd (process l e)
  | ProcessBlock l r wl wr => snd (processBlock l r wl wr e)
  end.

Definition run (ops : list op) (e : t) : t := fold_left step ops e.

(** The invariant of an envelope. *)
Definition inv (e : t) : Prop :=
  1 <= releaseTimeMs_ e /\ 0 <= attackCoeff_ e <= 1 /\
  0 <= releaseCoeff_ e <= 1 /\ 0 <= envelope_ e <= 1.

(** The envelope is 0 whenever it is not triggered. *)
Definition quiet (e : t) : Prop :=
  triggered_ e = false -> envelope_ e = 0.

End AttackEnvelope.

(* ================================================================== *)
(** ** RoutingGraph queries (Source/Core/RoutingGraph.h) *)

Module RoutingQueries.
Import Routing.
Open Scope Z_scope.

(** [getInputsFor(nodeId)] and [getOutputsFor(nodeId)] *)
Definition getInputsFor (g : t) (nodeId : Z) : list Z :=
  map sourceId (filter (fun c => destId c =? nodeId) (connections_ g)).

Definition getOutputsFor (g : t) (nodeId : Z) : list Z :=
  map destId (filter (fun c => sourceId c =? nodeId) (connections_ g)).

(** [isBandActive(bandId)] and [getActiveBandCount()] *)
Definition isBandActive (g : t) (bandId : Z) : bool := set_mem bandId (activeBands_ g).

Definition getActiveBandCount (g : t) : Z := Z.of_nat (length (activeBands_ g)).

End RoutingQueries.

(* ================================================================== *)
(** ** RoutingUndoManager (Source/Core/RoutingUndoManager.h) *)

Module RoutingUndo.
Import Routing.

Definition kMaxHistorySize : nat := 32.

(** [size_t] is 64-bit unsigned: [a - b] wraps modulo [2^64]. *)
Definition size_t_sub (a b : Z) : Z := ((a - b) mod 2 ^ 64)%Z.

(** [history_] and [currentIndex_] (a [size_t]; it never comes near
    [2^64], as every step moves it by one). *)
Record t := mk {
  history_ : list (list Connection);
  currentIndex_ : nat }.

(** [RoutingUndoManager() = default] *)
Definition init : t := mk [] 0.

(** [while (history_.size() > kMaxHistorySize) history_.erase(history_.begin());]
    Each iteration removes one snapshot, so [length h] iterations suffice. *)
Fixpoint trim_front (fuel : nat) (h : list (list Connection)) : list (list Connection) :=
  match fuel with
  | O => h
  | S f => if Nat.ltb kMaxHistorySize (length h) then trim_front f (tl h) else h
  end.

(** [saveState(graph)] *)
Definition saveState (m : t) (g : Routing.t) : t :=
  let h := if Nat.ltb (currentIndex_ m) (length (history_ m))
           then firstn (currentIndex_ m) (history_ m) else history_ m in
  let h := h ++ [connections_ g] in
  let h := trim_front (length h) h in
  mk h (length h).

(** [canUndo()] and [canRedo()]; the latter computes [history_.size() - 1]
    in [size_t]. *)
Definition canUndo (m : t) : bool := Nat.ltb 0 (currentIndex_ m).

Definition canRedo (m : t) : bool :=
  (Z.of_nat (currentIndex_ m) <? size_t_sub (Z.of_nat (length (history_ m))) 1)%Z.

(** [restoreState(graph, state)]: [clearAllConnections] then [connect] for
    each saved connection, in order. *)
Definition restoreState (g : Routing.t) (state : list Connection) : Routing.t :=
  fold_left (fun g c => fst (connect g (sourceId c) (destId c))) state
            (clearAllConnections g).

(** [undo(graph)] and [redo(graph)]: the manager, the graph and the result.
    [None] stands for the read of [history_[currentIndex_]] out of bounds. *)
Definition undo (m : t) (g : Routing.t) : option (t * Routing.t * bool) :=
  if negb (canUndo m) then Some (m, g, false) else
  let h := if Nat.eqb (currentIndex_ m) (length (history_ m))
           then history_ m ++ [connections_ g] else history_ m in
  let i := pred (currentIndex_ m) in
  match nth_error h i with
  | Some st => Some (mk h i, restoreState g st, true)
  | None => None
  end.

Definition redo (m : t) (g : Routing.t) : option (t * Routing.t * bool) :=
  if negb (canRedo m) then Some (m, g, false) else
  let i := S (currentIndex_ m) in
  match nth_error (history_ m) i with
  | Some st => Some (mk (history_ m) i, restoreState g st, true)
  | None => None
  end.

(** [clear()] *)
Definition clear (m : t) : t := mk [] 0.

End RoutingUndo.

(* ================================================================== *)
(** ** ModulationEngine (Source/Core/ModulationEngine.h) *)

Module ModulationEngine.
Local Open Scope R_scope.

(** [bandModulators_] (a [std::array] of 8), [masterModulator_], and the
    number of samples per channel of [localModBuffer_] (8 channels) and
    [masterModBuffer_] (1 channel): both are sized together by [prepare],
    and are empty (0 samples) in a default-constructed engine.  The values
    [process] writes into them are its outputs. *)
Record t := mk {
  bandModulators_ : list Modulator.t;
  masterModulator_ : Modulator.t;
  bufferSize_ : Z }.

Definition init : t := mk (repeat Modulator.init 8) Modulator.init 0.

(** [static_cast<int>(maxBlockSize)]: the [size_t] value modulo 2^32, read
    as a 32-bit two's complement [int]. *)
Definition int_of_size_t (z : Z) : Z :=
  let w := (z mod 2 ^ 32)%Z in if (w <? 2 ^ 31)%Z then w else (w - 2 ^ 32)%Z.

(** [prepare(sampleRate, maxBlockSize)]: [setSize(8, (int)maxBlockSize)],
    [setSize(1, (int)maxBlockSize)], then every modulator's [prepare]. *)
Definition prepare (sampleRate : R) (maxBlockSize : Z) (e : t) : t :=
  mk (map (Modulator.prepare sampleRate) (bandModulators_ e))
     (Modulator.prepare sampleRate (masterModulator_ e))
     (int_of_size_t maxBlockSize).

(** [reset()]: the buffers are cleared, not resized. *)
Definition reset (e : t) : t :=
  mk (map Modulator.reset (bandModulators_ e)) (Modulator.reset (masterModulator_ e))
     (bufferSize_ e).

(** [a[i] = f(a[i])] *)
Fixpoint update_nth {A : Type} (i : nat) (f : A -> A) (l : list A) : list A :=
  match l, i with
  | [], _ => []
  | x :: r, O => f x :: r
  | x :: r, S k => x :: update_nth k f r
  end.

(** [setBandParams(bandIndex, type, rate, depth)]: ignored out of [0, 8). *)
Definition setBandParams (bandIndex : Z) (type : Modulator.ModulationType)
    (rate depth : R) (e : t) : t :=
  if ((0 <=? bandIndex) && (bandIndex <? 8))%Z
  then mk (update_nth (Z.to_nat bandIndex) (Modulator.setParams type rate depth)
                      (bandModulators_ e))
          (masterModulator_ e) (bufferSize_ e)
  else e.

Definition setMasterParams (type : Modulator.ModulationType) (rate depth : R) (e : t) : t :=
  mk (bandModulators_ e) (Modulator.setParams type rate depth (masterModulator_ e))
     (bufferSize_ e).

(** [for (int i = 0; i < numSamples; ++i) write[i] = modulator.tick();]
    [rng i] is the value the modulator's generator would give at the
    [i]-th tick of the block, if drawn. *)
Fixpoint ticks (n : nat) (rng : nat -> R) (i : nat) (m : Modulator.t)
  : list R * Modulator.t :=
  match n with
  | O => ([], m)
  | S k =>
      let '(v, m1) := Modulator.tick (rng i) m in
      let '(vs, m2) := ticks k rng (S i) m1 in
      (v :: vs, m2)
  end.

(** [process(numSamples)]: the new engine and the values written to the
    master buffer and to the 8 band channels (nothing when
    [numSamples <= 0]).  [rng k] is the generator of band [k], [rng 8] the
    master's.  Writing [numSamples] values into buffers of [bufferSize_]
    samples goes past their end when [numSamples > bufferSize_]: undefined
    behaviour, [None]. *)
Definition process (numSamples : Z) (rng : nat -> nat -> R) (e : t)
  : option (t * (list R * list (list R))) :=
  if (numSamples <=? 0)%Z then Some (e, ([], [])) else
  if (bufferSize_ e <? numSamples)%Z then None else
  let n := Z.to_nat numSamples in
  let '(mv, master) := ticks n (rng 8%nat) 0 (masterModulator_ e) in
  let out := map (fun '(ch, m) => ticks n (rng ch) 0 m)
                 (combine (seq 0 (length (bandModulators_ e))) (bandModulators_ e)) in
  Some (mk (map snd out) master (bufferSize_ e), (mv, map fst out)).

Inductive op :=
  | Prepare (sampleRate : R) (maxBlockSize : Z)
  | Reset
  | SetBandParams (bandIndex : Z) (type : Modulator.ModulationType) (rate depth : R)
  | SetMasterParams (type : Modulator.ModulationType) (rate depth : R)
  | Process (numSamples : Z) (rng : nat -> nat -> R).

Definition step (e : t) (o : op) : option t :=
  match o with
  | Prepare sr mbs => Some (prepare sr mbs e)
  | Reset => Some (reset e)
  | SetBandParams i ty r d => Some (setBandParams i ty r d e)
  | SetMasterParams ty r d => Some (setMasterParams ty r d e)
  | Process n rng => option_map fst (process n rng e)
  end.

(** A sequence of calls; [None] once a call has undefined behaviour. *)
Fixpoint run (ops : list op) (e : t) : option t :=
  match ops with
  | [] => Some e
  | o :: rest => match step e o with Some e1 => run rest e1 | None => None end
  end.

(** As for a single modulator: sample rates of at least 20 Hz. *)
Definition prepare_ok (o : op) : Prop :=
  match o with
  | Prepare sr _ => 20 <= sr
  | _ => True
  end.

(** The engine keeps 8 band modulators, each satisfying the modulator
    invariant, as does the master. *)
Definition einv (e : t) : Prop :=
  length (bandModulators_ e) = 8%nat /\
  Forall Modulator.inv (bandModulators_ e) /\ Modulator.inv (masterModulator_ e).

End ModulationEngine.

(* ================================================================== *)
(** ** Node editor colours (Source/UI/NodeVisual.h) *)

Module NodeColors.
Open Scope Z_scope.

(** [juce::Colour] values as their 32-bit ARGB words. *)
Definition kBandColorValues : list Z :=
  [0xffff6b6b; 0xffffd93d; 0xff6bcb77; 0xff4d96ff;
   0xffc084fc; 0xffff8fab; 0xff00d9ff; 0xffffb347].

(** [NodeEditorTheme::getBandColor(bandIndex)] *)
Definition getBandColor (bandIndex : Z) : Z :=
  if (0 <=? bandIndex) && (bandIndex <? 8)
  then nth (Z.to_nat bandIndex) kBandColorValues 0
  else 0xff00b4d8.

(** The theme fields used below, with their default member initialisers. *)
Record theme := mkTheme { cableDefault : Z }.

Definition default_theme : theme := mkTheme 0xff00b4d8.

(** [getCableColorForSource(sourceNodeId)] *)
Definition getCableColorForSource (th : theme) (sourceNodeId : Z) : Z :=
  if (1 <=? sourceNodeId) && (sourceNodeId <=? 8)
  then getBandColor (sourceNodeId - 1)
  else cableDefault th.

End NodeColors.

(* ################################################################## *)
(** * Proofs *)

Module LimiterFacts.
Import Limiter.

(** NaN is absorbing for every arithmetic operation and makes every
    comparison false. *)
Lemma add_nan_r x : F.add x S754_nan = S754_nan.
Proof. destruct x as [[]|[]| |[]]; reflexivity. Qed.
Lemma add_nan_l x : F.add S754_nan x = S754_nan.
Proof. reflexivity. Qed.
Lemma mul_nan_r x : F.mul x S754_nan = S754_nan.
Proof. destruct x as [[]|[]| |[]]; reflexivity. Qed.
Lemma mul_nan_l x : F.mul S754_nan x = S754_nan.
Proof. reflexivity. Qed.
Lemma sub_nan_l x : F.sub S754_nan x = S754_nan.
Proof. reflexivity. Qed.
Lemma div_nan_l x : F.div S754_nan x = S754_nan.
Proof. reflexivity. Qed.
Lemma gt_nan_l x : F.gt S754_nan x = false.
Proof. destruct x as [[]|[]| |[]]; reflexivity. Qed.
Lemma gt_nan_r x : F.gt x S754_nan = false.
Proof. reflexivity. Qed.
Lemma max_nan_l x : F.max S754_nan x = S754_nan.
Proof. reflexivity. Qed.
Lemma abs_nan : F.abs S754_nan = S754_nan.
Proof. reflexivity. Qed.
Lemma clamp_nan lo hi : F.clamp S754_nan lo hi = S754_nan.
Proof. unfold F.clamp, F.lt; destruct hi as [[]|[]| |[]]; reflexivity. Qed.

Ltac nan_simpl :=
  repeat (first [ rewrite abs_nan | rewrite max_nan_l | rewrite gt_nan_l
                | rewrite gt_nan_r | rewrite mul_nan_l | rewrite mul_nan_r
                | rewrite add_nan_r | rewrite add_nan_l | rewrite sub_nan_l
                | rewrite div_nan_l | rewrite clamp_nan
                | progress cbv beta iota zeta ]).

Lemma sample_nan_left s l r :
  permanentlyMuted_ s = false ->
  F.isfinite l = true ->
  F.add (F.sub l (dcBlockPrevL_ s))
        (F.mul (F.to_float (dcBlockCoeff_ s)) (dcBlockStateL_ s)) = S754_nan ->
  fst (snd (process_sample s l r)) = S754_nan.
Proof.
  intros Hm Hl Hnan. unfold process_sample. rewrite Hm, Hl.
  cbv beta zeta iota.
  destruct (F.gt _ _); [destruct (_ <=? _)%Z|];
  destruct (F.isfinite r); cbv beta zeta iota;
  (destruct (F.gt _ (dcOffsetThreshold_ s)); [destruct (_ <=? _)%Z|]);
  cbv beta zeta iota; rewrite Hnan; nan_simpl.
  all: reflexivity.
Qed.

(** One unmuted sample with finite inputs and counters two below their
    thresholds: the latch stays open, each counter is reset or incremented,
    and the left DC blocker advances as written in stage 3. *)
Lemma sample_frame s l r :
  permanentlyMuted_ s = false ->
  F.isfinite l = true -> F.isfinite r = true ->
  (sustainedPeakCounter_ s + 1 < sustainedPeakThresholdSamples_ s)%Z ->
  (dcOffsetCounter_ s + 1 < dcOffsetThresholdSamples_ s)%Z ->
  let s' := fst (process_sample s l r) in
  permanentlyMuted_ s' = false /\
  (sustainedPeakCounter_ s' = 0 \/
   sustainedPeakCounter_ s' = sustainedPeakCounter_ s + 1)%Z /\
  (dcOffsetCounter_ s' = 0 \/ dcOffsetCounter_ s' = dcOffsetCounter_ s + 1)%Z /\
  sustainedPeakThresholdSamples_ s' = sustainedPeakThresholdSamples_ s /\
  dcOffsetThresholdSamples_ s' = dcOffsetThresholdSamples_ s /\
  dcBlockCoeff_ s' = dcBlockCoeff_ s /\
  dcBlockPrevL_ s' = l /\
  dcBlockStateL_ s' =
    F.add (F.sub l (dcBlockPrevL_ s))
          (F.mul (F.to_float (dcBlockCoeff_ s)) (dcBlockStateL_ s)).
Proof.
  intros Hm Hl Hr Hp Hd. unfold process_sample. rewrite Hm, Hl, Hr.
  cbv beta zeta iota.
  destruct (F.gt _ (dangerPeakThreshold_ s));
    [destruct (sustainedPeakThresholdSamples_ s <=? sustainedPeakCounter_ s + 1)%Z
       eqn:E1; [apply Z.leb_le in E1; lia|] |];
  cbv beta zeta iota;
  (destruct (F.gt _ (dcOffsetThreshold_ s));
    [destruct (dcOffsetThresholdSamples_ s <=? dcOffsetCounter_ s + 1)%Z
       eqn:E2; [apply Z.leb_le in E2; lia|] |]);
  cbv beta zeta iota;
  (destruct (F.gt _ (sustainedThreshold_ s))); cbv beta zeta iota;
  cbn [fst snd permanentlyMuted_ sustainedPeakCounter_ dcOffsetCounter_
       sustainedPeakThresholdSamples_ dcOffsetThresholdSamples_
       dcBlockCoeff_ dcBlockPrevL_ dcBlockStateL_];
  repeat split; auto.
Qed.

Lemma add_ninf_cases x :
  F.add (S754_infinity true) x = S754_infinity true \/
  F.add (S754_infinity true) x = S754_nan.
Proof. destruct x as [[]|[]| |[]]; cbn; auto. Qed.

Lemma inf_plus_scaled m e y :
  y = S754_infinity true \/ y = S754_nan ->
  F.add (S754_infinity false) (F.mul (S754_finite false m e) y) = S754_nan.
Proof. intros [-> | ->]; reflexivity. Qed.

Lemma process_muted s blk :
  permanentlyMuted_ s = true ->
  process s blk = (s, repeat (F.zero, F.zero) (length blk)).
Proof.
  intros Hm. induction blk as [|[l r] blk IH]; [reflexivity|].
  cbn [process]. unfold process_sample at 1. rewrite Hm, IH. reflexivity.
Qed.

Lemma process_app s b1 b2 :
  process s (b1 ++ b2) =
  let '(s1, o1) := process s b1 in
  let '(s2, o2) := process s1 b2 in (s2, o1 ++ o2).
Proof.
  revert s. induction b1 as [|[l r] b1 IH]; intros s.
  - cbn. destruct (process s b2). reflexivity.
  - cbn [app process]. destruct (process_sample s l r) as [s1 o].
    rewrite IH. destruct (process s1 b1) as [s2 o1].
    destruct (process s2 b2). reflexivity.
Qed.

Lemma process_length s blk : length (snd (process s blk)) = length blk.
Proof.
  revert s. induction blk as [|[l r] blk IH]; intros s; [reflexivity|].
  cbn [process]. destruct (process_sample s l r) as [s1 o].
  specialize (IH s1). destruct (process s1 blk). cbn in *. lia.
Qed.

(** Every public call other than [unlockPermanentMute] keeps a set latch and
    its reason, and every block processed under the latch is silent. *)
Lemma run_keeps_latch exp powf ops s :
  permanentlyMuted_ s = true -> ~ In UnlockPermanentMute ops ->
  permanentlyMuted_ (fst (run exp powf ops s)) = true /\
  muteReason_ (fst (run exp powf ops s)) = muteReason_ s /\
  Forall (Forall (eq (F.zero, F.zero))) (snd (run exp powf ops s)).
Proof.
  revert s. induction ops as [|o ops IH]; intros s Hm Hu.
  - cbn. auto.
  - assert (Hu' : ~ In UnlockPermanentMute ops) by (intros H; apply Hu; right; exact H).
    assert (Ho : o <> UnlockPermanentMute) by (intros ->; apply Hu; left; reflexivity).
    cbn [run].
    assert (Hs : permanentlyMuted_ (fst (step exp powf o s)) = true /\
                 muteReason_ (fst (step exp powf o s)) = muteReason_ s /\
                 Forall (Forall (eq (F.zero, F.zero))) (snd (step exp powf o s))).
    { destruct o as [sr| |blk|db|lv| |]; try (exfalso; now apply Ho);
        cbn [step]; try (cbn; auto; fail).
      rewrite (process_muted s blk Hm). cbn. repeat split; auto.
      apply Forall_cons; [|constructor].
      apply Forall_forall. intros x Hx. apply repeat_spec in Hx. auto. }
    destruct (step exp powf o s) as [s1 out].
    cbn [fst snd] in Hs. destruct Hs as (Hm1 & Hr1 & Ho1).
    destruct (IH s1 Hm1 Hu') as (H1 & H2 & H3).
    destruct (run exp powf ops s1) as [s2 outs]. cbn [fst snd] in *.
    repeat split; try congruence. apply Forall_app; auto.
Qed.

(** The danger-event count never decreases, except through
    [resetDangerEventCount()]. *)
Lemma process_sample_events s l r :
  (dangerEventCount_ s <= dangerEventCount_ (fst (process_sample s l r)))%Z.
Proof.
  unfold process_sample.
  destruct (permanentlyMuted_ s); [cbn; lia|].
  destruct (F.gt _ (dangerPeakThreshold_ s));
    try destruct (sustainedPeakThresholdSamples_ s <=? _)%Z; cbn iota beta zeta;
  destruct (F.isfinite l); destruct (F.isfinite r); cbn iota beta zeta;
  destruct (F.gt _ (dcOffsetThreshold_ s));
    try destruct (dcOffsetThresholdSamples_ s <=? _)%Z; cbn iota beta zeta;
  repeat match goal with |- context [match ?e with pair _ _ => _ end] => destruct e end;
  cbn; lia.
Qed.

Lemma process_events s blk :
  (dangerEventCount_ s <= dangerEventCount_ (fst (process s blk)))%Z.
Proof.
  revert s. induction blk as [|[l r] blk IH]; intros s; cbn [process]; [cbn; lia|].
  pose proof (process_sample_events s l r) as H1.
  destruct (process_sample s l r) as [s1 o]. specialize (IH s1).
  destruct (process s1 blk) as [s2 os]. cbn [fst] in *. lia.
Qed.

Lemma run_events exp powf ops s :
  ~ In ResetDangerEventCount ops ->
  (dangerEventCount_ s <= dangerEventCount_ (fst (run exp powf ops s)))%Z.
Proof.
  revert s. induction ops as [|o ops IH]; intros s Hn; cbn [run]; [cbn; lia|].
  assert (Hn' : ~ In ResetDangerEventCount ops) by (intros H; apply Hn; right; exact H).
  assert (Ho : o <> ResetDangerEventCount) by (intros ->; apply Hn; left; reflexivity).
  assert (H1 : (dangerEventCount_ s <= dangerEventCount_ (fst (step exp powf o s)))%Z).
  { destruct o as [sr| |blk|db|lv| |]; try (exfalso; now apply Ho); cbn [step];
      try (cbn; lia).
    pose proof (process_events s blk) as Hp. destruct (process s blk). cbn in *. exact Hp. }
  destruct (step exp powf o s) as [s1 out]. specialize (IH s1 Hn').
  destruct (run exp powf ops s1) as [s2 outs]. cbn [fst] in *. lia.
Qed.

End LimiterFacts.

Module LimiterClaims.
Import Limiter LimiterFacts.

(** C1 (code_bug).  The hard clip does not make the output finite: on any
    unmuted limiter whose DC-blocker coefficient is a positive float (all
    values [prepare] computes for audio sample rates and the default 0.999)
    and whose detectors are more than two samples from latching, the block
    [left = {FLT_MAX, -FLT_MAX, FLT_MAX}], [right = {0, 0, 0}] of finite
    samples drives the DC blocker to -inf and then to inf - inf = NaN; the
    NaN passes the limiter, slew and clamp stages and the third left output
    sample is NaN. *)
Theorem process_finite_block_yields_nan s m e :
  permanentlyMuted_ s = false ->
  (0 <= sustainedPeakCounter_ s)%Z ->
  (sustainedPeakCounter_ s + 2 < sustainedPeakThresholdSamples_ s)%Z ->
  (0 <= dcOffsetCounter_ s)%Z ->
  (dcOffsetCounter_ s + 2 < dcOffsetThresholdSamples_ s)%Z ->
  F.to_float (dcBlockCoeff_ s) = S754_finite false m e ->
  fst (nth 2 (snd (process s [(F.flt_max, F.zero);
                               (F.opp F.flt_max, F.zero);
                               (F.flt_max, F.zero)])) (F.zero, F.zero))
  = S754_nan.
Proof.
  intros Hm Hp0 Hp Hd0 Hd Hc.
  cbn [process].
  destruct (process_sample s F.flt_max F.zero) as [s1 o1] eqn:E1.
  destruct (sample_frame s F.flt_max F.zero Hm eq_refl eq_refl ltac:(lia) ltac:(lia))
    as (Hm1 & Hp1 & Hd1 & Tp1 & Td1 & Hc1 & Hprev1 & Hst1).
  rewrite E1 in *; cbn [fst] in *.
  destruct (process_sample s1 (F.opp F.flt_max) F.zero) as [s2 o2] eqn:E2.
  destruct (sample_frame s1 (F.opp F.flt_max) F.zero Hm1 eq_refl eq_refl
              ltac:(lia) ltac:(lia))
    as (Hm2 & _ & _ & _ & _ & Hc2 & Hprev2 & Hst2).
  rewrite E2 in *; cbn [fst] in *.
  destruct (process_sample s2 F.flt_max F.zero) as [s3 o3] eqn:E3.
  cbn [snd nth].
  assert (Hnan : fst (snd (process_sample s2 F.flt_max F.zero)) = S754_nan).
  { apply sample_nan_left; [exact Hm2 | reflexivity |].
    rewrite Hprev2, Hst2, Hprev1, Hc2, Hc1, Hc.
    replace (F.sub F.flt_max (F.opp F.flt_max)) with (S754_infinity false)
      by (vm_compute; reflexivity).
    replace (F.sub (F.opp F.flt_max) F.flt_max) with (S754_infinity true)
      by (vm_compute; reflexivity).
    apply inf_plus_scaled, add_ninf_cases. }
  rewrite E3 in Hnan. destruct (process s3 []). exact Hnan.
Qed.

Lemma process_finite_block_yields_nan_witness :
  F.to_float (dcBlockCoeff_ default) = S754_finite false 16760439 (-24) /\
  fst (nth 2 (snd (process default [(F.flt_max, F.zero);
                                     (F.opp F.flt_max, F.zero);
                                     (F.flt_max, F.zero)])) (F.zero, F.zero))
  = S754_nan.
Proof.
  assert (Hc : F.to_float (dcBlockCoeff_ default) = S754_finite false 16760439 (-24))
    by (vm_compute; reflexivity).
  split; [exact Hc|].
  apply (process_finite_block_yields_nan default 16760439 (-24));
    [reflexivity | cbn; lia | cbn; lia | cbn; lia | cbn; lia | exact Hc].
Defined.

(** C2.  Once the permanent-mute latch is set, whatever the input: the rest
    of the block being processed is written back as exact zeros, and every
    later call other than [unlockPermanentMute()] ([prepare], [reset],
    [process], the setters, [resetDangerEventCount]) keeps the latch set and
    every block it processes is all zeros, on both channels. *)
Theorem latch_forces_silence exp powf s blk1 blk2 ops :
  permanentlyMuted_ (fst (process s blk1)) = true ->
  ~ In UnlockPermanentMute ops ->
  let '(s2, out) := process s (blk1 ++ blk2) in
  Forall (eq (F.zero, F.zero)) (skipn (length blk1) out) /\
  permanentlyMuted_ s2 = true /\
  permanentlyMuted_ (fst (run exp powf ops s2)) = true /\
  Forall (Forall (eq (F.zero, F.zero))) (snd (run exp powf ops s2)).
Proof.
  intros Hm Hu. rewrite process_app.
  pose proof (process_length s blk1) as Hlen.
  destruct (process s blk1) as [s1 o1]. cbn [fst snd] in Hm, Hlen.
  rewrite (process_muted s1 blk2 Hm).
  destruct (run_keeps_latch exp powf ops s1 Hm Hu) as (H1 & _ & H3).
  repeat split; auto.
  rewrite <- Hlen, skipn_app, skipn_all, Nat.sub_diag. cbn.
  apply Forall_forall. intros x Hx. apply repeat_spec in Hx. auto.
Qed.

Lemma latch_forces_silence_witness :
  permanentlyMuted_
    (fst (process default (repeat (F.of_Z 3, F.of_Z 3) 4410))) = true /\
  ~ In UnlockPermanentMute [Reset; Process [(F.one, F.one)]] /\
  (let '(s2, out) :=
     process default (repeat (F.of_Z 3, F.of_Z 3) 4410 ++ [(F.one, F.one)]) in
   Forall (eq (F.zero, F.zero)) (skipn 4410 out) /\
   permanentlyMuted_ s2 = true /\
   permanentlyMuted_ (fst (run (fun x => x) (fun x _ => x)
                             [Reset; Process [(F.one, F.one)]] s2)) = true /\
   Forall (Forall (eq (F.zero, F.zero)))
     (snd (run (fun x => x) (fun x _ => x) [Reset; Process [(F.one, F.one)]] s2))).
Proof.
  assert (Hm : permanentlyMuted_
                 (fst (process default (repeat (F.of_Z 3, F.of_Z 3) 4410))) = true)
    by (vm_compute; reflexivity).
  assert (Hu : ~ In UnlockPermanentMute [Reset; Process [(F.one, F.one)]])
    by (cbn; intros [H|[H|[]]]; discriminate).
  split; [exact Hm|]. split; [exact Hu|].
  exact (latch_forces_silence (fun x => x) (fun x _ => x) default
           (repeat (F.of_Z 3, F.of_Z 3) 4410) [(F.one, F.one)]
           [Reset; Process [(F.one, F.one)]] Hm Hu).
Defined.

(** C8 (counterexample).  The danger-event counter is mutable state that
    [reset()] does not restore: a fresh limiter fed 4410 samples of 3.0 on
    both channels latches the sustained-peak mute and counts one danger
    event; [reset()] then leaves the count at 1, while its initial value
    is 0. *)
Lemma reset_keeps_danger_event_count :
  let s1 := fst (process default (repeat (F.of_Z 3, F.of_Z 3) 4410)) in
  dangerEventCount_ default = 0%Z /\
  permanentlyMuted_ s1 = true /\
  dangerEventCount_ (reset s1) = 1%Z.
Proof. vm_compute. repeat split; reflexivity. Qed.

(** C8 (amended).  [reset()] restores the envelope, the DC-blocker state,
    the detector levels and counters and the slew state to their initial
    values; it keeps the permanent-mute latch and its reason, the
    danger-event count and the configuration (sample rate, coefficients,
    thresholds, sample counts, slew limit).  A set latch (and its reason)
    survives every call except [unlockPermanentMute()], which clears it.
    No call other than [resetDangerEventCount()] decreases the danger-event
    count, and that call sets it to 0 ([++dangerEventCount_] is modelled
    without the wrap-around of a 32-bit [int]). *)
Theorem reset_frame exp powf s :
  (envelope_ (reset s) = envelope_ default /\
   dcBlockStateL_ (reset s) = dcBlockStateL_ default /\
   dcBlockStateR_ (reset s) = dcBlockStateR_ default /\
   dcBlockPrevL_ (reset s) = dcBlockPrevL_ default /\
   dcBlockPrevR_ (reset s) = dcBlockPrevR_ default /\
   sustainedLevel_ (reset s) = sustainedLevel_ default /\
   sustainedPeakLevel_ (reset s) = sustainedPeakLevel_ default /\
   dcOffsetLevel_ (reset s) = dcOffsetLevel_ default /\
   sustainedPeakCounter_ (reset s) = sustainedPeakCounter_ default /\
   dcOffsetCounter_ (reset s) = dcOffsetCounter_ default /\
   prevOutputL_ (reset s) = prevOutputL_ default /\
   prevOutputR_ (reset s) = prevOutputR_ default) /\
  (permanentlyMuted_ (reset s) = permanentlyMuted_ s /\
   muteReason_ (reset s) = muteReason_ s /\
   dangerEventCount_ (reset s) = dangerEventCount_ s /\
   sampleRate_ (reset s) = sampleRate_ s /\
   attackCoeff_ (reset s) = attackCoeff_ s /\
   releaseCoeff_ (reset s) = releaseCoeff_ s /\
   threshold_ (reset s) = threshold_ s /\
   dcBlockCoeff_ (reset s) = dcBlockCoeff_ s /\
   sustainedCoeff_ (reset s) = sustainedCoeff_ s /\
   sustainedThreshold_ (reset s) = sustainedThreshold_ s /\
   sustainedPeakCoeff_ (reset s) = sustainedPeakCoeff_ s /\
   dangerPeakThreshold_ (reset s) = dangerPeakThreshold_ s /\
   sustainedPeakThresholdSamples_ (reset s) = sustainedPeakThresholdSamples_ s /\
   dcDetectCoeff_ (reset s) = dcDetectCoeff_ s /\
   dcOffsetThreshold_ (reset s) = dcOffsetThreshold_ s /\
   dcOffsetThresholdSamples_ (reset s) = dcOffsetThresholdSamples_ s /\
   maxSlewRate_ (reset s) = maxSlewRate_ s) /\
  (forall ops, permanentlyMuted_ s = true -> ~ In UnlockPermanentMute ops ->
     permanentlyMuted_ (fst (run exp powf ops s)) = true /\
     muteReason_ (fst (run exp powf ops s)) = muteReason_ s) /\
  permanentlyMuted_ (unlockPermanentMute s) = false /\
  muteReason_ (unlockPermanentMute s) = None_ /\
  (forall ops, ~ In ResetDangerEventCount ops ->
     (dangerEventCount_ s <= dangerEventCount_ (fst (run exp powf ops s)))%Z) /\
  dangerEventCount_ (resetDangerEventCount s) = 0%Z.
Proof.
  split; [repeat split; reflexivity|].
  split; [repeat split; reflexivity|].
  split; [|split; [reflexivity|split; [reflexivity|split; [|reflexivity]]]].
  - intros ops Hm Hu. destruct (run_keeps_latch exp powf ops s Hm Hu) as (H1 & H2 & _).
    auto.
  - intros ops Hn. exact (run_events exp powf ops s Hn).
Qed.

End LimiterClaims.

(* ================================================================== *)
(** ** Routing graph: facts *)

Module RoutingFacts.
Import Routing.
Open Scope Z_scope.

Lemma conn_eta (c : Connection) : c = mkConn (sourceId c) (destId c).
Proof. destruct c; reflexivity. Qed.

Lemma existsb_pair s d E :
  existsb (fun c => (sourceId c =? s) && (destId c =? d)) E = true <->
  In (mkConn s d) E.
Proof.
  rewrite existsb_exists. split.
  - intros (c & Hin & Hc). apply andb_true_iff in Hc as [H1 H2].
    apply Z.eqb_eq in H1, H2. rewrite (conn_eta c), H1, H2 in Hin. exact Hin.
  - intros Hin. exists (mkConn s d). split; [exact Hin|]. cbn. rewrite !Z.eqb_refl. reflexivity.
Qed.

(** *** Active-band sets *)

Lemma set_insert_In x l y : In y (set_insert x l) <-> y = x \/ In y l.
Proof.
  induction l as [|z r IH]; cbn; [split; intros Hy; intuition congruence|].
  destruct (Z.ltb_spec x z) as [Hlt|Hge]; cbn; [split; intros Hy; intuition congruence|].
  destruct (Z.eqb_spec x z) as [Heq|Hne]; cbn.
  - subst; split; intros Hy; intuition congruence.
  - rewrite IH. split; intros Hy; intuition congruence.
Qed.

Lemma set_insert_sorted x l :
  StronglySorted Z.lt l -> StronglySorted Z.lt (set_insert x l).
Proof.
  induction 1 as [|z r Hs IH Hf]; cbn; [repeat constructor|].
  destruct (Z.ltb_spec x z).
  - constructor; [constructor; auto|]. constructor; [auto|].
    eapply Forall_impl; [|exact Hf]. intros; lia.
  - destruct (Z.eqb_spec x z); [subst; constructor; auto|].
    constructor; [auto|]. apply Forall_forall. intros y Hy.
    apply set_insert_In in Hy as [->|Hy]; [lia|].
    rewrite Forall_forall in Hf; auto.
Qed.

Lemma sorted_filter f l :
  StronglySorted Z.lt l -> StronglySorted Z.lt (filter f l).
Proof.
  induction 1 as [|a l Hs IH Hf]; cbn; [constructor|].
  destruct (f a); [|auto]. constructor; [auto|].
  apply Forall_forall; intros y Hy. apply filter_In in Hy as [Hy _].
  rewrite Forall_forall in Hf; auto.
Qed.

Lemma sorted_NoDup l : StronglySorted Z.lt l -> NoDup l.
Proof.
  induction 1 as [|a l Hs IH Hf]; constructor; auto.
  intro Hin. rewrite Forall_forall in Hf. specialize (Hf a Hin). lia.
Qed.

Lemma bands_ok_insert x l :
  1 <= x <= 12 -> bands_ok l -> bands_ok (set_insert x l).
Proof.
  intros Hx [Hs Hb]. split; [now apply set_insert_sorted|].
  apply Forall_forall. intros y Hy. apply set_insert_In in Hy as [->|Hy]; [auto|].
  rewrite Forall_forall in Hb; auto.
Qed.

Lemma bands_ok_erase x l : bands_ok l -> bands_ok (set_erase x l).
Proof.
  intros [Hs Hb]. split; [now apply sorted_filter|].
  apply Forall_forall. intros y Hy. apply filter_In in Hy as [Hy _].
  rewrite Forall_forall in Hb; auto.
Qed.

Lemma bands_ok_default : bands_ok default_bands.
Proof.
  assert (E : default_bands = [1; 2; 3; 4; 5; 6; 7; 8]) by reflexivity.
  rewrite E. split; repeat first [constructor | lia].
Qed.

Lemma bands_ok_set bands acc :
  bands_ok acc ->
  bands_ok (fold_left (fun acc b => if (1 <=? b) && (b <=? 12) then set_insert b acc else acc)
              bands acc).
Proof.
  revert acc; induction bands as [|b r IH]; cbn; intros acc H; [exact H|].
  apply IH. destruct (Z.leb_spec 1 b), (Z.leb_spec b 12); cbn; auto.
  apply bands_ok_insert; [lia | exact H].
Qed.

(** *** Connection lists *)

Lemma erase_first_split s d E E' :
  erase_first s d E = Some E' -> exists l1 c l2, E = l1 ++ c :: l2 /\ E' = l1 ++ l2.
Proof.
  revert E'; induction E as [|c r IH]; cbn; intros E' H; [discriminate|].
  destruct (_ && _).
  - injection H as <-. exists [], c, r; auto.
  - destruct (erase_first s d r) as [r'|] eqn:Er; cbn in H; [|discriminate].
    injection H as <-. destruct (IH r' eq_refl) as (l1 & c' & l2 & -> & ->).
    exists (c :: l1), c', l2; auto.
Qed.

Lemma valid_remove l1 c l2 :
  valid_connections (l1 ++ c :: l2) -> valid_connections (l1 ++ l2).
Proof.
  intros [Hf Hn]. split; [|eapply NoDup_remove_1; exact Hn].
  rewrite Forall_forall in *. intros x Hx. apply Hf.
  apply in_app_iff in Hx as [Hx|Hx]; apply in_app_iff; [left|right; right]; exact Hx.
Qed.

Lemma valid_filter f E : valid_connections E -> valid_connections (filter f E).
Proof.
  intros [Hf Hn]. split; [|now apply NoDup_filter].
  rewrite Forall_forall in *. intros x Hx. apply filter_In in Hx as [Hx _]. auto.
Qed.

Lemma valid_snoc E c :
  valid_connections E -> conn_ok c -> ~ In c E -> valid_connections (E ++ [c]).
Proof.
  intros [Hf Hn] Hc Hin. split.
  - apply Forall_app; auto.
  - apply NoDup_app; [exact Hn | repeat constructor; auto |].
    intros a Ha [<-|[]]. contradiction.
Qed.

Lemma in_band_range bs b : bands_ok bs -> In b bs -> 1 <= b <= 12.
Proof. intros [_ Hb] Hin. rewrite Forall_forall in Hb. auto. Qed.

Lemma parallel_valid bs :
  bands_ok bs -> ~ In Output bs ->
  valid_connections (flat_map (fun b => [mkConn Input b; mkConn b Output]) bs).
Proof.
  intros Hok HO.
  assert (Hr : forall b, In b bs -> 1 <= b <= 12) by (intros; eapply in_band_range; eauto).
  destruct Hok as [Hs _].
  induction Hs as [|a l Hs IH Hf]; cbn; [split; constructor|].
  assert (Ha : 1 <= a <= 12) by (apply Hr; left; reflexivity).
  assert (Ha9 : a <> Output) by (intros ->; apply HO; left; reflexivity).
  destruct IH as [IHf IHn].
  { intros HO'; apply HO; right; exact HO'. }
  { intros b Hb; apply Hr; right; exact Hb. }
  unfold Input, Output in *.
  split.
  - constructor; [unfold conn_ok, Input, Output; cbn; lia|].
    constructor; [unfold conn_ok, Input, Output; cbn; lia|]. exact IHf.
  - assert (Hnot : forall c, In c (flat_map (fun b => [mkConn 0 b; mkConn b 9]) l) ->
                   sourceId c <> a /\ destId c <> a).
    { intros c Hc. apply in_flat_map in Hc as (b & Hb & Hc).
      rewrite Forall_forall in Hf. specialize (Hf b Hb).
      destruct Hc as [<-|[<-|[]]]; cbn; lia. }
    constructor.
    + intros [H|H]; [injection H; lia|]. apply Hnot in H. cbn in H. lia.
    + constructor; [|exact IHn]. intros H. apply Hnot in H. cbn in H. lia.
Qed.

Lemma series_links_prop bs :
  StronglySorted Z.lt bs -> forall c, In c (series_links bs) ->
  sourceId c < destId c /\ In (sourceId c) bs /\ In (destId c) bs.
Proof.
  induction 1 as [|a l Hs IH Hf]; cbn; [tauto|].
  destruct l as [|b r]; cbn; [tauto|].
  intros c [<-|Hc]; cbn.
  - inversion Hf; subst. auto.
  - destruct (IH c Hc) as (H1 & H2 & H3). auto.
Qed.

Lemma series_links_NoDup bs : StronglySorted Z.lt bs -> NoDup (series_links bs).
Proof.
  induction 1 as [|a l Hs IH Hf]; cbn; [constructor|].
  destruct l as [|b r]; [constructor|]. constructor; [|exact IH].
  intros Hc. apply (series_links_prop _ Hs) in Hc as (_ & Hc & _). cbn in Hc.
  rewrite Forall_forall in Hf. specialize (Hf a Hc). lia.
Qed.

Lemma last_In (l : list Z) d : l <> [] -> In (last l d) l.
Proof.
  induction l as [|a r IH]; intros H; [congruence|].
  destruct r as [|b r']; [left; reflexivity|].
  right. apply IH. discriminate.
Qed.

Lemma series_valid front rest :
  bands_ok (front :: rest) -> ~ In Output (front :: rest) ->
  valid_connections ([mkConn Input front] ++ series_links (front :: rest) ++
                     [mkConn (last (front :: rest) 0) Output]).
Proof.
  set (bs := front :: rest). intros Hok HO.
  assert (Hr : forall b, In b bs -> 1 <= b <= 12) by (intros; eapply in_band_range; eauto).
  destruct Hok as [Hs _].
  assert (Hfr : In front bs) by (left; reflexivity).
  assert (Hl : In (last bs 0) bs) by (apply last_In; discriminate).
  assert (H9 : forall b, In b bs -> b <> 9) by (intros b Hb ->; exact (HO Hb)).
  clearbody bs.
  pose proof (series_links_prop bs Hs) as Hp.
  pose proof (Hr _ Hfr). pose proof (Hr _ Hl). pose proof (H9 _ Hfr). pose proof (H9 _ Hl).
  unfold Input, Output in *. split.
  - constructor; [unfold conn_ok, Input, Output; cbn; lia|].
    apply Forall_app. split; [|constructor; [unfold conn_ok, Input, Output; cbn; lia | constructor]].
    apply Forall_forall. intros c Hc. destruct (Hp c Hc) as (Hlt & Hsrc & Hdst).
    pose proof (Hr _ Hsrc). pose proof (Hr _ Hdst). pose proof (H9 _ Hsrc).
    unfold conn_ok. unfold Input, Output. lia.
  - constructor.
    + intros Hc. apply in_app_iff in Hc as [Hc|[Hc|[]]].
      * destruct (Hp _ Hc) as (_ & Hsrc & _). cbn in Hsrc. pose proof (Hr _ Hsrc). lia.
      * injection Hc; lia.
    + apply NoDup_app; [now apply series_links_NoDup | repeat constructor; auto |].
      intros c Hc [<-|[]]. destruct (Hp _ Hc) as (_ & _ & Hdst). cbn in Hdst.
      exact (H9 _ Hdst eq_refl).
Qed.

Lemma step_wf o g :
  valid_connections (connections_ g) -> bands_ok (activeBands_ g) ->
  keeps_wellformed o g ->
  valid_connections (connections_ (step o g)) /\ bands_ok (activeBands_ (step o g)).
Proof.
  intros Hv Hb Hk. destruct o; cbn in Hk |- *.
  - (* connect *)
    unfold connect.
    destruct (Z.eqb_spec s d); [auto|].
    destruct (Z.eqb_spec d Input); [auto|].
    destruct (Z.eqb_spec s Output); [auto|].
    destruct (existsb _ _) eqn:Ex; [auto|]. cbn. split; [|exact Hb].
    apply valid_snoc; [exact Hv | unfold conn_ok; cbn; auto |].
    intros Hin. apply existsb_pair in Hin. congruence.
  - (* disconnect *)
    unfold disconnect. destruct (erase_first s d _) as [E|] eqn:Er; cbn; [|auto].
    split; [|exact Hb]. apply erase_first_split in Er as (l1 & c & l2 & HE & ->).
    rewrite HE in Hv. eapply valid_remove; exact Hv.
  - split; [now apply valid_filter | exact Hb].
  - split; [split; constructor | exact Hb].
  - split; [|exact bands_ok_default]. split; [|repeat constructor; cbn; tauto].
    repeat constructor; unfold conn_ok, Input, Output; cbn; lia.
  - (* addBand *)
    unfold addBand. destruct ((b <? 1) || (12 <? b)) eqn:Hr; [auto|].
    destruct (set_mem b _); cbn; [auto|]. split; [exact Hv|].
    apply bands_ok_insert; [|exact Hb]. apply orb_false_iff in Hr as [H1 H2].
    apply Z.ltb_ge in H1, H2. lia.
  - (* removeBand *)
    unfold removeBand. destruct ((b <? 1) || (12 <? b)); [auto|].
    destruct (negb _); cbn; [auto|]. split; [now apply valid_filter|].
    now apply bands_ok_erase.
  - split; [exact Hv|]. apply bands_ok_set. split; constructor.
  - split; [now apply parallel_valid | exact Hb].
  - unfold setSeriesRouting. destruct (activeBands_ g) as [|front rest] eqn:Hab.
    + split; [split; constructor | cbn; rewrite Hab; constructor; constructor].
    + cbn. rewrite Hab. split; [|exact Hb]. now apply series_valid.
  - contradiction.
Qed.

Lemma create_wf :
  valid_connections (connections_ create) /\ bands_ok (activeBands_ create).
Proof.
  split; [|exact bands_ok_default]. split; [|repeat constructor; cbn; tauto].
  repeat constructor; unfold conn_ok, Input, Output; cbn; lia.
Qed.

Lemma reachable_wf_inv g :
  reachable_wf g -> valid_connections (connections_ g) /\ bands_ok (activeBands_ g).
Proof.
  induction 1 as [|o g Hr IH Hk]; [exact create_wf|].
  destruct IH as [Hv Hb]. now apply step_wf.
Qed.

(** *** Graph reachability *)

Lemma set_mem_In x l : set_mem x l = true <-> In x l.
Proof.
  unfold set_mem. rewrite existsb_exists. split.
  - intros (y & Hy & Hxy). apply Z.eqb_eq in Hxy. subst. exact Hy.
  - intros H. exists x. split; [exact H | apply Z.eqb_refl].
Qed.

Lemma set_mem_cons x u l : set_mem x (u :: l) = (x =? u) || set_mem x l.
Proof. reflexivity. Qed.

Lemma adj_of_In E u v : In v (adj_of E u) <-> edge E u v.
Proof.
  unfold adj_of, edge. rewrite in_map_iff. split.
  - intros (c & <- & Hc). apply filter_In in Hc as [Hc Hs]. apply Z.eqb_eq in Hs.
    rewrite (conn_eta c), Hs in Hc. exact Hc.
  - intros H. exists (mkConn u v). split; [reflexivity|].
    apply filter_In. split; [exact H | apply Z.eqb_refl].
Qed.

Lemma all_nodes_In E x :
  In x (all_nodes E) <-> exists c, In c E /\ (x = sourceId c \/ x = destId c).
Proof.
  unfold all_nodes. rewrite nodup_In, in_flat_map.
  split; intros (c & Hc & Hx); exists c; split; auto; cbn in *; intuition congruence.
Qed.

Lemma edge_nodes E u v : edge E u v -> In u (all_nodes E) /\ In v (all_nodes E).
Proof.
  intros H. split; apply all_nodes_In; exists (mkConn u v); cbn; auto.
Qed.

Lemma edge_snoc E s d u v :
  edge (E ++ [mkConn s d]) u v <-> edge E u v \/ (u = s /\ v = d).
Proof.
  unfold edge. rewrite in_app_iff. cbn. split.
  - intros [H|[H|[]]]; [left; exact H | right; injection H; auto].
  - intros [H|[-> ->]]; auto.
Qed.

Lemma edge_app_l E E' u v : edge E u v -> edge (E ++ E') u v.
Proof. unfold edge. intros H. apply in_app_iff. left; exact H. Qed.

Lemma rt_app_l E E' x y :
  clos_refl_trans Z (edge E) x y -> clos_refl_trans Z (edge (E ++ E')) x y.
Proof.
  induction 1; [apply rt_step, edge_app_l; assumption | apply rt_refl | eapply rt_trans; eauto].
Qed.

Lemma t_rt_t (R : Z -> Z -> Prop) x y z :
  clos_trans Z R x y -> clos_refl_trans Z R y z -> clos_trans Z R x z.
Proof.
  intros Hxy Hyz. revert x Hxy. induction Hyz; intros w Hw; eauto using clos_trans.
Qed.

Lemma path_first_step E x y :
  path E x y -> exists z, edge E x z /\ clos_refl_trans Z (edge E) z y.
Proof.
  intros H. apply clos_trans_t1n in H. destruct H as [y H|y z H Hp].
  - exists y. split; [exact H | apply rt_refl].
  - exists y. split; [exact H|]. apply clos_t_clos_rt, clos_t1n_trans. exact Hp.
Qed.

(** *** The depth-first search *)

Lemma unvisited_mono U V V' : incl V V' -> (unvisited U V' <= unvisited U V)%nat.
Proof.
  intros H. unfold unvisited. induction U as [|x r IH]; cbn; [lia|].
  destruct (set_mem x V') eqn:E1, (set_mem x V) eqn:E2; cbn; try lia.
  apply set_mem_In, H, set_mem_In in E2. congruence.
Qed.

Lemma unvisited_le U V : (unvisited U V <= length U)%nat.
Proof. unfold unvisited. apply filter_length_le. Qed.

Lemma unvisited_add U V u :
  In u U -> ~ In u V -> (unvisited U (u :: V) < unvisited U V)%nat.
Proof.
  intros Hu Hn. induction U as [|x r IH]; [contradiction|].
  pose proof (unvisited_mono r V (u :: V) (incl_tl u (incl_refl V))) as Hm.
  unfold unvisited in *. cbn [filter]. rewrite set_mem_cons.
  destruct (Z.eqb_spec x u) as [->|Hxu]; cbn [orb].
  - destruct (set_mem u V) eqn:E; [apply set_mem_In in E; contradiction|].
    cbn [negb length]. lia.
  - destruct Hu as [Hu|Hu]; [congruence|].
    specialize (IH Hu). destruct (set_mem x V); cbn [negb length]; lia.
Qed.

Lemma finished_mono V V' S x : incl V V' -> finished V S x -> finished V' S x.
Proof. intros H [H1 H2]. split; auto. Qed.

Lemma closed_reach E V S x y :
  dfs_closed E V S -> finished V S x -> clos_refl_trans Z (edge E) x y -> finished V S y.
Proof.
  intros Hc Hx H. apply clos_rt_rt1n in H. induction H as [|x z y Hxz Hzy IH]; [exact Hx|].
  apply IH. exact (proj1 (Hc x Hx) z Hxz).
Qed.

Lemma closed_push E V S u :
  ~ In u V -> dfs_closed E V S -> dfs_closed E (u :: V) (u :: S).
Proof.
  intros Hu Hc b [[->|Hb] Hs]; [exfalso; apply Hs; left; reflexivity|].
  assert (Hf : finished V S b) by (split; [exact Hb | intros H; apply Hs; right; exact H]).
  destruct (Hc b Hf) as [Hsucc Hcyc]. split; [|exact Hcyc].
  intros y Hy. destruct (Hsucc y Hy) as [Hy1 Hy2]. split; [right; exact Hy1|].
  intros [->|H]; [contradiction | contradiction].
Qed.

(** The result the search gives for a node: a cycle on [true]; on [false] the
    stack given back, more nodes visited, among them the node, and the
    visited part still closed. *)
Definition dfs_post (E : list Connection) (node : Z) (V S : list Z)
    (r : option (bool * list Z * list Z)) : Prop :=
  exists b V' S', r = Some (b, V', S') /\
    (b = true -> exists x, path E x x) /\
    (b = false -> S' = S /\ incl V V' /\ In node V' /\ dfs_closed E V' S).

Definition dfs_pre (E : list Connection) (f : nat) (node : Z) (V S : list Z) : Prop :=
  ~ In node V /\ incl S V /\ dfs_closed E V S /\
  (forall x, In x S -> clos_refl_trans Z (edge E) x node) /\
  In node (all_nodes E) /\ (unvisited (all_nodes E) V < f)%nat.

Lemma neighbors_spec E rec f u S :
  (forall n V1 S1, dfs_pre E f n V1 S1 -> dfs_post E n V1 S1 (rec n V1 S1)) ->
  ~ In u S ->
  forall ns V1,
  (forall n, In n ns -> edge E u n) ->
  incl (u :: S) V1 -> dfs_closed E V1 (u :: S) ->
  (forall x, In x (u :: S) -> clos_refl_trans Z (edge E) x u) ->
  (unvisited (all_nodes E) V1 < f)%nat ->
  (forall n, edge E u n -> In n ns \/ finished V1 (u :: S) n) ->
  exists b V' S', dfs_neighbors rec u ns V1 (u :: S) = Some (b, V', S') /\
    (b = true -> exists x, path E x x) /\
    (b = false -> S' = S /\ incl V1 V' /\ dfs_closed E V' S).
Proof.
  intros Hrec HuS ns. induction ns as [|n rest IH]; intros V1 Hns Hinc Hc Hst Hcnt Hsucc.
  - (* the loop is over: [inStack.erase(node)] *)
    cbn [dfs_neighbors remove]. destruct (Z.eq_dec u u) as [_|]; [|congruence].
    rewrite notin_remove by exact HuS.
    exists false, V1, S. split; [reflexivity|]. split; [discriminate|].
    intros _. split; [reflexivity|]. split; [apply incl_refl|].
    assert (Hsu : forall y, edge E u y -> finished V1 (u :: S) y).
    { intros y Hy. destruct (Hsucc y Hy) as [[]|H]; exact H. }
    intros b [Hb HbS]. destruct (Z.eq_dec b u) as [->|Hbu].
    + split.
      * intros y Hy. destruct (Hsu y Hy) as [Hy1 Hy2].
        split; [exact Hy1 | intros H; apply Hy2; right; exact H].
      * intros Hp. apply path_first_step in Hp as (z & Hz & Hzu).
        pose proof (Hsu z Hz) as Hfz.
        destruct (closed_reach E V1 (u :: S) z u Hc Hfz Hzu) as [_ Hn].
        apply Hn. left; reflexivity.
    + assert (Hf : finished V1 (u :: S) b).
      { split; [exact Hb|]. intros [H|H]; [congruence | contradiction]. }
      destruct (Hc b Hf) as [Hs Hcyc]. split; [|exact Hcyc].
      intros y Hy. destruct (Hs y Hy) as [Hy1 Hy2].
      split; [exact Hy1 | intros H; apply Hy2; right; exact H].
  - cbn [dfs_neighbors]. assert (Hun : edge E u n) by (apply Hns; left; reflexivity).
    destruct (set_mem n (u :: S)) eqn:Hin.
    { (* [inStack.count(n) > 0]: a back edge *)
      exists true, V1, (u :: S). split; [reflexivity|]. split; [|discriminate].
      intros _. exists u. apply set_mem_In in Hin.
      apply t_rt_t with n; [apply t_step; exact Hun | apply Hst; exact Hin]. }
    assert (HnS : ~ In n (u :: S)) by (intros H; apply set_mem_In in H; congruence).
    destruct (set_mem n V1) eqn:Hv; cbn [negb].
    + (* already finished *)
      apply IH; auto.
      * intros m Hm. apply Hns. right; exact Hm.
      * intros m Hm. destruct (Hsucc m Hm) as [[<-|H]|H]; auto.
        right. split; [apply set_mem_In; exact Hv | exact HnS].
    + assert (HnV : ~ In n V1) by (intros H; apply set_mem_In in H; congruence).
      assert (Hpre : dfs_pre E f n V1 (u :: S)).
      { refine (conj HnV (conj Hinc (conj Hc (conj _ (conj _ Hcnt))))).
        - intros x Hx. eapply rt_trans; [apply Hst; exact Hx | apply rt_step; exact Hun].
        - exact (proj2 (edge_nodes E u n Hun)). }
      destruct (Hrec n V1 (u :: S) Hpre) as (b & V2 & S2 & Hr & Ht & Hf).
      rewrite Hr. destruct b.
      { exists true, V2, S2. split; [reflexivity|]. split; [exact Ht | discriminate]. }
      destruct (Hf eq_refl) as (-> & HV12 & HnV2 & Hc2).
      destruct (IH V2) as (b & V' & S' & Hr' & Ht' & Hf'); auto.
      * intros m Hm. apply Hns. right; exact Hm.
      * intros x Hx. apply HV12, Hinc, Hx.
      * pose proof (unvisited_mono (all_nodes E) V1 V2 HV12). lia.
      * intros m Hm. destruct (Hsucc m Hm) as [[<-|H]|H]; auto.
        -- right. split; [exact HnV2 | exact HnS].
        -- right. eapply finished_mono; [exact HV12 | exact H].
      * exists b, V', S'. split; [exact Hr'|]. split; [exact Ht'|].
        intros Hb. destruct (Hf' Hb) as (H1 & H2 & H3).
        split; [exact H1|]. split; [|exact H3].
        intros x Hx. apply H2, HV12, Hx.
Qed.

Lemma dfs_spec E fuel node V S :
  dfs_pre E fuel node V S -> dfs_post E node V S (dfs fuel (adj_of E) node V S).
Proof.
  revert node V S. induction fuel as [|f IH]; intros node V S Hpre.
  { destruct Hpre as (_ & _ & _ & _ & _ & H). lia. }
  destruct Hpre as (HnV & HSV & Hc & Hst & HnU & Hcnt). cbn [dfs].
  destruct (neighbors_spec E (fun n v st => dfs f (adj_of E) n v st) f node S)
    with (ns := adj_of E node) (V1 := node :: V)
    as (b & V' & S' & Hr & Ht & Hf).
  - intros n V1 S1 Hp. exact (IH n V1 S1 Hp).
  - intros H. apply HnV, HSV, H.
  - intros n Hn. apply adj_of_In. exact Hn.
  - intros x [->|Hx]; [left; reflexivity | right; apply HSV, Hx].
  - now apply closed_push.
  - intros x [->|Hx]; [apply rt_refl | apply Hst, Hx].
  - pose proof (unvisited_add (all_nodes E) V node HnU HnV). lia.
  - intros n Hn. left. apply adj_of_In. exact Hn.
  - exists b, V', S'. split; [exact Hr|]. split; [exact Ht|].
    intros Hb. destruct (Hf Hb) as (H1 & H2 & H3). split; [exact H1|].
    split; [intros x Hx; apply H2; right; exact Hx|].
    split; [apply H2; left; reflexivity | exact H3].
Qed.

Lemma dfs_keys_spec E keys V :
  incl keys (all_nodes E) -> dfs_closed E V [] ->
  exists b, dfs_keys (S (length (all_nodes E))) (adj_of E) keys V [] = Some b /\
    (b = true -> exists x, path E x x) /\
    (b = false -> forall k, In k keys -> ~ path E k k).
Proof.
  revert V. induction keys as [|k ks IH]; intros V Hk Hc; cbn [dfs_keys].
  { exists false. split; [reflexivity|]. split; [discriminate|]. intros _ k []. }
  destruct (set_mem k V) eqn:Hv; cbn [negb].
  - destruct (IH V) as (b & Hr & Ht & Hf); auto.
    { intros x Hx. apply Hk. right; exact Hx. }
    exists b. split; [exact Hr|]. split; [exact Ht|].
    intros Hb x [<-|Hx]; [|exact (Hf Hb x Hx)].
    apply set_mem_In in Hv. apply (Hc k). split; [exact Hv | intros []].
  - assert (Hpre : dfs_pre E (S (length (all_nodes E))) k V []).
    { refine (conj _ (conj _ (conj Hc (conj _ (conj _ _))))).
      - intros H. apply set_mem_In in H. congruence.
      - intros x [].
      - intros x [].
      - apply Hk. left; reflexivity.
      - pose proof (unvisited_le (all_nodes E) V). lia. }
    destruct (dfs_spec E _ k V [] Hpre) as (b & V' & S' & Hr & Ht & Hf).
    rewrite Hr. destruct b; [exists true; split; [reflexivity|]; split; [exact Ht | discriminate]|].
    destruct (Hf eq_refl) as (-> & _ & HkV & Hc').
    destruct (IH V') as (b & Hr' & Ht' & Hf'); auto.
    { intros x Hx. apply Hk. right; exact Hx. }
    exists b. split; [exact Hr'|]. split; [exact Ht'|].
    intros Hb x [<-|Hx]; [|exact (Hf' Hb x Hx)].
    apply (Hc' k). split; [exact HkV | intros []].
Qed.

Lemma hasCycle_iff E : hasCycle E = true <-> exists x, path E x x.
Proof.
  assert (Hk : incl (keys_of E) (all_nodes E)).
  { intros x Hx. unfold keys_of in Hx. apply nodup_In, in_map_iff in Hx as (c & <- & Hc).
    apply all_nodes_In. exists c. auto. }
  assert (Hc : dfs_closed E [] []) by (intros b [[] _]).
  destruct (dfs_keys_spec E (keys_of E) [] Hk Hc) as (b & Hr & Ht & Hf).
  unfold hasCycle. rewrite Hr. destruct b; [split; auto|].
  split; [discriminate|]. intros (x & Hx). exfalso.
  destruct (path_first_step E x x Hx) as (z & Hz & _).
  apply (Hf eq_refl x); [|exact Hx].
  unfold keys_of. apply nodup_In, in_map_iff. exists (mkConn x z). auto.
Qed.

(** A cycle through the added edge [s -> d]. *)
Lemma path_snoc_split E s d x y :
  path (E ++ [mkConn s d]) x y ->
  path E x y \/
  (clos_refl_trans Z (edge E) x s /\ clos_refl_trans Z (edge (E ++ [mkConn s d])) d y).
Proof.
  intros H. apply clos_trans_t1n in H.
  induction H as [x y Hxy|x z y Hxz Hzy IH].
  - apply edge_snoc in Hxy as [H|[-> ->]]; [left; apply t_step; exact H|].
    right. split; apply rt_refl.
  - apply edge_snoc in Hxz as [H|[-> ->]].
    + destruct IH as [IH|[IH1 IH2]].
      * left. eapply t_trans; [apply t_step; exact H | exact IH].
      * right. split; [eapply rt_trans; [apply rt_step; exact H | exact IH1] | exact IH2].
    + right. split; [apply rt_refl|]. apply clos_t_clos_rt, clos_t1n_trans. exact Hzy.
Qed.

(** *** Kahn's algorithm *)

Lemma set_mem_snoc x O u : set_mem x (O ++ [u]) = set_mem x O || (x =? u).
Proof. unfold set_mem. rewrite existsb_app. cbn. rewrite orb_false_r. reflexivity. Qed.

Lemma indeg_of_rest E v : indeg_of E v = indeg_rest E [] v.
Proof.
  unfold indeg_of, indeg_rest.
  assert (H : forall f, fold_left (fun deg c => upd deg (destId c) (deg (destId c) + 1)) E f v
                        = f v + Z.of_nat (length (filter (fun c => destId c =? v) E))).
  { induction E as [|c r IH]; intros f; cbn [fold_left filter]; [cbn; lia|].
    rewrite IH. unfold upd. destruct (Z.eqb_spec v (destId c)) as [->|Hne].
    - rewrite Z.eqb_refl. cbn [length]. lia.
    - destruct (Z.eqb_spec (destId c) v); [congruence|]. reflexivity. }
  rewrite H. cbn [set_mem existsb negb]. rewrite Z.add_0_l.
  f_equal. f_equal. apply filter_ext. intros c. symmetry. apply andb_true_r.
Qed.

Lemma count_adj E u v :
  count_occ Z.eq_dec (adj_of E u) v =
  length (filter (fun c => (sourceId c =? u) && (destId c =? v)) E).
Proof.
  unfold adj_of. induction E as [|c r IH]; [reflexivity|].
  cbn [filter]. destruct (sourceId c =? u); cbn [map andb]; [|exact IH].
  cbn [count_occ]. rewrite IH.
  destruct (Z.eq_dec (destId c) v) as [->|Hne].
  - rewrite Z.eqb_refl. reflexivity.
  - destruct (Z.eqb_spec (destId c) v); [congruence|]. reflexivity.
Qed.

Lemma indeg_rest_snoc E O u v :
  ~ In u O ->
  indeg_rest E (O ++ [u]) v =
  indeg_rest E O v - Z.of_nat (count_occ Z.eq_dec (adj_of E u) v).
Proof.
  intros Hu. unfold indeg_rest. rewrite count_adj.
  enough (H : length (filter (fun c => Z.eqb (destId c) v && negb (set_mem (sourceId c) O)) E) =
              Nat.add
                (length (filter (fun c => Z.eqb (destId c) v &&
                                          negb (set_mem (sourceId c) (O ++ [u]))) E))
                (length (filter (fun c => Z.eqb (sourceId c) u && Z.eqb (destId c) v) E)))
    by (rewrite H; lia).
  induction E as [|c r IH]; [reflexivity|]. cbn [filter]. rewrite set_mem_snoc.
  destruct (destId c =? v), (set_mem (sourceId c) O) eqn:Hs, (sourceId c =? u) eqn:Hsu;
    cbn [andb orb negb length]; try lia.
  apply Z.eqb_eq in Hsu. apply set_mem_In in Hs. subst. contradiction.
Qed.

Lemma indeg_rest_nonneg E O v : 0 <= indeg_rest E O v.
Proof. unfold indeg_rest. lia. Qed.

Lemma indeg_rest_zero E O v c :
  indeg_rest E O v = 0 -> In c E -> destId c = v -> In (sourceId c) O.
Proof.
  unfold indeg_rest. intros H Hc Hd.
  destruct (set_mem (sourceId c) O) eqn:Hs; [apply set_mem_In; exact Hs|].
  assert (Hin : In c (filter (fun c => (destId c =? v) && negb (set_mem (sourceId c) O)) E)).
  { apply filter_In. split; [exact Hc|]. rewrite Hd, Z.eqb_refl, Hs. reflexivity. }
  destruct (filter _ E); [contradiction | cbn in H; lia].
Qed.

Lemma indeg_rest_pos E O v :
  indeg_rest E O v <> 0 -> exists c, In c E /\ destId c = v /\ ~ In (sourceId c) O.
Proof.
  unfold indeg_rest. intros H.
  destruct (filter (fun c => (destId c =? v) && negb (set_mem (sourceId c) O)) E)
    as [|c r] eqn:Hf; [cbn in H; lia|].
  assert (Hc : In c (filter (fun c => (destId c =? v) && negb (set_mem (sourceId c) O)) E))
    by (rewrite Hf; left; reflexivity).
  apply filter_In in Hc as [Hc Hp]. apply andb_true_iff in Hp as [Hd Hs].
  exists c. split; [exact Hc|]. split; [apply Z.eqb_eq; exact Hd|].
  intros Hin. apply set_mem_In in Hin. rewrite Hin in Hs. discriminate.
Qed.

(** The inner loop of one pop: [--inDegree[neighbor]] for each neighbour,
    queueing the neighbours whose count reaches zero. *)
Lemma relax_fold L : forall d q d' q',
  (forall v, Z.of_nat (count_occ Z.eq_dec L v) <= d v) ->
  fold_left relax L (d, q) = (d', q') ->
  (forall v, d' v = d v - Z.of_nat (count_occ Z.eq_dec L v)) /\
  exists P, q' = q ++ P /\ NoDup P /\
    (forall v, In v P <-> In v L /\ d v = Z.of_nat (count_occ Z.eq_dec L v)).
Proof.
  induction L as [|x r IH]; intros d q d' q' Hle Hf.
  { cbn in Hf. injection Hf as <- <-. split; [intros v; cbn; lia|].
    exists []. rewrite app_nil_r. split; [reflexivity|]. split; [constructor|].
    intros v; cbn; tauto. }
  simpl fold_left in Hf.
  assert (Hcx : count_occ Z.eq_dec (x :: r) x = S (count_occ Z.eq_dec r x))
    by (apply count_occ_cons_eq; reflexivity).
  assert (Hcv : forall v, v <> x -> count_occ Z.eq_dec (x :: r) v = count_occ Z.eq_dec r v)
    by (intros v Hv; apply count_occ_cons_neq; congruence).
  assert (Hle' : forall v, Z.of_nat (count_occ Z.eq_dec r v) <= upd d x (d x - 1) v).
  { intros v. unfold upd. destruct (Z.eqb_spec v x) as [->|Hvx].
    - specialize (Hle x). rewrite Hcx in Hle. lia.
    - specialize (Hle v). rewrite (Hcv v Hvx) in Hle. exact Hle. }
  destruct (IH _ _ _ _ Hle' Hf) as [Hd' (P & Hq' & HP & HPin)].
  split.
  { intros v. rewrite Hd'. unfold upd. destruct (Z.eqb_spec v x) as [->|Hvx].
    - rewrite Hcx. lia.
    - rewrite (Hcv v Hvx). reflexivity. }
  pose proof (Hle x) as Hlex. rewrite Hcx in Hlex.
  destruct (Z.eqb_spec (d x - 1) 0) as [H0|H0].
  - (* [x] reaches zero: queued now, and never again *)
    assert (Hr0 : count_occ Z.eq_dec r x = 0%nat) by lia.
    exists (x :: P). split; [rewrite Hq', <- app_assoc; reflexivity|]. split.
    + constructor; [|exact HP]. intros Hx. apply HPin in Hx as [Hx _].
      apply (count_occ_not_In Z.eq_dec) in Hr0. contradiction.
    + intros v. destruct (Z.eq_dec v x) as [->|Hvx].
      * split; [intros _; split; [left; reflexivity | rewrite Hcx; lia]|].
        intros _; left; reflexivity.
      * rewrite (Hcv v Hvx). cbn [In]. rewrite HPin. unfold upd.
        destruct (Z.eqb_spec v x); [congruence|].
        split; [intros [H|H]; [congruence | tauto] | intros [[H|H] H']; [congruence | tauto]].
  - exists P. split; [exact Hq'|]. split; [exact HP|].
    intros v. rewrite HPin. unfold upd. destruct (Z.eqb_spec v x) as [->|Hvx].
    + rewrite Hcx. split.
      * intros [_ H]. split; [left; reflexivity | lia].
      * intros [_ H]. split; [|lia]. apply (count_occ_In Z.eq_dec). lia.
    + rewrite (Hcv v Hvx). cbn [In].
      split; [intros [H H']; auto | intros [[H|H] H']; [congruence | auto]].
Qed.

Lemma index_of_app_in x O l : In x O -> index_of x (O ++ l) = index_of x O.
Proof.
  induction O as [|y r IH]; intros H; [contradiction|]. cbn.
  destruct (Z.eqb_spec y x); [reflexivity|].
  destruct H as [H|H]; [congruence|]. rewrite IH by exact H. reflexivity.
Qed.

Lemma index_of_snoc x O : ~ In x O -> index_of x (O ++ [x]) = Some (length O).
Proof.
  induction O as [|y r IH]; intros H; cbn; [rewrite Z.eqb_refl; reflexivity|].
  destruct (Z.eqb_spec y x) as [->|]; [exfalso; apply H; left; reflexivity|].
  rewrite IH; [reflexivity|]. intros Hx; apply H; right; exact Hx.
Qed.

Lemma index_of_lt x O i : index_of x O = Some i -> (i < length O)%nat.
Proof.
  revert i; induction O as [|y r IH]; intros i H; cbn in H; [discriminate|].
  destruct (y =? x); [injection H as <-; cbn; lia|].
  destruct (index_of x r) as [k|] eqn:Hk; cbn in H; [|discriminate].
  injection H as <-. specialize (IH k eq_refl). cbn. lia.
Qed.

Lemma index_of_In x O : In x O -> exists i, index_of x O = Some i.
Proof.
  induction O as [|y r IH]; intros H; [contradiction|]. cbn.
  destruct (Z.eqb_spec y x); [eexists; reflexivity|].
  destruct H as [H|H]; [congruence|]. destruct (IH H) as [i ->]. eexists; reflexivity.
Qed.

Lemma index_of_Some_In x O i : index_of x O = Some i -> In x O.
Proof.
  revert i; induction O as [|y r IH]; intros i H; cbn in H; [discriminate|].
  destruct (Z.eqb_spec y x); [left; assumption|].
  destruct (index_of x r) as [k|] eqn:Hk; [|discriminate]. right. exact (IH k eq_refl).
Qed.

Section Kahn.
Variable E : list Connection.
Variable N : list Z.
Hypothesis N_nodup : NoDup N.
Hypothesis N_covers : forall c, In c E -> In (sourceId c) N /\ In (destId c) N.

Lemma kahn_init :
  kahn_inv E N (indeg_of E) (filter (fun n => indeg_of E n =? 0) N) [].
Proof.
  unfold kahn_inv. cbn [app]. split; [exact (indeg_of_rest E)|].
  split; [now apply NoDup_filter|].
  split; [intros x Hx; apply filter_In in Hx as [Hx _]; exact Hx|].
  split.
  - intros v Hv. rewrite <- indeg_of_rest, filter_In, Z.eqb_eq. tauto.
  - intros c _ [].
Qed.

Lemma kahn_pop deg node q O :
  kahn_inv E N deg (node :: q) O ->
  forall deg' q', fold_left relax (adj_of E node) (deg, q) = (deg', q') ->
  kahn_inv E N deg' q' (O ++ [node]).
Proof.
  intros (Hdeg & Hnd & Hinc & Hz & Hord) deg' q' Hf.
  assert (HnO : ~ In node O).
  { apply NoDup_remove_2 in Hnd. intros H; apply Hnd, in_app_iff; left; exact H. }
  assert (HnN : In node N) by (apply Hinc, in_app_iff; right; left; reflexivity).
  set (L := adj_of E node) in *.
  assert (Hrest : forall v, indeg_rest E (O ++ [node]) v =
                            deg v - Z.of_nat (count_occ Z.eq_dec L v))
    by (intros v; rewrite Hdeg; apply indeg_rest_snoc; exact HnO).
  destruct (relax_fold L deg q deg' q') as [Hd' (P & -> & HP & HPin)]; [|exact Hf|].
  { intros v. pose proof (indeg_rest_nonneg E (O ++ [node]) v). rewrite Hrest in H. lia. }
  (* a neighbour is a node, and its count is positive before the pop *)
  assert (HLN : forall v, In v L -> In v N).
  { intros v Hv. apply adj_of_In in Hv. exact (proj2 (N_covers _ Hv)). }
  assert (HLpos : forall v, In v L -> indeg_rest E O v <> 0).
  { intros v Hv. pose proof (indeg_rest_nonneg E (O ++ [node]) v). rewrite Hrest, Hdeg in H.
    apply (count_occ_In Z.eq_dec) in Hv. lia. }
  split; [intros v; rewrite Hd', Hrest; reflexivity|].
  split.
  { rewrite <- app_assoc. cbn [app]. rewrite app_comm_cons, app_assoc.
    apply NoDup_app; [exact Hnd | exact HP |].
    intros v Hv HvP. apply HPin in HvP as [HvL _].
    apply (HLpos v HvL), (Hz v (HLN v HvL)). exact Hv. }
  split.
  { intros v Hv. rewrite <- app_assoc in Hv. cbn [app] in Hv.
    rewrite app_comm_cons, app_assoc in Hv. apply in_app_iff in Hv as [Hv|Hv].
    - apply Hinc, Hv.
    - apply HPin in Hv as [Hv _]. apply HLN, Hv. }
  split.
  { intros v Hv. rewrite Hrest, Hdeg, <- app_assoc. cbn [app].
    rewrite app_comm_cons, app_assoc, in_app_iff, HPin, Hdeg.
    destruct (count_occ Z.eq_dec L v) as [|k] eqn:Hk.
    - rewrite Z.sub_0_r, (Hz v Hv).
      assert (~ In v L) by (apply (count_occ_not_In Z.eq_dec); exact Hk). tauto.
    - assert (HvL : In v L) by (apply (count_occ_In Z.eq_dec); lia).
      assert (Hno : ~ In v (O ++ node :: q)) by (rewrite <- (Hz v Hv); apply HLpos, HvL).
      split; [intros H; right; split; [exact HvL | lia]|].
      intros [H|[_ H]]; [contradiction | lia]. }
  intros c Hc Hd. apply in_app_iff in Hd as [Hd|[Hd|[]]].
  - destruct (Hord c Hc Hd) as (i & j & Hi & Hj & Hij). exists i, j.
    apply index_of_Some_In in Hi as Hi'.
    rewrite !index_of_app_in by assumption. auto.
  - assert (Hs : In (sourceId c) O).
    { apply (indeg_rest_zero E O node); [|exact Hc | symmetry; exact Hd].
      apply (Hz node HnN). apply in_app_iff; right; left; reflexivity. }
    destruct (index_of_In _ _ Hs) as [i Hi]. exists i, (length O).
    rewrite index_of_app_in by exact Hs. rewrite <- Hd, index_of_snoc by exact HnO.
    split; [exact Hi|]. split; [reflexivity|]. exact (index_of_lt _ _ _ Hi).
Qed.

Lemma kahn_loop_inv fuel : forall deg Q O,
  kahn_inv E N deg Q O -> (fuel + length O)%nat = length N ->
  exists deg', kahn_inv E N deg' [] (kahn_loop fuel (adj_of E) deg Q O).
Proof.
  induction fuel as [|f IH]; intros deg Q O Hinv Hlen; cbn [kahn_loop].
  - (* out of fuel: every node is already output *)
    exists deg. destruct Q as [|x Q]; [exact Hinv|].
    destruct Hinv as (_ & Hnd & Hinc & _).
    pose proof (NoDup_incl_length Hnd Hinc) as H. rewrite length_app in H. cbn in H. lia.
  - destruct Q as [|node q]; [exists deg; exact Hinv|].
    destruct (fold_left relax (adj_of E node) (deg, q)) as [deg' q'] eqn:Hf.
    apply IH with (deg := deg'); [now apply (kahn_pop deg node q O Hinv)|].
    rewrite length_app. cbn. lia.
Qed.

Lemma back_walk_suffix l1 l2 : back_walk E (l1 ++ l2) -> back_walk E l2.
Proof.
  induction l1 as [|x r IH]; cbn [app]; intros H; [exact H|].
  apply IH. destruct r as [|y r']; cbn [app] in H |- *.
  - destruct l2 as [|z l2']; [exact I | exact (proj2 H)].
  - exact (proj2 H).
Qed.

Lemma back_walk_prefix l1 l2 : back_walk E (l1 ++ l2) -> back_walk E l1.
Proof.
  induction l1 as [|x r IH]; intros H; [exact I|].
  destruct r as [|y r']; [exact I|]. cbn [app] in H.
  destruct H as [H1 H2]. split; [exact H1 | apply IH; exact H2].
Qed.

Lemma back_walk_path x l y : back_walk E (x :: l ++ [y]) -> path E y x.
Proof.
  revert x. induction l as [|z r IH]; intros x H; cbn [app] in H.
  - apply t_step. exact (proj1 H).
  - destruct H as [H1 H2]. eapply t_trans; [apply IH; exact H2 | apply t_step; exact H1].
Qed.

(** Every node outside the output has a predecessor outside it: then there
    are walks outside the output of every length. *)
Lemma long_walk O :
  (forall v, In v N -> ~ In v O -> exists u, edge E u v /\ In u N /\ ~ In u O) ->
  forall k v, In v N -> ~ In v O ->
  exists t, length t = k /\ back_walk E (v :: t) /\ (forall x, In x (v :: t) -> In x N).
Proof.
  intros Hpred k. induction k as [|k IH]; intros v Hv HvO.
  - exists []. split; [reflexivity|]. split; [exact I|]. intros x [<-|[]]; exact Hv.
  - destruct (Hpred v Hv HvO) as (u & Huv & HuN & HuO).
    destruct (IH u HuN HuO) as (t & Hl & Hw & HtN).
    exists (u :: t). split; [cbn; lia|]. split; [split; [exact Huv | exact Hw]|].
    intros x [<-|Hx]; [exact Hv | apply HtN, Hx].
Qed.

(** Kahn's algorithm over any duplicate-free enumeration [N] of the
    endpoints: the order lists distinct nodes, every source before its
    destination; on an acyclic graph it lists every node. *)
Lemma kahn_correct :
  NoDup (kahn N E) /\
  (forall c, In c E -> In (destId c) (kahn N E) ->
     exists i j, index_of (sourceId c) (kahn N E) = Some i /\
                 index_of (destId c) (kahn N E) = Some j /\ (i < j)%nat) /\
  (acyclic E -> forall v, In v N -> In v (kahn N E)).
Proof.
  destruct (kahn_loop_inv (length N) (indeg_of E) (filter (fun n => indeg_of E n =? 0) N) []
              kahn_init) as (deg & Hinv); [cbn; lia|].
  fold (kahn N E) in Hinv. set (O := kahn N E) in *.
  destruct Hinv as (_ & Hnd & Hinc & Hz & Hord). rewrite app_nil_r in Hnd, Hinc, Hz.
  split; [exact Hnd|]. split; [exact Hord|].
  intros Hac v Hv. destruct (In_dec Z.eq_dec v O) as [Hin|HvO]; [exact Hin|]. exfalso.
  assert (Hpred : forall v, In v N -> ~ In v O -> exists u, edge E u v /\ In u N /\ ~ In u O).
  { intros w Hw HwO. rewrite <- (Hz w Hw) in HwO.
    destruct (indeg_rest_pos E O w HwO) as (c & Hc & Hd & Hs).
    exists (sourceId c). split; [|split; [exact (proj1 (N_covers c Hc)) | exact Hs]].
    unfold edge. rewrite <- Hd, <- conn_eta. exact Hc. }
  destruct (long_walk O Hpred (length N) v Hv HvO) as (t & Ht & Hw & HtN).
  assert (Hdup : ~ NoDup (v :: t)).
  { intros H. pose proof (NoDup_incl_length H HtN). cbn in H0. lia. }
  apply (not_NoDup Z.eq_decidable) in Hdup as (a & l1 & l2 & l3 & Hl).
  rewrite Hl in Hw. apply back_walk_suffix in Hw.
  replace (a :: l2 ++ a :: l3) with ((a :: l2 ++ [a]) ++ l3) in Hw
    by (cbn [app]; rewrite <- app_assoc; reflexivity).
  apply back_walk_prefix, back_walk_path in Hw. exact (Hac a Hw).
Qed.

End Kahn.

Lemma rebuild_correct E :
  acyclic E ->
  NoDup (rebuildProcessingOrder E) /\
  (forall c, In c E -> In (sourceId c) (rebuildProcessingOrder E) /\
                       In (destId c) (rebuildProcessingOrder E)) /\
  (forall a b, path E a b ->
     exists i j, index_of a (rebuildProcessingOrder E) = Some i /\
                 index_of b (rebuildProcessingOrder E) = Some j /\ (i < j)%nat).
Proof.
  intros Hac.
  assert (Hcov : forall c, In c E -> In (sourceId c) (all_nodes E) /\ In (destId c) (all_nodes E))
    by (intros c Hc; split; apply all_nodes_In; exists c; auto).
  destruct (kahn_correct E (all_nodes E) (NoDup_nodup _ _) Hcov) as (Hnd & Hord & Hall).
  specialize (Hall Hac). unfold rebuildProcessingOrder.
  assert (Hin : forall c, In c E -> In (sourceId c) (kahn (all_nodes E) E) /\
                                   In (destId c) (kahn (all_nodes E) E))
    by (intros c Hc; destruct (Hcov c Hc); split; apply Hall; assumption).
  split; [exact Hnd|]. split; [exact Hin|].
  intros a b H. induction H as [a b Hab|a m b _ IH1 _ IH2].
  - destruct (Hord _ Hab (proj2 (Hin _ Hab))) as (i & j & Hi & Hj & Hij).
    exists i, j. auto.
  - destruct IH1 as (i & j & Hi & Hj & Hij). destruct IH2 as (j' & k & Hj' & Hk & Hjk).
    rewrite Hj in Hj'. injection Hj' as <-. exists i, k. split; [exact Hi|].
    split; [exact Hk | lia].
Qed.

Lemma acyclic_of_hasCycle E : hasCycle E = false -> acyclic E.
Proof.
  intros H x Hx. assert (Hc : hasCycle E = true) by (apply hasCycle_iff; exists x; exact Hx).
  congruence.
Qed.

(** Every mutator of the connection list recomputes the order. *)
Definition order_fresh (g : t) : Prop :=
  processingOrder_ g = rebuildProcessingOrder (connections_ g).

Lemma step_order_fresh o g : order_fresh g -> order_fresh (step o g).
Proof.
  unfold order_fresh. intros H. destruct o; cbn.
  - unfold connect. destruct (s =? d), (d =? Input), (s =? Output),
      (existsb (fun c => (sourceId c =? s) && (destId c =? d)) (connections_ g));
      cbn; try exact H; reflexivity.
  - unfold disconnect. destruct (erase_first s d _); cbn; [reflexivity | exact H].
  - reflexivity.
  - reflexivity.
  - reflexivity.
  - unfold addBand. destruct ((b <? 1) || (12 <? b)), (set_mem b (activeBands_ g)); exact H.
  - unfold removeBand. destruct ((b <? 1) || (12 <? b)), (negb (set_mem b (activeBands_ g)));
      cbn; try exact H; reflexivity.
  - exact H.
  - reflexivity.
  - unfold setSeriesRouting. destruct (activeBands_ g); reflexivity.
  - reflexivity.
Qed.

Lemma run_order_fresh ops g : order_fresh g -> order_fresh (run ops g).
Proof.
  revert g. induction ops as [|o r IH]; intros g H; [exact H|].
  cbn. apply IH, step_order_fresh, H.
Qed.

Lemma create_order_fresh : order_fresh create.
Proof. reflexivity. Qed.

End RoutingFacts.

(* ================================================================== *)
(** ** Routing graph: claims *)

Module RoutingClaims.
Import Routing RoutingFacts.
Open Scope Z_scope.

(** C5: [connect(s, d)] returns false, leaving the graph unchanged, exactly
    when [s = d], [d] is Input, [s] is Output or the pair is already present;
    otherwise it appends the pair, rebuilds the order and returns true.  No
    cycle test takes part: the outcome depends on nothing else. *)
Theorem connect_spec g s d :
  (snd (connect g s d) = false <->
     s = d \/ d = Input \/ s = Output \/ In (mkConn s d) (connections_ g)) /\
  (snd (connect g s d) = false -> fst (connect g s d) = g) /\
  (snd (connect g s d) = true ->
     connections_ (fst (connect g s d)) = connections_ g ++ [mkConn s d] /\
     processingOrder_ (fst (connect g s d)) =
       rebuildProcessingOrder (connections_ g ++ [mkConn s d]) /\
     activeBands_ (fst (connect g s d)) = activeBands_ g).
Proof.
  unfold connect.
  destruct (Z.eqb_spec s d) as [Hsd|Hsd].
  { cbn. repeat split; auto; discriminate. }
  destruct (Z.eqb_spec d Input) as [Hd|Hd].
  { cbn. repeat split; auto; discriminate. }
  destruct (Z.eqb_spec s Output) as [Hs|Hs].
  { cbn. repeat split; auto; discriminate. }
  destruct (existsb _ _) eqn:Ex.
  { apply existsb_pair in Ex. cbn. repeat split; auto; discriminate. }
  cbn. repeat split; auto; try discriminate.
  intros [H|[H|[H|H]]]; try contradiction.
  apply existsb_pair in H. congruence.
Qed.

(** C7 (counterexample): the well-formedness is not kept by every public
    operation.  [setConnections] installs any list, here a self-loop on band
    1; and [addBand(9)] is accepted although 9 is the Output id, after which
    [setDefaultParallelRouting()] adds the self-loop [9 -> 9]. *)
Lemma routing_wellformedness_broken :
  In (mkConn 1 1) (connections_ (run [SetConnections [mkConn 1 1]] create)) /\
  snd (addBand create 9) = true /\
  In (mkConn Output Output)
     (connections_ (run [AddBand 9; SetDefaultParallelRouting] create)).
Proof.
  split; [left; reflexivity|]. split; [reflexivity|].
  vm_compute. tauto.
Qed.

(** C7 (amended): in every state reached from the constructor through
    [connect], [disconnect], [disconnectAll], [clearAllConnections],
    [clear], [addBand], [removeBand], [setActiveBands], and through
    [setDefaultParallelRouting] and [setSeriesRouting] applied while band 9
    (the Output id) is inactive, no connection is a self-loop, none enters
    Input, none leaves Output, and no pair occurs twice. *)
Theorem wellformed_connections g :
  reachable_wf g -> valid_connections (connections_ g).
Proof. intros H. exact (proj1 (reachable_wf_inv g H)). Qed.

Lemma wellformed_connections_witness :
  reachable_wf (step SetSeriesRouting (step (Connect 2 5) create)) /\
  valid_connections (connections_ (step SetSeriesRouting (step (Connect 2 5) create))).
Proof.
  assert (H : reachable_wf (step SetSeriesRouting (step (Connect 2 5) create))).
  { apply rw_step; [apply rw_step; [apply rw_create | exact I]|].
    vm_compute. intros [H|[H|[H|[H|[H|[H|[H|[H|[]]]]]]]]]; discriminate. }
  split; [exact H | apply (wellformed_connections _ H)].
Defined.

(** C4 (counterexample): once the graph holds a cycle, which [connect]
    allows ([1 -> 2] and [2 -> 1]), [wouldCreateCycle(3, 4)] returns true
    although the extended graph has no path from 4 back to 3. *)
Lemma wouldCreateCycle_unrelated_edge :
  wouldCreateCycle (run [Connect 1 2; Connect 2 1] create) 3 4 = true /\
  ~ clos_refl_trans Z
      (edge (connections_ (run [Connect 1 2; Connect 2 1] create) ++ [mkConn 3 4])) 4 3.
Proof.
  split; [vm_compute; reflexivity|].
  intros H. apply clos_rt_rt1n in H. inversion H as [|y z Hxy Hyz]; subst.
  revert Hxy. unfold edge. vm_compute.
  intros [Hc|[Hc|[Hc|[Hc|[]]]]]; discriminate.
Qed.

(** C4 (amended): [wouldCreateCycle(s, d)] returns true iff the connection
    set extended with [s -> d] contains a directed cycle; when the current
    connection set is acyclic, this holds iff the extended graph has a
    (possibly empty) path from [d] back to [s]. *)
Theorem wouldCreateCycle_spec g s d :
  (wouldCreateCycle g s d = true <->
     exists x, path (connections_ g ++ [mkConn s d]) x x) /\
  (acyclic (connections_ g) ->
     (wouldCreateCycle g s d = true <->
        clos_refl_trans Z (edge (connections_ g ++ [mkConn s d])) d s)).
Proof.
  unfold wouldCreateCycle. rewrite hasCycle_iff. split; [reflexivity|].
  intros Hac. split.
  - intros (x & Hx). apply path_snoc_split in Hx as [Hx|[H1 H2]].
    + exfalso. exact (Hac x Hx).
    + eapply rt_trans; [exact H2 | apply rt_app_l; exact H1].
  - intros H. exists s. apply t_rt_t with d; [|exact H].
    apply t_step. apply edge_snoc. right; auto.
Qed.

(** C3: after any sequence of operations from the constructor, when the
    connections are acyclic, [getProcessingOrder()] lists distinct nodes,
    contains both ends of every connection, and for every path from [a] to
    [b], in particular every connection [(a, b)], [a] comes before [b]. *)
Theorem processing_order_topological ops :
  acyclic (connections_ (run ops create)) ->
  NoDup (processingOrder_ (run ops create)) /\
  (forall c, In c (connections_ (run ops create)) ->
     In (sourceId c) (processingOrder_ (run ops create)) /\
     In (destId c) (processingOrder_ (run ops create))) /\
  (forall c, In c (connections_ (run ops create)) ->
     exists i j, index_of (sourceId c) (processingOrder_ (run ops create)) = Some i /\
                 index_of (destId c) (processingOrder_ (run ops create)) = Some j /\
                 (i < j)%nat) /\
  (forall a b, path (connections_ (run ops create)) a b ->
     exists i j, index_of a (processingOrder_ (run ops create)) = Some i /\
                 index_of b (processingOrder_ (run ops create)) = Some j /\ (i < j)%nat).
Proof.
  intros Hac. pose proof (run_order_fresh ops create create_order_fresh) as Hf.
  unfold order_fresh in Hf. rewrite Hf.
  destruct (rebuild_correct _ Hac) as (Hnd & Hin & Hpath).
  split; [exact Hnd|]. split; [exact Hin|]. split; [|exact Hpath].
  intros c Hc. apply Hpath, t_step. unfold edge. rewrite <- conn_eta. exact Hc.
Qed.

Lemma processing_order_topological_witness :
  acyclic (connections_ (run [Connect 1 2; Connect 2 Output; Connect 1 3] create)) /\
  index_of 1 (processingOrder_ (run [Connect 1 2; Connect 2 Output; Connect 1 3] create))
    <> None.
Proof.
  assert (Hac : acyclic (connections_ (run [Connect 1 2; Connect 2 Output; Connect 1 3] create)))
    by (apply acyclic_of_hasCycle; vm_compute; reflexivity).
  split; [exact Hac|].
  destruct (processing_order_topological _ Hac) as (_ & _ & Hedge & _).
  destruct (Hedge (mkConn 1 2)) as (i & j & Hi & _); [vm_compute; tauto|].
  cbn [sourceId] in Hi. rewrite Hi. discriminate.
Defined.

End RoutingClaims.

(* ================================================================== *)
(** ** DelayMatrix final mix *)

Module DelayMixFacts.
Import DelayMix.

Lemma pan_angle_default : pan_angle default_dryPan = default_angle.
Proof. vm_compute. reflexivity. Qed.

(** Multiplying by [1.0f] is exact on the [float] values of
    [near_sqrt_half], checked value by value. *)
Lemma mul_one_table :
  forallb (fun i =>
    let g := S754_finite false (Z.to_pos (11861492 + Z.of_nat i)) (-24) in
    match F.mul g F.one, F.mul F.one g with
    | S754_finite false k1 e1, S754_finite false k2 e2 =>
        Pos.eqb k1 (Z.to_pos (11861492 + Z.of_nat i)) &&
        Pos.eqb k2 (Z.to_pos (11861492 + Z.of_nat i)) &&
        Z.eqb e1 (-24) && Z.eqb e2 (-24)
    | _, _ => false
    end) (seq 0 3356) = true.
Proof. vm_compute. reflexivity. Qed.

Lemma mul_one_near g : near_sqrt_half g -> F.mul g F.one = g /\ F.mul F.one g = g.
Proof.
  intros (k & -> & Hk).
  pose proof (proj1 (forallb_forall _ _) mul_one_table (Z.to_nat (Zpos k - 11861492))) as H.
  rewrite in_seq in H. specialize (H ltac:(lia)).
  rewrite Z2Nat.id in H by lia.
  replace (11861492 + (Zpos k - 11861492))%Z with (Zpos k) in H by lia.
  cbv zeta in H. change (Z.to_pos (Zpos k)) with k in H.
  destruct (F.mul (S754_finite false k (-24)) F.one) as [? | ? | | [] k1 e1] eqn:E1; try discriminate H;
  destruct (F.mul F.one (S754_finite false k (-24))) as [? | ? | | [] k2 e2] eqn:E2; try discriminate H.
  apply andb_true_iff in H as [H H4]. apply andb_true_iff in H as [H H3].
  apply andb_true_iff in H as [H1 H2].
  apply Pos.eqb_eq in H1, H2. apply Z.eqb_eq in H3, H4. subst. auto.
Qed.

Lemma default_gain cosf sinf ch :
  near_sqrt_half (cosf default_angle) -> near_sqrt_half (sinf default_angle) ->
  dryGain cosf sinf ch default_dryLevel default_dryPan =
  (if Nat.eqb ch 0 then cosf default_angle else sinf default_angle).
Proof.
  intros Hc Hs. unfold dryGain, dryPanL, dryPanR, default_dryLevel.
  rewrite pan_angle_default.
  destruct (Nat.eqb ch 0); [apply (mul_one_near _ Hc) | apply (mul_one_near _ Hs)].
Qed.

Lemma mix_default_endpoints cosf sinf ch m :
  near_sqrt_half (cosf default_angle) -> near_sqrt_half (sinf default_angle) ->
  (m = F.zero \/ m = F.one) ->
  mix_sample cosf sinf ch m default_dryLevel default_dryPan F.one F.zero =
  dryGain cosf sinf ch default_dryLevel default_dryPan.
Proof.
  intros Hc Hs Hm. unfold mix_sample.
  assert (Hg : near_sqrt_half (dryGain cosf sinf ch default_dryLevel default_dryPan)).
  { rewrite (default_gain _ _ _ Hc Hs). destruct (Nat.eqb ch 0); assumption. }
  rewrite (proj2 (mul_one_near _ Hg)).
  destruct Hg as (k & -> & _).
  destruct Hm as [-> | ->]; reflexivity.
Qed.

Lemma final_mix_unit cosf sinf m l p :
  final_mix cosf sinf [[F.one]; [F.one]] [[F.zero]; [F.zero]] m l p =
  Some [[mix_sample cosf sinf 0 m l p F.one F.zero]; [mix_sample cosf sinf 1 m l p F.one F.zero]].
Proof. reflexivity. Qed.

Lemma near_not_one g : near_sqrt_half g -> g <> F.one.
Proof.
  intros (k & -> & Hk) H. vm_compute in H. injection H as Hk' He. discriminate He.
Qed.

Lemma mix_channel_nth cosf sinf ch ns dry w m l p o :
  mix_channel cosf sinf ch ns dry w m l p = Some o ->
  forall s, s < ns ->
  nth s o F.zero = mix_sample cosf sinf ch m l p (nth s dry F.zero) (nth s w F.zero).
Proof.
  unfold mix_channel. destruct (Nat.leb ns (length dry) && Nat.leb ns (length w)); [|discriminate].
  intros H s Hs. injection H as <-.
  rewrite app_nth1 by (rewrite length_map, length_seq; exact Hs).
  rewrite (nth_indep _ F.zero
    (mix_sample cosf sinf ch m l p (nth 0 dry F.zero) (nth 0 w F.zero)))
    by (rewrite length_map, length_seq; exact Hs).
  rewrite (map_nth (fun s => mix_sample cosf sinf ch m l p (nth s dry F.zero) (nth s w F.zero))).
  rewrite seq_nth by exact Hs. reflexivity.
Qed.

Lemma mix_channels_spec cosf sinf m l p buffer : forall ch nc ns wet out,
  mix_channels cosf sinf ch nc ns buffer wet m l p = Some out ->
  length out = length buffer /\
  forall i dry, nth_error buffer i = Some dry ->
  exists o, nth_error out i = Some o /\
    (ch + i < nc -> exists w, nth_error wet (ch + i) = Some w /\
                              mix_channel cosf sinf (ch + i) ns dry w m l p = Some o) /\
    (nc <= ch + i -> o = dry).
Proof.
  induction buffer as [|d rest IH]; intros ch nc ns wet out H; cbn [mix_channels] in H.
  - injection H as <-. split; [reflexivity|]. intros [|i] dry Hi; discriminate Hi.
  - set (o0 := if Nat.ltb ch nc then _ else _) in H.
    destruct o0 as [o|] eqn:Eo; [|discriminate].
    destruct (mix_channels cosf sinf (S ch) nc ns rest wet m l p) as [os|] eqn:Er; [|discriminate].
    injection H as <-. destruct (IH _ _ _ _ _ Er) as [Hl Hn].
    split; [cbn; congruence|].
    intros [|i] dry Hi; cbn in Hi.
    + injection Hi as <-. exists o. split; [reflexivity|].
      subst o0. rewrite Nat.add_0_r.
      destruct (Nat.ltb ch nc) eqn:Hc.
      * apply Nat.ltb_lt in Hc. split; [|lia].
        intros _. destruct (nth_error wet ch) as [w|]; [|discriminate]. eauto.
      * apply Nat.ltb_ge in Hc. split; [lia|]. intros _. congruence.
    + destruct (Hn i dry Hi) as (o' & H1 & H2 & H3). exists o'.
      replace (ch + S i) with (S ch + i) by lia. auto.
Qed.

Lemma mix_channels_some cosf sinf m l p buffer : forall ch nc ns wet,
  (forall i dry, ch + i < nc -> nth_error buffer i = Some dry ->
     ns <= length dry /\ exists w, nth_error wet (ch + i) = Some w /\ ns <= length w) ->
  exists out, mix_channels cosf sinf ch nc ns buffer wet m l p = Some out.
Proof.
  induction buffer as [|d rest IH]; intros ch nc ns wet H; cbn [mix_channels]; [eauto|].
  destruct (IH (S ch) nc ns wet) as [os Hos].
  { intros i dry Hi Hd. replace (S ch + i) with (ch + S i) by lia. apply H; [lia | exact Hd]. }
  rewrite Hos.
  destruct (Nat.ltb ch nc) eqn:Hc; [|eauto].
  apply Nat.ltb_lt in Hc.
  destruct (H 0 d ltac:(lia) eq_refl) as [Hd (w & Hw & Hlw)].
  rewrite Nat.add_0_r in Hw. rewrite Hw. unfold mix_channel.
  apply Nat.leb_le in Hd, Hlw. rewrite Hd, Hlw. cbn. eauto.
Qed.

End DelayMixFacts.

Module DelayMixClaims.
Import DelayMix DelayMixFacts.

(** Claim C6 (counterexample). At the default dry level 1 and dry pan 0, with
    [std::cos] and [std::sin] returning the binary32 values nearest to
    cos(pi/4) and sin(pi/4) at the angle [0.25f * 3.14159f], the stereo
    block with dry samples 1 and wet samples 0 comes out as the pan gains
    (0.70710...) at wetMix = 0 and again at wetMix = 1: the dry block is
    not reproduced at wetMix = 0, nor the wet block at wetMix = 1. *)
Lemma mix_endpoints_not_exact :
  final_mix cos_nearest sin_nearest [[F.one]; [F.one]] [[F.zero]; [F.zero]]
    F.zero default_dryLevel default_dryPan =
    Some [[S754_finite false 11863291 (-24)]; [S754_finite false 11863276 (-24)]] /\
  final_mix cos_nearest sin_nearest [[F.one]; [F.one]] [[F.zero]; [F.zero]]
    F.one default_dryLevel default_dryPan =
    Some [[S754_finite false 11863291 (-24)]; [S754_finite false 11863276 (-24)]] /\
  [[S754_finite false 11863291 (-24)]; [S754_finite false 11863276 (-24)]] <> [[F.one]; [F.one]] /\
  [[S754_finite false 11863291 (-24)]; [S754_finite false 11863276 (-24)]] <> [[F.zero]; [F.zero]].
Proof.
  split; [vm_compute; reflexivity|]. split; [vm_compute; reflexivity|].
  split; intros H; vm_compute in H; discriminate H.
Qed.

(** Claim C6 (amended). In binary32 arithmetic, the final mix of
    [DelayMatrix::process] and [processWithRouting]:
    - changes only the first [min(2, numChannels)] channels, and each of
      their samples [s] below [numSamples] becomes the value
      [dry[s] * dryGain + wet[s] * wetMix], where [dryGain] is
      [std::cos(angle) * dryLevel] for channel 0 and
      [std::sin(angle) * dryLevel] for channel 1, whatever the library's
      [std::cos] and [std::sin] are;
    - is defined whenever every mixed channel, dry and wet, holds at least
      [numSamples] samples;
    - at the default dry level 1 and dry pan 0, for any [std::cos] and
      [std::sin] whose value at the angle lies in [0.7070, 0.7072], gives each
      channel a dry gain in that range, maps a dry sample 1 with wet sample
      0 to that gain at both wetMix = 0 and wetMix = 1, and so reproduces
      neither the dry block at wetMix = 0 nor the wet block at wetMix = 1. *)
Theorem final_mix_law :
  (forall cosf sinf buffer wet m l p out,
     final_mix cosf sinf buffer wet m l p = Some out ->
     length out = length buffer /\
     (forall ch, 2 <= ch -> nth_error out ch = nth_error buffer ch) /\
     (forall ch dry w s, ch < 2 -> nth_error buffer ch = Some dry -> nth_error wet ch = Some w ->
        s < length (hd [] buffer) ->
        nth s (nth ch out []) F.zero =
        mix_sample cosf sinf ch m l p (nth s dry F.zero) (nth s w F.zero))) /\
  (forall cosf sinf buffer wet m l p,
     (forall ch dry, ch < 2 -> nth_error buffer ch = Some dry ->
        length (hd [] buffer) <= length dry /\
        exists w, nth_error wet ch = Some w /\ length (hd [] buffer) <= length w) ->
     exists out, final_mix cosf sinf buffer wet m l p = Some out) /\
  (forall cosf sinf,
     near_sqrt_half (cosf default_angle) -> near_sqrt_half (sinf default_angle) ->
     (forall ch,
        near_sqrt_half (dryGain cosf sinf ch default_dryLevel default_dryPan) /\
        mix_sample cosf sinf ch F.zero default_dryLevel default_dryPan F.one F.zero =
          dryGain cosf sinf ch default_dryLevel default_dryPan /\
        mix_sample cosf sinf ch F.one default_dryLevel default_dryPan F.one F.zero =
          dryGain cosf sinf ch default_dryLevel default_dryPan) /\
     final_mix cosf sinf [[F.one]; [F.one]] [[F.zero]; [F.zero]]
       F.zero default_dryLevel default_dryPan <> Some [[F.one]; [F.one]] /\
     final_mix cosf sinf [[F.one]; [F.one]] [[F.zero]; [F.zero]]
       F.one default_dryLevel default_dryPan <> Some [[F.zero]; [F.zero]]).
Proof.
  split; [|split].
  - intros cosf sinf buffer wet m l p out H. unfold final_mix in H.
    destruct (Nat.eqb (match buffer with [] => O | c :: _ => length c end) 0 ||
              Nat.eqb (Nat.min 2 (length buffer)) 0) eqn:E.
    + injection H as <-. split; [reflexivity|]. split; [reflexivity|].
      intros ch dry w s Hch Hd Hw Hs. exfalso.
      apply orb_true_iff in E as [E|E]; apply Nat.eqb_eq in E.
      * destruct buffer; cbn in Hs, E; lia.
      * destruct buffer; [destruct ch; discriminate Hd | cbn in E; lia].
    + destruct (mix_channels_spec _ _ _ _ _ _ _ _ _ _ _ H) as [Hl Hn].
      split; [exact Hl|]. split.
      * intros ch Hch. destruct (nth_error buffer ch) as [dry|] eqn:Hd.
        -- destruct (Hn ch dry Hd) as (o & Ho & _ & Hr). rewrite Ho, Hr; [reflexivity|]. lia.
        -- apply nth_error_None. rewrite Hl. apply nth_error_None. exact Hd.
      * intros ch dry w s Hch Hd Hw Hs.
        destruct (Hn ch dry Hd) as (o & Ho & Hm & _).
        assert (Hlt : ch < length buffer) by (apply nth_error_Some; congruence).
        destruct Hm as (w' & Hw' & Hmc); [rewrite Nat.add_0_l; lia|]. rewrite Nat.add_0_l in Hw', Hmc.
        rewrite Hw in Hw'. injection Hw' as <-.
        rewrite (nth_error_nth _ _ _ Ho).
        apply (mix_channel_nth _ _ _ _ _ _ _ _ _ _ Hmc).
        destruct buffer; cbn in *; lia.
  - intros cosf sinf buffer wet m l p H. unfold final_mix.
    destruct (_ || _); [eauto|].
    apply mix_channels_some. intros i dry Hi Hd. rewrite Nat.add_0_l in Hi |- *.
    replace (match buffer with [] => O | c :: _ => length c end) with (length (hd [] buffer))
      by (destruct buffer; reflexivity).
    apply H; [lia | exact Hd].
  - intros cosf sinf Hc Hs. split; [|split].
    + intros ch. split; [|split].
      * rewrite (default_gain _ _ _ Hc Hs). destruct (Nat.eqb ch 0); assumption.
      * apply mix_default_endpoints; auto.
      * apply mix_default_endpoints; auto.
    + rewrite final_mix_unit, (mix_default_endpoints _ _ _ _ Hc Hs (or_introl eq_refl)).
      intros H. injection H as H _. apply (near_not_one _ Hc).
      rewrite <- H. rewrite (default_gain _ _ _ Hc Hs). reflexivity.
    + rewrite final_mix_unit, (mix_default_endpoints _ _ _ _ Hc Hs (or_intror eq_refl)).
      rewrite (default_gain _ _ _ Hc Hs). cbn [Nat.eqb].
      destruct Hc as (k & Hk & _). rewrite Hk. discriminate.
Qed.

Theorem final_mix_law_witness :
  (near_sqrt_half (cos_nearest default_angle) /\ near_sqrt_half (sin_nearest default_angle)) /\
  final_mix cos_nearest sin_nearest [[F.one]; [F.one]] [[F.zero]; [F.zero]]
    F.zero default_dryLevel default_dryPan <> Some [[F.one]; [F.one]].
Proof.
  assert (H : near_sqrt_half (cos_nearest default_angle) /\ near_sqrt_half (sin_nearest default_angle)).
  { split; [exists 11863291%positive | exists 11863276%positive]; split;
      try (vm_compute; reflexivity); lia. }
  split; [exact H|].
  exact (proj1 (proj2 (proj2 (proj2 final_mix_law) cos_nearest sin_nearest (proj1 H) (proj2 H)))).
Defined.
End DelayMixClaims.

(* ================================================================== *)
(** ** GenerativeModulator *)

Module ModulatorFacts.
Import Modulator.
Local Open Scope R_scope.

Lemma mod_clamp_bounds v lo hi : lo <= hi -> lo <= clamp v lo hi <= hi.
Proof.
  intros. unfold clamp.
  destruct (Rlt_dec v lo); [lra|]. destruct (Rlt_dec hi v); lra.
Qed.

Lemma clamp_id v lo hi : lo <= v <= hi -> clamp v lo hi = v.
Proof.
  intros. unfold clamp.
  destruct (Rlt_dec v lo); [lra|]. destruct (Rlt_dec hi v); lra.
Qed.

Lemma advancePhase_range p inc :
  0 <= p < 1 -> 0 <= inc <= 1 -> 0 <= advancePhase p inc < 1.
Proof. intros. unfold advancePhase. destruct (Rle_dec 1 (p + inc)); lra. Qed.

Lemma slew_range a b k :
  0 <= k <= 1 -> -1 <= a <= 1 -> -1 <= b <= 1 -> -1 <= a + (b - a) * k <= 1.
Proof. intros. nra. Qed.

Lemma scaled_range raw d : -1 <= raw <= 1 -> 0 <= d -> Rabs (raw * d) <= d.
Proof.
  intros. rewrite Rabs_mult, (Rabs_pos_eq d) by lra.
  assert (Rabs raw <= 1) by (apply Rabs_le; lra).
  nra.
Qed.

Lemma phaseInc_range m : inv m -> 0 <= rateHz_ m / sampleRate_ m <= 1.
Proof.
  intros (Hsr & Hr & _).
  assert (Hi : 0 < / sampleRate_ m) by (apply Rinv_0_lt_compat; lra).
  assert (Hs : sampleRate_ m * / sampleRate_ m = 1) by (field; lra).
  unfold Rdiv. split; [nra|].
  nra.
Qed.

Lemma tick_spec u m :
  inv m -> Rabs (fst (tick u m)) <= depth_ m /\ inv (snd (tick u m)).
Proof.
  intros Hinv. pose proof (phaseInc_range m Hinv) as Hinc.
  destruct m as [sr ty r d p bv bt x y z ls].
  unfold inv in *; cbn [sampleRate_ rateHz_ depth_ phase_ brownianValue_
    brownianTarget_ lorenzSmoothed_] in *.
  destruct Hinv as (Hsr & Hr & Hd & Hp & Hbv & Hbt & Hls).
  pose proof (advancePhase_range p (r / sr) Hp Hinc) as Hp'.
  unfold tick; cbn [type_ sampleRate_ rateHz_ depth_ phase_ brownianValue_
    brownianTarget_ lorenzX_ lorenzY_ lorenzZ_ lorenzSmoothed_].
  destruct ty; cbn [fst snd sampleRate_ rateHz_ depth_ phase_ brownianValue_
    brownianTarget_ lorenzSmoothed_].
  - split; [apply scaled_range; [apply SIN_bound | lra]|].
    repeat split; lra.
  - split; [apply scaled_range; [destruct (Rlt_dec p (1 / 2)); lra | lra]|].
    repeat split; lra.
  - split; [apply scaled_range; lra|].
    repeat split; lra.
  - split; [apply scaled_range; [destruct (Rlt_dec p (1 / 2)); lra | lra]|].
    repeat split; lra.
  - set (target := if Rlt_dec (advancePhase p (r / sr)) p then _ else bt).
    assert (Ht : -1 <= target <= 1).
    { unfold target. destruct (Rlt_dec _ _); [apply mod_clamp_bounds; lra | lra]. }
    assert (Hv : -1 <= bv + (target - bv) * (1 / 1000) <= 1)
      by (apply slew_range; lra).
    cbn [fst snd sampleRate_ rateHz_ depth_ phase_ brownianValue_
      brownianTarget_ lorenzSmoothed_].
    split; [apply scaled_range; lra|].
    repeat split; lra.
  - destruct (lorenz_iter _ _) as [[x' y'] z'].
    cbn [fst snd sampleRate_ rateHz_ depth_ phase_ brownianValue_
      brownianTarget_ lorenzSmoothed_].
    assert (Hraw : -1 <= clamp (x' / 20) (-1) 1 <= 1) by (apply mod_clamp_bounds; lra).
    assert (Hv : -1 <= ls + (clamp (x' / 20) (-1) 1 - ls) * (5 / 10000 + r * (1 / 10000)) <= 1)
      by (apply slew_range; lra).
    split; [apply scaled_range; lra|].
    repeat split; lra.
Qed.

Lemma mod_step_inv m o : prepare_ok o -> inv m -> inv (step m o).
Proof.
  intros Ho Hinv. destruct o as [sr| |ty r d|u]; cbn in Ho.
  - destruct m; unfold inv in *; cbn in *. intuition lra.
  - destruct m; unfold inv in *; cbn in *. intuition lra.
  - destruct m; unfold inv in *; cbn [step setParams sampleRate_ rateHz_ depth_ phase_
      brownianValue_ brownianTarget_ lorenzSmoothed_] in *.
    pose proof (mod_clamp_bounds r (1 / 100) 20 ltac:(lra)).
    pose proof (mod_clamp_bounds d 0 1 ltac:(lra)).
    intuition lra.
  - apply tick_spec. exact Hinv.
Qed.

Lemma mod_run_inv ops m : Forall prepare_ok ops -> inv m -> inv (run ops m).
Proof.
  unfold run. revert m. induction ops as [|o ops IH]; intros m Hok Hinv; cbn [fold_left].
  - exact Hinv.
  - inversion Hok; subst. apply IH; [assumption|]. apply mod_step_inv; assumption.
Qed.

Lemma mod_init_inv : inv init.
Proof. unfold inv, init; cbn. lra. Qed.

Lemma setParams_depth ty r d m : 0 <= d <= 1 -> depth_ (setParams ty r d m) = d.
Proof. intros. cbn. apply clamp_id. exact H. Qed.

End ModulatorFacts.

Module ModulatorClaims.
Import Modulator ModulatorFacts.
Local Open Scope R_scope.

(** Claim C9. Take any sequence of [prepare], [reset], [setParams] (any
    waveform, any rate, any depth) and [tick] calls on a fresh modulator,
    where every sample rate given to [prepare] is at least 20 Hz. Then the
    stored depth lies in [0,1], and [setParams] with a depth in [0,1] stores
    that depth. The next [tick()] returns a value of magnitude at most the
    stored depth, whatever value the random generator yields. *)
Theorem tick_within_depth (ops : list op) (nextFloat : R) :
  Forall prepare_ok ops ->
  0 <= depth_ (run ops init) <= 1 /\
  Rabs (fst (tick nextFloat (run ops init))) <= depth_ (run ops init) /\
  (forall ty r d, 0 <= d <= 1 -> depth_ (setParams ty r d (run ops init)) = d).
Proof.
  intros Hok. pose proof (mod_run_inv ops init Hok mod_init_inv) as Hinv.
  split; [unfold inv in Hinv; tauto|].
  split; [apply tick_spec; exact Hinv|].
  intros. apply setParams_depth. assumption.
Qed.

Lemma tick_within_depth_witness :
  Forall prepare_ok [Prepare 44100; SetParams Saw 5 (1 / 2); Tick 0] /\
  Rabs (fst (tick 0 (run [Prepare 44100; SetParams Saw 5 (1 / 2); Tick 0] init)))
    <= depth_ (run [Prepare 44100; SetParams Saw 5 (1 / 2); Tick 0] init).
Proof.
  assert (H : Forall prepare_ok [Prepare 44100; SetParams Saw 5 (1 / 2); Tick 0]).
  { repeat constructor; cbn; lra. }
  split; [exact H|].
  apply (tick_within_depth [Prepare 44100; SetParams Saw 5 (1 / 2); Tick 0] 0 H).
Defined.

End ModulatorClaims.

(* ================================================================== *)
(** ** AttackEnvelope *)

Module AttackEnvelopeFacts.
Import AttackEnvelope.
Local Open Scope R_scope.

Lemma env_clamp_bounds v lo hi : lo <= hi -> lo <= clamp v lo hi <= hi.
Proof.
  intros. unfold clamp.
  destruct (Rlt_dec v lo); [lra|]. destruct (Rlt_dec hi v); lra.
Qed.

(** [1 - exp(-5 / samples)] lies in [0,1] for a positive sample count. *)
Lemma coeff_range x : 0 < x -> 0 <= 1 - exp ((-5) / x) <= 1.
Proof.
  intros Hx. pose proof (Rinv_0_lt_compat x Hx).
  pose proof (exp_pos ((-5) / x)).
  assert (exp ((-5) / x) < exp 0) by (apply exp_increasing; unfold Rdiv; nra).
  rewrite exp_0 in *. lra.
Qed.

Lemma updateCoefficients_inv e : inv e -> inv (updateCoefficients e).
Proof.
  intros Hinv. unfold updateCoefficients.
  destruct (Rle_dec (sampleRate_ e) 0) as [|Hsr]; [exact Hinv|].
  destruct e as [sr am rm th ac rc env trig]; unfold inv in *; cbn in *.
  destruct Hinv as (Hrm & Hac & Hrc & Henv).
  assert (Hr : 0 <= 1 - exp ((-5) / (rm / 1000 * sr)) <= 1)
    by (apply coeff_range; apply Rmult_lt_0_compat; lra).
  repeat split; try lra.
  - destruct (Rlt_dec 0 am); [|lra].
    apply coeff_range. apply Rmult_lt_0_compat; lra.
  - destruct (Rlt_dec 0 am); [|lra].
    apply coeff_range. apply Rmult_lt_0_compat; lra.
Qed.

Lemma process_spec l e :
  inv e -> 0 <= fst (process l e) <= 1 /\ inv (snd (process l e)).
Proof.
  intros Hinv. destruct e as [sr am rm th ac rc env trig].
  unfold inv in *; cbn [releaseTimeMs_ attackCoeff_ releaseCoeff_ envelope_] in *.
  destruct Hinv as (Hrm & Hac & Hrc & Henv).
  unfold process; cbn [threshold_ envelope_ attackCoeff_ releaseCoeff_ triggered_].
  destruct (Rlt_dec th l).
  - cbn. assert (0 <= env + ac * (1 - env) <= 1) by nra. intuition lra.
  - destruct trig.
    + destruct (Rlt_dec (env - rc * env) (1 / 1000)).
      * cbn. intuition lra.
      * cbn. assert (0 <= env - rc * env <= 1) by nra. intuition lra.
    + cbn. intuition lra.
Qed.

Lemma processBlock_spec inL inR wL wR e :
  inv e ->
  Rabs (fst (fst (processBlock inL inR wL wR e))) <= Rabs wL /\
  Rabs (snd (fst (processBlock inL inR wL wR e))) <= Rabs wR /\
  inv (snd (processBlock inL inR wL wR e)).
Proof.
  intros Hinv. unfold processBlock.
  pose proof (process_spec (Rmax (Rabs inL) (Rabs inR)) e Hinv) as [Hv Hs].
  destruct (process (Rmax (Rabs inL) (Rabs inR)) e) as [env e'].
  cbn [fst snd] in *.
  rewrite !Rabs_mult, (Rabs_pos_eq env) by lra.
  pose proof (Rabs_pos wL). pose proof (Rabs_pos wR).
  split; [nra|]. split; [nra|]. exact Hs.
Qed.

Lemma env_step_inv e o : inv e -> inv (step e o).
Proof.
  intros Hinv. destruct o as [sr| |a|r|db|l|l r wl wr]; cbn [step].
  - apply updateCoefficients_inv. destruct e; unfold inv in *; cbn in *. exact Hinv.
  - destruct e; unfold inv in *; cbn in *. intuition lra.
  - unfold setAttackTimeMs. destruct (Req_dec_T _ _); [exact Hinv|].
    apply updateCoefficients_inv. destruct e; unfold inv in *; cbn in *. exact Hinv.
  - unfold setReleaseTimeMs. destruct (Req_dec_T _ _); [exact Hinv|].
    apply updateCoefficients_inv. destruct e; unfold inv in *; cbn in *.
    pose proof (env_clamp_bounds r 1 5000 ltac:(lra)). intuition lra.
  - destruct e; unfold inv in *; cbn in *. exact Hinv.
  - apply process_spec. exact Hinv.
  - apply processBlock_spec. exact Hinv.
Qed.

Lemma env_run_inv ops e : inv e -> inv (run ops e).
Proof.
  unfold run. revert e. induction ops as [|o ops IH]; intros e Hinv; cbn [fold_left].
  - exact Hinv.
  - apply IH. apply env_step_inv. exact Hinv.
Qed.

Lemma env_init_inv : inv init.
Proof. unfold inv, init; cbn. lra. Qed.

End AttackEnvelopeFacts.

Module AttackEnvelopeClaims.
Import AttackEnvelope AttackEnvelopeFacts.
Local Open Scope R_scope.

(** Claim C10. Take any sequence of [prepare], [reset], setter, [process]
    and [processBlock] calls on a fresh envelope. In the state it reaches,
    the envelope lies in [0,1]. The next [process] returns a value in [0,1]
    and leaves the envelope in [0,1]. The next [processBlock] never
    increases the magnitude of either wet sample. *)
Theorem envelope_in_unit_range (ops : list op) :
  0 <= envelope_ (run ops init) <= 1 /\
  (forall l, 0 <= fst (process l (run ops init)) <= 1 /\
             0 <= envelope_ (snd (process l (run ops init))) <= 1) /\
  (forall inL inR wL wR,
     Rabs (fst (fst (processBlock inL inR wL wR (run ops init)))) <= Rabs wL /\
     Rabs (snd (fst (processBlock inL inR wL wR (run ops init)))) <= Rabs wR).
Proof.
  pose proof (env_run_inv ops init env_init_inv) as Hinv.
  split; [unfold inv in Hinv; tauto|].
  split.
  - intros l. destruct (process_spec l _ Hinv) as [Hv Hs].
    split; [exact Hv|]. unfold inv in Hs; tauto.
  - intros. destruct (processBlock_spec inL inR wL wR _ Hinv) as (H1 & H2 & _).
    split; assumption.
Qed.

End AttackEnvelopeClaims.

(* ################################################################## *)
(** * Further properties of the modelled code *)

Module RoutingExtraFacts.
Import Routing RoutingQueries RoutingFacts.
Local Open Scope Z_scope.

Lemma erase_first_snoc_absent s d E :
  ~ In (mkConn s d) E -> erase_first s d (E ++ [mkConn s d]) = Some E.
Proof.
  induction E as [|c r IH]; intros H; cbn.
  - rewrite !Z.eqb_refl. reflexivity.
  - destruct ((sourceId c =? s) && (destId c =? d)) eqn:Hc.
    + apply andb_true_iff in Hc as [H1 H2]. apply Z.eqb_eq in H1, H2.
      exfalso. apply H. left. rewrite (conn_eta c), H1, H2. reflexivity.
    + rewrite IH by (intros Hi; apply H; right; exact Hi). reflexivity.
Qed.

Lemma erase_first_spec s d E :
  match erase_first s d E with
  | Some E' => exists l1 l2, E = l1 ++ mkConn s d :: l2 /\
                             ~ In (mkConn s d) l1 /\ E' = l1 ++ l2
  | None => ~ In (mkConn s d) E
  end.
Proof.
  induction E as [|c r IH]; cbn; [tauto|].
  destruct ((sourceId c =? s) && (destId c =? d)) eqn:Hc.
  - apply andb_true_iff in Hc as [H1 H2]. apply Z.eqb_eq in H1, H2.
    exists [], r. rewrite (conn_eta c), H1, H2. cbn. auto.
  - assert (Hn : c <> mkConn s d).
    { intros ->. cbn in Hc. rewrite !Z.eqb_refl in Hc. discriminate. }
    destruct (erase_first s d r) as [E'|]; cbn.
    + destruct IH as (l1 & l2 & -> & Hl & ->). exists (c :: l1), l2.
      split; [reflexivity|]. split; [|reflexivity].
      intros [H|H]; [congruence | contradiction].
    + intros [H|H]; [congruence | contradiction].
Qed.

Lemma set_erase_In b l x : In x (set_erase b l) <-> In x l /\ x <> b.
Proof.
  unfold set_erase. rewrite filter_In. rewrite negb_true_iff, Z.eqb_neq. tauto.
Qed.

Lemma set_insert_length x l : ~ In x l -> length (set_insert x l) = S (length l).
Proof.
  induction l as [|y r IH]; intros H; cbn; [reflexivity|].
  destruct (x <? y); [reflexivity|].
  destruct (Z.eqb_spec x y) as [->|]; [exfalso; apply H; left; reflexivity|].
  cbn. rewrite IH; [reflexivity|]. intros Hi; apply H; right; exact Hi.
Qed.

Lemma filter_set_insert b l :
  filter (fun y => negb (y =? b)) (set_insert b l) = filter (fun y => negb (y =? b)) l.
Proof.
  induction l as [|y r IH]; cbn; [rewrite Z.eqb_refl; reflexivity|].
  destruct (b <? y); cbn; [rewrite Z.eqb_refl; reflexivity|].
  destruct (Z.eqb_spec b y); cbn; [reflexivity|].
  rewrite IH. reflexivity.
Qed.

Lemma filter_all {A} (f : A -> bool) l : (forall x, In x l -> f x = true) -> filter f l = l.
Proof.
  induction l as [|x r IH]; intros H; cbn; [reflexivity|].
  rewrite (H x (or_introl eq_refl)), IH; [reflexivity|]. intros y Hy; apply H; right; exact Hy.
Qed.

Lemma fold_bands_In bs acc x :
  In x (fold_left (fun acc b => if (1 <=? b) && (b <=? 12) then set_insert b acc else acc)
                  bs acc) <->
  In x acc \/ (In x bs /\ 1 <= x <= 12).
Proof.
  revert acc. induction bs as [|b r IH]; intros acc; cbn; [tauto|].
  rewrite IH. destruct ((1 <=? b) && (b <=? 12)) eqn:Hb.
  - apply andb_true_iff in Hb as [H1 H2]. apply Z.leb_le in H1, H2.
    rewrite set_insert_In. intuition (subst; auto).
  - rewrite andb_false_iff, !Z.leb_gt in Hb. intuition (subst; lia).
Qed.

(** Every node of the processing order is an endpoint of a connection. *)
Lemma rebuild_incl E : incl (rebuildProcessingOrder E) (all_nodes E).
Proof.
  unfold rebuildProcessingOrder, kahn.
  assert (Hcov : forall c, In c E -> In (sourceId c) (all_nodes E) /\ In (destId c) (all_nodes E)).
  { intros c Hc. split; apply all_nodes_In; exists c; auto. }
  destruct (kahn_loop_inv E (all_nodes E) Hcov (length (all_nodes E)) _ _ []
              (kahn_init E (all_nodes E) (NoDup_nodup _ _)) ltac:(cbn; lia))
    as (deg' & _ & _ & Hinc & _).
  rewrite app_nil_r in Hinc. exact Hinc.
Qed.

Lemma path_mono E E' u v : incl E E' -> path E u v -> path E' u v.
Proof.
  intros Hi H. induction H as [x y H|x y z _ IH1 _ IH2].
  - apply t_step. apply Hi. exact H.
  - eapply t_trans; eauto.
Qed.

Lemma hasCycle_false E : acyclic E -> hasCycle E = false.
Proof.
  intros Ha. destruct (hasCycle E) eqn:H; [|reflexivity].
  apply hasCycle_iff in H as (x & Hx). exfalso. exact (Ha x Hx).
Qed.

(** Acyclicity from a rank that every connection increases. *)
Lemma acyclic_of_rank E (rank : Z -> Z) :
  (forall u v, edge E u v -> rank u < rank v) -> acyclic E.
Proof.
  intros Hr x Hx.
  assert (H : forall u v, path E u v -> rank u < rank v).
  { intros u v Huv. induction Huv as [u v H|u v w _ IH1 _ IH2]; [auto | lia]. }
  specialize (H x x Hx). lia.
Qed.

(** Chains: the connections between consecutive elements of a list. *)
Lemma chain_in c u v : In (mkConn u v) (series_links c) -> In u c /\ In v c.
Proof.
  induction c as [|a r IH]; cbn; [tauto|].
  destruct r as [|b r']; [tauto|].
  intros [H|H].
  - injection H as <- <-. split; [left; reflexivity | right; left; reflexivity].
  - destruct (IH H). split; right; assumption.
Qed.

Lemma chain_tail_incl a r : incl (series_links r) (series_links (a :: r)).
Proof.
  destruct r as [|b r']; [intros x []|]. cbn [series_links]. intros x Hx. right. exact Hx.
Qed.

Lemma path_chain_in c u v : path (series_links c) u v -> In u c /\ In v c.
Proof.
  intros H. induction H as [x y H|x y z _ IH1 _ IH2]; [apply chain_in; exact H | tauto].
Qed.

Lemma chain_index c u v :
  NoDup c -> In (mkConn u v) (series_links c) ->
  exists i, index_of u c = Some i /\ index_of v c = Some (S i).
Proof.
  induction c as [|a r IH]; intros Hn H; [destruct H|].
  inversion Hn as [|? ? Ha Hr]; subst.
  destruct r as [|b r']; [destruct H|].
  cbn [series_links] in H. destruct H as [H|H].
  - injection H as <- <-. exists O. cbn. rewrite Z.eqb_refl.
    destruct (Z.eqb_spec a b) as [->|]; [exfalso; apply Ha; left; reflexivity|].
    rewrite Z.eqb_refl. split; reflexivity.
  - destruct (IH Hr H) as (i & Hu & Hv).
    destruct (chain_in (b :: r') u v H) as [Hu' Hv'].
    exists (S i). cbn [index_of].
    destruct (Z.eqb_spec a u) as [->|]; [contradiction|].
    destruct (Z.eqb_spec a v) as [->|]; [contradiction|].
    cbn [index_of] in Hu, Hv. rewrite Hu, Hv. split; reflexivity.
Qed.

Lemma chain_path_index c u v :
  NoDup c -> path (series_links c) u v ->
  exists i j, index_of u c = Some i /\ index_of v c = Some j /\ (i < j)%nat.
Proof.
  intros Hn H. induction H as [x y H|x y z _ IH1 _ IH2].
  - destruct (chain_index c x y Hn H) as (i & H1 & H2). exists i, (S i). auto.
  - destruct IH1 as (i & j & H1 & H2 & H3), IH2 as (j' & k & H4 & H5 & H6).
    rewrite H2 in H4. injection H4 as <-. exists i, k. split; [auto|]. split; [auto|]. lia.
Qed.

Lemma chain_acyclic c : NoDup c -> acyclic (series_links c).
Proof.
  intros Hn x Hx. destruct (chain_path_index c x x Hn Hx) as (i & j & H1 & H2 & H3).
  rewrite H1 in H2. injection H2 as <-. lia.
Qed.

Lemma chain_reach x y r z : In z (y :: r) -> path (series_links (x :: y :: r)) x z.
Proof.
  revert x y. induction r as [|w r IH]; intros x y [Hz|Hz].
  - subst. apply t_step. left. reflexivity.
  - destruct Hz.
  - subst. apply t_step. left. reflexivity.
  - eapply t_trans; [apply t_step; left; reflexivity|].
    apply (path_mono (series_links (y :: w :: r))); [apply chain_tail_incl|].
    apply IH. exact Hz.
Qed.

Lemma chain_covers x y r z :
  In z (x :: y :: r) -> exists c, In c (series_links (x :: y :: r)) /\ (z = sourceId c \/ z = destId c).
Proof.
  revert x y. induction r as [|w r IH]; intros x y Hz.
  - exists (mkConn x y). cbn in *. intuition.
  - destruct Hz as [->|Hz].
    + exists (mkConn z y). split; [left; reflexivity | left; reflexivity].
    + destruct (IH y w Hz) as (c & Hc & Hzc). exists c. split; [right; exact Hc | exact Hzc].
Qed.

(** A chain over distinct nodes has one topological order: itself. *)
Lemma chain_order c O :
  NoDup c -> NoDup O -> (forall z, In z O <-> In z c) ->
  (forall a b, path (series_links c) a b ->
     exists i j, index_of a O = Some i /\ index_of b O = Some j /\ (i < j)%nat) ->
  O = c.
Proof.
  revert O. induction c as [|x r IH]; intros O Hc HO Hin Hord.
  - destruct O as [|y O']; [reflexivity|]. exfalso. apply (Hin y). left. reflexivity.
  - inversion Hc as [|? ? Hx Hr]; subst.
    destruct O as [|y O']; [exfalso; apply (proj2 (Hin x)); left; reflexivity|].
    inversion HO as [|? ? Hy HO']; subst.
    assert (Hyx : y = x).
    { destruct (Z.eq_dec y x) as [|Hne]; [assumption|].
      assert (Hyr : In y r).
      { destruct (proj1 (Hin y) (or_introl eq_refl)) as [H|H]; [congruence | exact H]. }
      destruct r as [|w r']; [destruct Hyr|].
      destruct (Hord x y (chain_reach x w r' y Hyr)) as (i & j & H1 & H2 & H3).
      cbn in H2. rewrite Z.eqb_refl in H2. injection H2 as <-. lia. }
    subst y. f_equal. apply IH; [exact Hr | exact HO' | |].
    + intros z. split; intros Hz.
      * destruct (proj1 (Hin z) (or_intror Hz)) as [->|H]; [contradiction | exact H].
      * destruct (proj2 (Hin z) (or_intror Hz)) as [->|H]; [contradiction | exact H].
    + intros a b Hab.
      destruct (path_chain_in _ _ _ Hab) as [Ha Hb].
      destruct (Hord a b (path_mono _ _ _ _ (chain_tail_incl x r) Hab)) as (i & j & H1 & H2 & H3).
      cbn [index_of] in H1, H2.
      destruct (Z.eqb_spec x a) as [->|]; [contradiction|].
      destruct (Z.eqb_spec x b) as [->|]; [contradiction|].
      destruct (index_of a O') as [i'|], (index_of b O') as [j'|]; try discriminate.
      cbn in H1, H2. injection H1 as <-. injection H2 as <-.
      exists i', j'. split; [reflexivity|]. split; [reflexivity|]. lia.
Qed.

Lemma series_links_snoc a r z :
  series_links (a :: r ++ [z]) = series_links (a :: r) ++ [mkConn (last (a :: r) 0) z].
Proof.
  revert a. induction r as [|b r' IH]; intros a; [reflexivity|]. cbn [app].
  change (series_links (a :: b :: r' ++ [z])) with (mkConn a b :: series_links (b :: r' ++ [z])).
  change (series_links (a :: b :: r')) with (mkConn a b :: series_links (b :: r')).
  change (last (a :: b :: r') 0) with (last (b :: r') 0).
  rewrite IH. reflexivity.
Qed.

End RoutingExtraFacts.

Module RoutingExtras.
Import Routing RoutingQueries RoutingFacts RoutingExtraFacts.
Local Open Scope Z_scope.

(** Extra X1. On any routing graph reached from the constructor by a sequence
    of calls, if connect(s, d) succeeds then disconnect(s, d) succeeds and
    gives back exactly the graph from before the connect. *)
Theorem connect_disconnect_roundtrip ops s d g1 :
  connect (run ops create) s d = (g1, true) ->
  disconnect g1 s d = (run ops create, true).
Proof.
  intros H. pose proof (run_order_fresh ops create create_order_fresh) as Hf.
  revert H Hf. generalize (run ops create) as g. intros g H Hf.
  unfold connect in H.
  destruct (s =? d); [discriminate|].
  destruct (d =? Input); [discriminate|].
  destruct (s =? Output); [discriminate|].
  destruct (existsb _ (connections_ g)) eqn:He; [discriminate|].
  injection H as <-. unfold disconnect, with_connections. cbn [connections_].
  rewrite erase_first_snoc_absent.
  - destruct g as [E O B]. unfold order_fresh in Hf. cbn in *. rewrite Hf. reflexivity.
  - intros Hi. apply (existsb_pair s d) in Hi. congruence.
Qed.

Theorem connect_disconnect_roundtrip_witness :
  connect (run [] create) 1 2 = (fst (connect (run [] create) 1 2), true) /\
  disconnect (fst (connect (run [] create) 1 2)) 1 2 = (run [] create, true).
Proof.
  split; [reflexivity|]. apply connect_disconnect_roundtrip. reflexivity.
Defined.

(** Extra X2. disconnect(s, d) succeeds exactly when the connection s->d
    exists; on failure the graph is unchanged, on success only the first
    occurrence is removed, the bands are kept and the processing order is
    rebuilt from the remaining connections. *)
Theorem disconnect_spec g s d :
  let '(g', ok) := disconnect g s d in
  (ok = true <-> In (mkConn s d) (connections_ g)) /\
  (ok = false -> g' = g) /\
  (ok = true ->
     exists l1 l2, connections_ g = l1 ++ mkConn s d :: l2 /\ ~ In (mkConn s d) l1 /\
       connections_ g' = l1 ++ l2 /\
       processingOrder_ g' = rebuildProcessingOrder (l1 ++ l2) /\
       activeBands_ g' = activeBands_ g).
Proof.
  unfold disconnect. pose proof (erase_first_spec s d (connections_ g)) as H.
  destruct (erase_first s d (connections_ g)) as [E'|].
  - destruct H as (l1 & l2 & HE & Hn & ->).
    split; [split; [intros _; rewrite HE; apply in_or_app; right; left; reflexivity | auto]|].
    split; [discriminate|]. intros _. exists l1, l2. cbn. auto.
  - split; [split; [discriminate | intros Hi; contradiction]|]. split; [auto | discriminate].
Qed.

(** Extra X3. removeBand(b) succeeds exactly when b is in 1..12 and active; on
    success b leaves the active set, every connection from or to b is
    removed and the order is rebuilt, and on failure nothing changes. *)
Theorem removeBand_spec g b :
  let '(g', ok) := removeBand g b in
  (ok = true <-> 1 <= b <= 12 /\ In b (activeBands_ g)) /\
  (ok = false -> g' = g) /\
  (ok = true ->
     (forall x, In x (activeBands_ g') <-> In x (activeBands_ g) /\ x <> b) /\
     (forall c, In c (connections_ g') <->
                In c (connections_ g) /\ sourceId c <> b /\ destId c <> b) /\
     processingOrder_ g' = rebuildProcessingOrder (connections_ g')).
Proof.
  unfold removeBand.
  destruct ((b <? 1) || (12 <? b)) eqn:Hr.
  - apply orb_true_iff in Hr. rewrite !Z.ltb_lt in Hr.
    split; [split; [discriminate | lia]|]. split; [auto | discriminate].
  - apply orb_false_iff in Hr. rewrite !Z.ltb_ge in Hr.
    destruct (set_mem b (activeBands_ g)) eqn:Hm; cbn [negb].
    + apply set_mem_In in Hm.
      split; [split; [auto | auto]|]. split; [discriminate|]. intros _.
      unfold disconnectAll, with_connections. cbn [connections_ processingOrder_ activeBands_].
      split; [intros x; apply set_erase_In|]. split; [|reflexivity].
      intros c. rewrite filter_In, negb_true_iff, orb_false_iff, !Z.eqb_neq. tauto.
    + split; [split; [discriminate | intros [_ Hi]; apply set_mem_In in Hi; congruence]|].
      split; [auto | discriminate].
Qed.

(** Extra X4. addBand(b) succeeds exactly when b is in 1..12 and not yet
    active; on success the active set gains exactly b, getActiveBandCount
    grows by one, connections and order are untouched and a sorted
    duplicate-free band list stays so, and on failure nothing changes. *)
Theorem addBand_spec g b :
  let '(g', ok) := addBand g b in
  (ok = true <-> 1 <= b <= 12 /\ ~ In b (activeBands_ g)) /\
  (ok = false -> g' = g) /\
  (ok = true ->
     (forall x, In x (activeBands_ g') <-> x = b \/ In x (activeBands_ g)) /\
     getActiveBandCount g' = getActiveBandCount g + 1 /\
     connections_ g' = connections_ g /\ processingOrder_ g' = processingOrder_ g /\
     (bands_ok (activeBands_ g) -> bands_ok (activeBands_ g'))).
Proof.
  unfold addBand.
  destruct ((b <? 1) || (12 <? b)) eqn:Hr.
  - apply orb_true_iff in Hr. rewrite !Z.ltb_lt in Hr.
    split; [split; [discriminate | lia]|]. split; [auto | discriminate].
  - apply orb_false_iff in Hr. rewrite !Z.ltb_ge in Hr.
    destruct (set_mem b (activeBands_ g)) eqn:Hm.
    + apply set_mem_In in Hm.
      split; [split; [discriminate | tauto]|]. split; [auto | discriminate].
    + assert (Hn : ~ In b (activeBands_ g)) by (rewrite <- set_mem_In; congruence).
      split; [split; auto|]. split; [discriminate|]. intros _.
      unfold getActiveBandCount. cbn [connections_ processingOrder_ activeBands_].
      split; [intros x; apply set_insert_In|].
      split; [rewrite set_insert_length by exact Hn; lia|].
      split; [reflexivity|]. split; [reflexivity|].
      apply bands_ok_insert. lia.
Qed.

(** Extra X5. After a successful addBand(b), removeBand(b) succeeds, restores
    the active bands and keeps exactly the connections not touching b; if
    no connection touched b and the processing order was up to date, the
    original graph is restored. *)
Theorem addBand_removeBand g b g1 :
  addBand g b = (g1, true) ->
  exists g2, removeBand g1 b = (g2, true) /\
    activeBands_ g2 = activeBands_ g /\
    connections_ g2 =
      filter (fun c => negb ((sourceId c =? b) || (destId c =? b))) (connections_ g) /\
    ((forall c, In c (connections_ g) -> sourceId c <> b /\ destId c <> b) ->
     processingOrder_ g = rebuildProcessingOrder (connections_ g) -> g2 = g).
Proof.
  unfold addBand. intros H.
  destruct ((b <? 1) || (12 <? b)) eqn:Hr; [discriminate|].
  destruct (set_mem b (activeBands_ g)) eqn:Hm; [discriminate|].
  injection H as <-.
  assert (Hn : ~ In b (activeBands_ g)) by (rewrite <- set_mem_In; congruence).
  assert (Hb : activeBands_ g = set_erase b (set_insert b (activeBands_ g))).
  { unfold set_erase. rewrite filter_set_insert. symmetry. apply filter_all.
    intros x Hx. apply negb_true_iff, Z.eqb_neq. intros ->. contradiction. }
  unfold removeBand. rewrite Hr. cbn [connections_ processingOrder_ activeBands_].
  assert (Hm' : set_mem b (set_insert b (activeBands_ g)) = true)
    by (apply set_mem_In, set_insert_In; left; reflexivity).
  rewrite Hm'. cbn [negb].
  eexists. split; [reflexivity|]. unfold disconnectAll, with_connections.
  cbn [connections_ processingOrder_ activeBands_].
  split; [symmetry; exact Hb|]. split; [reflexivity|].
  intros Hc Hf. rewrite filter_all.
  - destruct g as [E O B]; cbn in *. rewrite <- Hf, <- Hb. reflexivity.
  - intros c Hi. destruct (Hc c Hi) as [H1 H2].
    apply negb_true_iff, orb_false_iff. rewrite !Z.eqb_neq. auto.
Qed.

Theorem addBand_removeBand_witness :
  addBand create 10 = (fst (addBand create 10), true) /\
  exists g2, removeBand (fst (addBand create 10)) 10 = (g2, true) /\
    activeBands_ g2 = activeBands_ create /\
    connections_ g2 =
      filter (fun c => negb ((sourceId c =? 10) || (destId c =? 10))) (connections_ create) /\
    ((forall c, In c (connections_ create) -> sourceId c <> 10 /\ destId c <> 10) ->
     processingOrder_ create = rebuildProcessingOrder (connections_ create) -> g2 = create).
Proof.
  split; [reflexivity|]. apply addBand_removeBand. reflexivity.
Defined.

(** Extra X6. setActiveBands keeps exactly those given ids that lie in 1..12,
    as a sorted duplicate-free list, and leaves the connections and the
    processing order untouched. *)
Theorem setActiveBands_spec g bs :
  bands_ok (activeBands_ (setActiveBands g bs)) /\
  (forall x, In x (activeBands_ (setActiveBands g bs)) <-> In x bs /\ 1 <= x <= 12) /\
  connections_ (setActiveBands g bs) = connections_ g /\
  processingOrder_ (setActiveBands g bs) = processingOrder_ g.
Proof.
  unfold setActiveBands. cbn [connections_ processingOrder_ activeBands_].
  split; [apply bands_ok_set; split; constructor|].
  split; [|auto]. intros x. rewrite fold_bands_In. cbn. tauto.
Qed.

End RoutingExtras.

Module RoutingExtras2.
Import Routing RoutingQueries RoutingFacts RoutingExtraFacts.
Local Open Scope Z_scope.

(** Extra X7. If the active bands form a sorted duplicate-free list in 1..12
    without the Output id, setDefaultParallelRouting yields an acyclic
    graph whose processing order has no duplicates. The order is empty
    when no band is active; otherwise it holds exactly Input, the bands
    and Output, with Input before every band and every band before Output. *)
Theorem parallel_routing_order g :
  bands_ok (activeBands_ g) -> ~ In Output (activeBands_ g) ->
  let g' := setDefaultParallelRouting g in
  let O := processingOrder_ g' in
  hasCycles g' = false /\ NoDup O /\
  (activeBands_ g = [] -> O = []) /\
  (activeBands_ g <> [] ->
     forall x, In x O <-> x = Input \/ In x (activeBands_ g) \/ x = Output) /\
  (forall b, In b (activeBands_ g) ->
     exists i j k, index_of Input O = Some i /\ index_of b O = Some j /\
                   index_of Output O = Some k /\ (i < j < k)%nat).
Proof.
  intros Hok HO. cbv zeta.
  unfold setDefaultParallelRouting, hasCycles, with_connections.
  cbn [connections_ processingOrder_].
  set (bs := activeBands_ g) in *.
  set (E := flat_map (fun b => [mkConn Input b; mkConn b Output]) bs).
  assert (HE : forall u v, edge E u v ->
            exists b, In b bs /\ ((u = Input /\ v = b) \/ (u = b /\ v = Output))).
  { intros u v H. unfold edge, E in H. apply in_flat_map in H as (b & Hb & H).
    exists b. split; [exact Hb|]. cbn in H.
    destruct H as [H|[H|[]]]; injection H; auto. }
  assert (Hrange : forall b, In b bs -> 1 <= b <= 12 /\ b <> Output).
  { intros b Hb. split; [exact (in_band_range bs b Hok Hb)|]. intros ->. contradiction. }
  assert (Hac : acyclic E).
  { apply (acyclic_of_rank E (fun x => if x =? Input then 0 else if x =? Output then 2 else 1)).
    intros u v H. destruct (HE u v H) as (b & Hb & [[-> ->]|[-> ->]]);
      destruct (Hrange b Hb) as [Hr Hn]; unfold Input, Output in *;
      destruct (Z.eqb_spec b 0); try lia; destruct (Z.eqb_spec b 9); try lia; cbn; lia. }
  destruct (rebuild_correct E Hac) as (Hnd & Hcov & Hord).
  split; [apply hasCycle_false; exact Hac|].
  split; [exact Hnd|].
  split; [intros Hb; unfold E; rewrite Hb; reflexivity|].
  split.
  - intros Hne x. split.
    + intros Hx. apply rebuild_incl, all_nodes_In in Hx as (c & Hc & Hxc).
      rewrite (conn_eta c) in Hc. destruct (HE _ _ Hc) as (b & Hb & [[H1 H2]|[H1 H2]]);
        destruct Hxc as [-> | ->]; rewrite ?H1, ?H2; tauto.
    + destruct bs as [|b0 r] eqn:Hbs; [congruence|].
      assert (Hin : In (mkConn Input b0) E /\ In (mkConn b0 Output) E).
      { unfold E. split; apply in_flat_map; exists b0; cbn; auto. }
      intros [->|[Hx| ->]].
      * exact (proj1 (Hcov _ (proj1 Hin))).
      * assert (Hc : In (mkConn Input x) E)
          by (unfold E; apply in_flat_map; exists x; cbn; auto).
        exact (proj2 (Hcov _ Hc)).
      * exact (proj2 (Hcov _ (proj2 Hin))).
  - intros b Hb.
    assert (H1 : path E Input b)
      by (apply t_step; unfold edge, E; apply in_flat_map; exists b; cbn; auto).
    assert (H2 : path E b Output)
      by (apply t_step; unfold edge, E; apply in_flat_map; exists b; cbn; auto).
    destruct (Hord _ _ H1) as (i & j & Hi & Hj & Hij).
    destruct (Hord _ _ H2) as (j' & k & Hj' & Hk & Hjk).
    rewrite Hj in Hj'. injection Hj' as <-.
    exists i, j, k. auto.
Qed.

Theorem parallel_routing_order_witness :
  (bands_ok (activeBands_ create) /\ ~ In Output (activeBands_ create)) /\
  let g' := setDefaultParallelRouting create in
  let O := processingOrder_ g' in
  hasCycles g' = false /\ NoDup O /\
  (activeBands_ create = [] -> O = []) /\
  (activeBands_ create <> [] ->
     forall x, In x O <-> x = Input \/ In x (activeBands_ create) \/ x = Output) /\
  (forall b, In b (activeBands_ create) ->
     exists i j k, index_of Input O = Some i /\ index_of b O = Some j /\
                   index_of Output O = Some k /\ (i < j < k)%nat).
Proof.
  assert (H : bands_ok (activeBands_ create) /\ ~ In Output (activeBands_ create)).
  { split; [exact (proj2 create_wf)|]. intros Hi. apply set_mem_In in Hi. vm_compute in Hi. discriminate Hi. }
  split; [exact H|]. apply parallel_routing_order; apply H.
Defined.

(** Extra X8. Under the same conditions, setSeriesRouting yields an acyclic
    graph whose processing order is Input, then the active bands in
    ascending order, then Output (and empty when no band is active). *)
Theorem series_routing_order g :
  bands_ok (activeBands_ g) -> ~ In Output (activeBands_ g) ->
  hasCycles (setSeriesRouting g) = false /\
  processingOrder_ (setSeriesRouting g) =
    match activeBands_ g with
    | [] => []
    | _ => Input :: activeBands_ g ++ [Output]
    end.
Proof.
  intros Hok HO. unfold setSeriesRouting, hasCycles.
  destruct (activeBands_ g) as [|f rest] eqn:Hbs; [split; reflexivity|].
  unfold with_connections. cbn [connections_ processingOrder_].
  set (c := Input :: (f :: rest) ++ [Output]).
  assert (HE : [mkConn Input f] ++ series_links (f :: rest) ++ [mkConn (last (f :: rest) 0) Output]
               = series_links c).
  { unfold c. change (series_links (Input :: (f :: rest) ++ [Output])) with (mkConn Input f :: series_links (f :: rest ++ [Output])). rewrite series_links_snoc. reflexivity. }
  rewrite HE.
  assert (Hnd : NoDup c).
  { destruct Hok as [Hs Hr]. unfold c.
    constructor.
    - intros Hi. apply in_app_or in Hi as [Hi|[Hi|[]]].
      + rewrite Forall_forall in Hr. specialize (Hr Input Hi). unfold Input in Hr. lia.
      + unfold Input, Output in Hi. discriminate.
    - apply NoDup_app; [exact (sorted_NoDup _ Hs) | repeat constructor; intros [] |].
      intros x Hx [<-|[]]. contradiction. }
  assert (Hac : acyclic (series_links c)) by (apply chain_acyclic; exact Hnd).
  split; [apply hasCycle_false; exact Hac|].
  destruct (rebuild_correct _ Hac) as (HnO & Hcov & Hord).
  apply chain_order; [exact Hnd | exact HnO | | exact Hord].
  intros z. split.
  - intros Hz. apply rebuild_incl, all_nodes_In in Hz as (e & He & Hze).
    rewrite (conn_eta e) in He. destruct (chain_in _ _ _ He). destruct Hze as [-> | ->]; assumption.
  - intros Hz. unfold c in Hz. cbn [app] in Hz.
    destruct (chain_covers _ _ _ _ Hz) as (e & He & [-> | ->]).
    + exact (proj1 (Hcov e He)).
    + exact (proj2 (Hcov e He)).
Qed.

Theorem series_routing_order_witness :
  (bands_ok (activeBands_ create) /\ ~ In Output (activeBands_ create)) /\
  hasCycles (setSeriesRouting create) = false /\
  processingOrder_ (setSeriesRouting create) =
    match activeBands_ create with
    | [] => []
    | _ => Input :: activeBands_ create ++ [Output]
    end.
Proof.
  assert (H : bands_ok (activeBands_ create) /\ ~ In Output (activeBands_ create)).
  { split; [exact (proj2 create_wf)|]. intros Hi. apply set_mem_In in Hi. vm_compute in Hi. discriminate Hi. }
  split; [exact H|]. apply series_routing_order; apply H.
Defined.

End RoutingExtras2.

Module RoutingUndoFacts.
Import Routing RoutingFacts RoutingUndo.

Lemma trim_spec f h :
  (length h <= f + kMaxHistorySize)%nat ->
  exists k, trim_front f h = skipn k h /\ (length (skipn k h) <= kMaxHistorySize)%nat /\
            (h <> [] -> (k < length h)%nat).
Proof.
  unfold kMaxHistorySize. revert h. induction f as [|f IH]; intros h Hl; cbn [trim_front];
    unfold kMaxHistorySize.
  - exists O. cbn. split; [reflexivity|]. split; [lia|].
    intros Hn. destruct h; [congruence | cbn; lia].
  - destruct (Nat.ltb_spec 32 (length h)) as [Hlt|Hge].
    + destruct h as [|x r]; [cbn in Hlt; lia|]. cbn [tl].
      destruct (IH r ltac:(cbn in Hl; lia)) as (k & H1 & H2 & H3).
      exists (S k). cbn [skipn]. split; [exact H1|]. split; [exact H2|].
      intros _. cbn [length]. destruct r as [|y r']; [cbn in Hlt; lia|].
      specialize (H3 ltac:(discriminate)). lia.
    + exists O. cbn. split; [reflexivity|]. split; [lia|].
      intros Hn. destruct h; [congruence | cbn; lia].
Qed.

(** The shape of the history after [saveState]. *)
Lemma save_shape m g :
  exists k, history_ (saveState m g) =
              skipn k (firstn (currentIndex_ m) (history_ m)) ++ [connections_ g] /\
            currentIndex_ (saveState m g) = length (history_ (saveState m g)) /\
            (1 <= length (history_ (saveState m g)) <= kMaxHistorySize)%nat.
Proof.
  unfold saveState. cbn [history_ currentIndex_].
  set (h0 := if Nat.ltb (currentIndex_ m) (length (history_ m))
             then firstn (currentIndex_ m) (history_ m) else history_ m).
  assert (Hh0 : h0 = firstn (currentIndex_ m) (history_ m)).
  { unfold h0. destruct (Nat.ltb_spec (currentIndex_ m) (length (history_ m))); [reflexivity|].
    symmetry. apply firstn_all2. lia. }
  destruct (trim_spec (length (h0 ++ [connections_ g])) (h0 ++ [connections_ g]) ltac:(lia))
    as (k & Ht & Hlen & Hk).
  specialize (Hk ltac:(destruct h0; discriminate)).
  rewrite length_app in Hk. cbn in Hk.
  exists k. rewrite Ht. rewrite skipn_app.
  replace (k - length h0)%nat with O by lia. cbn [skipn].
  rewrite <- Hh0. split; [reflexivity|]. split; [reflexivity|].
  rewrite skipn_app in Hlen. replace (k - length h0)%nat with O in Hlen by lia.
  split; [rewrite length_app; cbn; lia | exact Hlen].
Qed.

Lemma connect_cases g s d :
  (snd (connect g s d) = false /\ fst (connect g s d) = g /\
   (~ conn_ok (mkConn s d) \/ In (mkConn s d) (connections_ g))) \/
  (snd (connect g s d) = true /\
   fst (connect g s d) = with_connections g (connections_ g ++ [mkConn s d]) /\
   conn_ok (mkConn s d) /\ ~ In (mkConn s d) (connections_ g)).
Proof.
  unfold connect.
  destruct (Z.eqb_spec s d).
  { left. split; [reflexivity|]. split; [reflexivity|]. left. intros (H & _). contradiction. }
  destruct (Z.eqb_spec d Input).
  { left. split; [reflexivity|]. split; [reflexivity|]. left. intros (_ & H & _). contradiction. }
  destruct (Z.eqb_spec s Output).
  { left. split; [reflexivity|]. split; [reflexivity|]. left. intros (_ & _ & H). contradiction. }
  destruct (existsb _ (connections_ g)) eqn:He.
  { left. split; [reflexivity|]. split; [reflexivity|]. right. apply existsb_pair. exact He. }
  right. split; [reflexivity|]. split; [reflexivity|].
  split; [unfold conn_ok; cbn; auto|].
  intros Hi. apply (existsb_pair s d) in Hi. congruence.
Qed.

(** [restoreState] connects the saved pairs one after the other. *)
Lemma restore_fold st g0 :
  valid_connections (connections_ g0) ->
  let g1 := fold_left (fun g c => fst (connect g (sourceId c) (destId c))) st g0 in
  valid_connections (connections_ g1) /\
  incl (connections_ g1) (connections_ g0 ++ st) /\
  activeBands_ g1 = activeBands_ g0 /\
  (processingOrder_ g0 = rebuildProcessingOrder (connections_ g0) ->
   processingOrder_ g1 = rebuildProcessingOrder (connections_ g1)) /\
  (valid_connections (connections_ g0 ++ st) -> connections_ g1 = connections_ g0 ++ st).
Proof.
  revert g0. induction st as [|c st IH]; intros g0 Hv; cbn [fold_left].
  - rewrite app_nil_r. split; [exact Hv|]. split; [apply incl_refl|]. auto.
  - destruct (connect_cases g0 (sourceId c) (destId c)) as [(_ & Hg & Hbad)|(_ & Hg & Hok & Hn)];
      rewrite Hg; rewrite <- (conn_eta c) in *.
    + destruct (IH g0 Hv) as (H1 & H2 & H3 & H4 & H5).
      split; [exact H1|]. split; [intros x Hx; apply H2 in Hx; apply in_app_or in Hx as [Hx|Hx]; apply in_or_app; [left | right; right]; exact Hx|].
      split; [exact H3|]. split; [exact H4|].
      intros [Hf Hnd]. apply Forall_app in Hf as [_ Hf]. inversion Hf as [|? ? Hc].
      exfalso. destruct Hbad as [Hbad|Hbad]; [contradiction|].
      apply NoDup_remove_2 in Hnd. apply Hnd. apply in_or_app. left. exact Hbad.
    + set (g1 := with_connections g0 (connections_ g0 ++ [c])).
      assert (Hv1 : valid_connections (connections_ g1)) by (apply valid_snoc; assumption).
      destruct (IH g1 Hv1) as (H1 & H2 & H3 & H4 & H5).
      unfold g1, with_connections in H2, H3, H4, H5 |- *. cbn [connections_ activeBands_ processingOrder_] in *.
      rewrite <- app_assoc in H2, H5. cbn [app] in H2, H5.
      split; [exact H1|]. split; [exact H2|]. split; [exact H3|].
      split; [intros _; apply H4; reflexivity|].
      intros Hv'. apply H5. exact Hv'.
Qed.
Lemma restore_spec g st :
  let g' := restoreState g st in
  valid_connections (connections_ g') /\ incl (connections_ g') st /\
  activeBands_ g' = activeBands_ g /\
  processingOrder_ g' = rebuildProcessingOrder (connections_ g') /\
  (valid_connections st -> connections_ g' = st).
Proof.
  unfold restoreState.
  assert (Hv0 : valid_connections (connections_ (clearAllConnections g)))
    by (split; constructor).
  destruct (restore_fold st _ Hv0) as (H1 & H2 & H3 & H4 & H5).
  cbv zeta. split; [exact H1|]. split; [exact H2|]. split; [exact H3|].
  split; [apply H4; reflexivity|]. exact H5.
Qed.

Lemma size_t_sub_small a : (1 <= a <= 2 ^ 64)%Z -> size_t_sub a 1 = (a - 1)%Z.
Proof. intros H. unfold size_t_sub. apply Z.mod_small. lia. Qed.

Lemma size_t_sub_le a : (1 <= a)%Z -> (size_t_sub a 1 <= a - 1)%Z.
Proof. intros H. unfold size_t_sub. apply Z.mod_le; lia. Qed.

End RoutingUndoFacts.

Module RoutingUndoExtras.
Import Routing RoutingFacts RoutingUndo RoutingUndoFacts.

(** Extra X9. With an empty history (freshly built or after clear), canRedo
    returns true because history_.size() - 1 wraps around in size_t, and
    redo then reads history_[1] past the end of the empty history
    (modelled as None). *)
Theorem redo_on_empty_history m g :
  canRedo init = true /\ redo init g = None /\
  canRedo (clear m) = true /\ redo (clear m) g = None.
Proof. vm_compute. auto. Qed.

(** Extra X10. After saveState, canUndo is true and canRedo is false, the
    index equals the history size, the history holds between 1 and 32
    states, and it consists of a suffix of the states before the old index
    followed by the current connections. *)
Theorem saveState_spec m g :
  let m' := saveState m g in
  canUndo m' = true /\ canRedo m' = false /\
  currentIndex_ m' = length (history_ m') /\
  (1 <= length (history_ m') <= kMaxHistorySize)%nat /\
  exists k, history_ m' = skipn k (firstn (currentIndex_ m) (history_ m)) ++ [connections_ g].
Proof.
  destruct (save_shape m g) as (k & Hh & Hi & Hl). cbv zeta.
  unfold canUndo, canRedo, kMaxHistorySize in *. rewrite Hi.
  split; [apply Nat.ltb_lt; lia|].
  split; [rewrite size_t_sub_small by lia; apply Z.ltb_ge; lia|].
  split; [reflexivity|]. split; [exact Hl|]. exists k. exact Hh.
Qed.

(** Extra X11. While the index is at most the history size, undo never reads
    outside the history and keeps that bound; redo does the same whenever
    the history is non-empty. *)
Theorem undo_redo_in_bounds m g :
  (currentIndex_ m <= length (history_ m))%nat ->
  (exists m' g' b, undo m g = Some (m', g', b) /\
                   (currentIndex_ m' <= length (history_ m'))%nat) /\
  (history_ m <> [] ->
   exists m' g' b, redo m g = Some (m', g', b) /\
                   (currentIndex_ m' <= length (history_ m'))%nat).
Proof.
  intros Hle. split.
  - unfold undo, canUndo.
    destruct (Nat.ltb_spec 0 (currentIndex_ m)) as [Hpos|Hz]; cbn [negb].
    2: { exists m, g, false. split; [reflexivity | exact Hle]. }
    set (h := if Nat.eqb (currentIndex_ m) (length (history_ m))
              then history_ m ++ [connections_ g] else history_ m).
    assert (Hlt : (pred (currentIndex_ m) < length h)%nat).
    { unfold h. destruct (Nat.eqb_spec (currentIndex_ m) (length (history_ m)));
        [rewrite length_app; cbn|]; lia. }
    destruct (nth_error h (pred (currentIndex_ m))) as [st|] eqn:Hn.
    + exists (mk h (pred (currentIndex_ m))), (restoreState g st), true.
      split; [reflexivity|]. cbn. lia.
    + apply nth_error_None in Hn. lia.
  - intros Hne. unfold redo, canRedo.
    destruct (Z.ltb_spec (Z.of_nat (currentIndex_ m))
                (size_t_sub (Z.of_nat (length (history_ m))) 1)) as [Hlt|Hge]; cbn [negb].
    2: { exists m, g, false. split; [reflexivity | exact Hle]. }
    assert (Hl : (1 <= length (history_ m))%nat) by (destruct (history_ m); [congruence | cbn; lia]).
    pose proof (size_t_sub_le (Z.of_nat (length (history_ m))) ltac:(lia)) as Hs.
    destruct (nth_error (history_ m) (S (currentIndex_ m))) as [st|] eqn:Hn.
    + exists (mk (history_ m) (S (currentIndex_ m))), (restoreState g st), true.
      split; [reflexivity|]. cbn. lia.
    + apply nth_error_None in Hn. lia.
Qed.

(** A history of three snapshots with the index in the middle: both undo
    and redo take their reading branch. *)
Theorem undo_redo_in_bounds_witness :
  ((currentIndex_ (mk [[]; []; []] 1) <= length (history_ (mk [[]; []; []] 1)))%nat /\
   history_ (mk [[]; []; []] 1) <> [] /\
   canUndo (mk [[]; []; []] 1) = true /\ canRedo (mk [[]; []; []] 1) = true) /\
  (exists m' g' b, undo (mk [[]; []; []] 1) create = Some (m', g', b) /\
                   (currentIndex_ m' <= length (history_ m'))%nat) /\
  (history_ (mk [[]; []; []] 1) <> [] ->
   exists m' g' b, redo (mk [[]; []; []] 1) create = Some (m', g', b) /\
                   (currentIndex_ m' <= length (history_ m'))%nat).
Proof.
  assert (H : (currentIndex_ (mk [[]; []; []] 1) <= length (history_ (mk [[]; []; []] 1)))%nat)
    by (cbn; lia).
  split; [split; [exact H|]; split; [discriminate|]; split; reflexivity|].
  exact (undo_redo_in_bounds (mk [[]; []; []] 1) create H).
Defined.

(** Extra X12. For valid connection lists, saveState(g) followed by undo on a
    graph g' restores the connections of g (keeping the bands of g' and
    rebuilding the order); a redo then restores the connections of g',
    after which canRedo is false. *)
Theorem save_undo_redo m g g' :
  valid_connections (connections_ g) -> valid_connections (connections_ g') ->
  exists m2 g2 m3 g3,
    undo (saveState m g) g' = Some (m2, g2, true) /\
    connections_ g2 = connections_ g /\ activeBands_ g2 = activeBands_ g' /\
    processingOrder_ g2 = rebuildProcessingOrder (connections_ g) /\
    redo m2 g2 = Some (m3, g3, true) /\
    connections_ g3 = connections_ g' /\ activeBands_ g3 = activeBands_ g' /\
    processingOrder_ g3 = rebuildProcessingOrder (connections_ g') /\
    canRedo m3 = false.
Proof.
  intros Hv Hv'.
  destruct (save_shape m g) as (k & Hh & Hi & Hl).
  set (H0 := skipn k (firstn (currentIndex_ m) (history_ m))) in Hh.
  set (m1 := saveState m g) in *.
  assert (Hl0 : (length H0 <= 31)%nat).
  { rewrite Hh, length_app in Hl. unfold kMaxHistorySize in Hl. cbn in Hl. lia. }
  set (h2 := history_ m1 ++ [connections_ g']).
  assert (Hu : undo m1 g' =
               Some (mk h2 (length H0), restoreState g' (connections_ g), true)).
  { unfold undo, canUndo. rewrite Hi.
    assert (Hlen1 : length (history_ m1) = S (length H0))
      by (rewrite Hh, length_app; cbn; lia).
    rewrite Hlen1, Nat.eqb_refl. cbn [Nat.ltb Nat.leb negb pred]. fold h2.
    assert (Hn : nth_error h2 (length H0) = Some (connections_ g)).
    { unfold h2. rewrite Hh, <- app_assoc, nth_error_app2 by lia.
      rewrite Nat.sub_diag. reflexivity. }
    rewrite Hn. reflexivity. }
  set (g2 := restoreState g' (connections_ g)).
  destruct (restore_spec g' (connections_ g)) as (_ & _ & Hb2 & Ho2 & Hc2).
  fold g2 in Hb2, Ho2, Hc2. specialize (Hc2 Hv).
  assert (Hr : redo (mk h2 (length H0)) g2 =
               Some (mk h2 (S (length H0)), restoreState g2 (connections_ g'), true)).
  { unfold redo, canRedo. cbn [history_ currentIndex_].
    assert (Hlen : length h2 = (length H0 + 2)%nat)
      by (unfold h2; rewrite Hh, !length_app; cbn; lia).
    rewrite Hlen, size_t_sub_small by lia.
    replace (Z.of_nat (length H0) <? Z.of_nat (length H0 + 2) - 1)%Z with true
      by (symmetry; apply Z.ltb_lt; lia).
    cbn [negb]. unfold h2. rewrite Hh, <- app_assoc, nth_error_app2 by lia.
    replace (S (length H0) - length H0)%nat with 1%nat by lia. reflexivity. }
  set (g3 := restoreState g2 (connections_ g')).
  destruct (restore_spec g2 (connections_ g')) as (_ & _ & Hb3 & Ho3 & Hc3).
  fold g3 in Hb3, Ho3, Hc3. specialize (Hc3 Hv').
  exists (mk h2 (length H0)), g2, (mk h2 (S (length H0))), g3.
  split; [exact Hu|]. split; [exact Hc2|]. split; [exact Hb2|].
  split; [rewrite Ho2, Hc2; reflexivity|].
  split; [exact Hr|]. split; [exact Hc3|]. split; [rewrite Hb3; exact Hb2|].
  split; [rewrite Ho3, Hc3; reflexivity|].
  unfold canRedo. cbn [history_ currentIndex_].
  assert (Hlen : length h2 = (length H0 + 2)%nat)
    by (unfold h2; rewrite Hh, !length_app; cbn; lia).
  rewrite Hlen, size_t_sub_small by lia. apply Z.ltb_ge. lia.
Qed.

Theorem save_undo_redo_witness :
  (valid_connections (connections_ create) /\ valid_connections (connections_ create)) /\
  exists m2 g2 m3 g3,
    undo (saveState init create) create = Some (m2, g2, true) /\
    connections_ g2 = connections_ create /\ activeBands_ g2 = activeBands_ create /\
    processingOrder_ g2 = rebuildProcessingOrder (connections_ create) /\
    redo m2 g2 = Some (m3, g3, true) /\
    connections_ g3 = connections_ create /\ activeBands_ g3 = activeBands_ create /\
    processingOrder_ g3 = rebuildProcessingOrder (connections_ create) /\
    canRedo m3 = false.
Proof.
  split; [split; exact (proj1 create_wf)|].
  apply save_undo_redo; exact (proj1 create_wf).
Defined.

(** Extra X13. restoreState leaves a valid connection list made only of
    connections from the saved state, keeps the active bands and rebuilds
    the order; when the saved state is itself valid it is reproduced
    exactly. *)
Theorem restoreState_spec g st :
  let g' := restoreState g st in
  valid_connections (connections_ g') /\ incl (connections_ g') st /\
  activeBands_ g' = activeBands_ g /\
  processingOrder_ g' = rebuildProcessingOrder (connections_ g') /\
  (valid_connections st -> connections_ g' = st).
Proof. exact (restore_spec g st). Qed.

End RoutingUndoExtras.

Module LimiterExtraFacts.
Import Limiter LimiterFacts.

Lemma SFcompare_swap x y : SFcompare y x = option_map CompOpp (SFcompare x y).
Proof.
  destruct x as [sx|sx| |sx mx ex], y as [sy|sy| |sy my ey]; simpl; auto;
  try (destruct sx); try (destruct sy); simpl; auto;
  rewrite (Z.compare_antisym ex ey);
  change (PosDef.Pos.compare_cont Eq my mx) with (Pos.compare my mx);
  change (PosDef.Pos.compare_cont Eq mx my) with (Pos.compare mx my);
  rewrite (Pos.compare_antisym mx my);
  destruct (Z.compare ex ey), (Pos.compare mx my); reflexivity.
Qed.

Lemma SFcompare_some x y :
  x <> S754_nan -> y <> S754_nan -> exists c, SFcompare x y = Some c.
Proof.
  intros Hx Hy.
  destruct x as [sx|sx| |sx mx ex], y as [sy|sy| |sy my ey]; try congruence;
    cbn; eexists; reflexivity.
Qed.

(** The final [std::clamp(v, -1.0f, 1.0f)]: NaN or a value in [-1, 1]. *)
Lemma clamp_unit x :
  let y := F.clamp x (F.opp F.one) F.one in
  y = S754_nan \/ SFleb (F.opp F.one) y && SFleb y F.one = true.
Proof.
  cbv zeta. unfold F.clamp, F.lt.
  destruct (SFltb x (F.opp F.one)) eqn:H1; [right; vm_compute; reflexivity|].
  destruct (SFltb F.one x) eqn:H2; [right; vm_compute; reflexivity|].
  destruct (SFcompare x (F.opp F.one)) as [c1|] eqn:E1.
  2: { left. destruct x as [s|s| |s m e]; [| |reflexivity|]; destruct s; discriminate E1. }
  destruct (SFcompare F.one x) as [c2|] eqn:E2.
  2: { left. destruct x as [s|s| |s m e]; [| |reflexivity|]; destruct s; discriminate E2. }
  right. unfold SFltb, SFleb in *.
  rewrite (SFcompare_swap x (F.opp F.one)), (SFcompare_swap F.one x), E1, E2.
  rewrite E1 in H1. rewrite E2 in H2.
  destruct c1, c2; try discriminate; reflexivity.
Qed.

Lemma sample_clamped s l r :
  exists x y, snd (process_sample s l r) =
              (F.clamp x (F.opp F.one) F.one, F.clamp y (F.opp F.one) F.one).
Proof.
  unfold process_sample. destruct (permanentlyMuted_ s).
  - exists F.zero, F.zero. vm_compute. reflexivity.
  - repeat match goal with
           | |- context [match ?e with pair _ _ => _ end] => destruct e
           end.
    cbn [snd]. eexists. eexists. reflexivity.
Qed.

Lemma sample_unit s l r :
  unit_or_nan (fst (snd (process_sample s l r))) /\
  unit_or_nan (snd (snd (process_sample s l r))).
Proof.
  destruct (sample_clamped s l r) as (x & y & ->). cbn [fst snd].
  split; apply clamp_unit.
Qed.

Lemma sample_nonfinite_mutes s l r :
  permanentlyMuted_ s = false ->
  F.isfinite l = false \/ F.isfinite r = false ->
  permanentlyMuted_ (fst (process_sample s l r)) = true /\
  (muteReason_ (fst (process_sample s l r)) = NaNInf \/
   muteReason_ (fst (process_sample s l r)) = DCOffset).
Proof.
  intros Hm Hnf. unfold process_sample. rewrite Hm.
  cbv beta zeta iota.
  destruct (F.gt _ (dangerPeakThreshold_ s)); [destruct (_ <=? _)%Z|];
  cbv beta zeta iota;
  destruct (F.isfinite l) eqn:Hl, (F.isfinite r) eqn:Hr;
  try (destruct Hnf; discriminate);
  cbv beta zeta iota;
  (destruct (F.gt _ (dcOffsetThreshold_ s)); [destruct (_ <=? _)%Z|]);
  cbv beta zeta iota;
  (destruct (F.gt _ (sustainedThreshold_ s))); cbv beta zeta iota;
  cbn [fst permanentlyMuted_ muteReason_]; auto.
Qed.

End LimiterExtraFacts.

Module LimiterExtras.
Import Limiter LimiterFacts LimiterExtraFacts.

(** Extra X14. Every output sample written by SafetyLimiter::process, in both
    channels, is either NaN or lies in [-1, 1]. *)
Theorem process_output_unit_or_nan s blk :
  Forall (fun o => unit_or_nan (fst o) /\ unit_or_nan (snd o)) (snd (process s blk)).
Proof.
  revert s. induction blk as [|[l r] blk IH]; intros s; cbn [process]; [constructor|].
  pose proof (sample_unit s l r) as Hs.
  destruct (process_sample s l r) as [s1 o].
  specialize (IH s1). destruct (process s1 blk) as [s2 os]. cbn [snd] in *.
  constructor; [exact Hs | exact IH].
Qed.

(** Extra X15. A non-finite input sample in a block latches the permanent
    mute: afterwards the limiter is muted and every later output of the
    block is silence, and if it was not muted before that sample, the
    recorded reason is NaN/Inf or DC offset. *)
Theorem nonfinite_input_latches s pre l r post :
  F.isfinite l = false \/ F.isfinite r = false ->
  let '(s', out) := process s (pre ++ (l, r) :: post) in
  permanentlyMuted_ s' = true /\
  skipn (S (length pre)) out = repeat (F.zero, F.zero) (length post) /\
  (permanentlyMuted_ (fst (process s pre)) = false ->
   muteReason_ s' = NaNInf \/ muteReason_ s' = DCOffset).
Proof.
  intros Hnf. rewrite process_app.
  pose proof (process_length s pre) as Hlen.
  destruct (process s pre) as [s1 o1]. cbn [fst snd] in *.
  cbn [process].
  destruct (permanentlyMuted_ s1) eqn:Hm1.
  - unfold process_sample at 1. rewrite Hm1.
    rewrite (process_muted s1 post Hm1).
    split; [exact Hm1|]. split; [|discriminate].
    rewrite skipn_app, Hlen, skipn_all2 by lia.
    replace (S (length pre) - length pre)%nat with 1%nat by lia. reflexivity.
  - destruct (sample_nonfinite_mutes s1 l r Hm1 Hnf) as [Hm2 Hr2].
    destruct (process_sample s1 l r) as [s2 o]. cbn [fst] in *.
    rewrite (process_muted s2 post Hm2).
    split; [exact Hm2|]. split; [|intros _; exact Hr2].
    rewrite skipn_app, Hlen, skipn_all2 by lia.
    replace (S (length pre) - length pre)%nat with 1%nat by lia. reflexivity.
Qed.

Theorem nonfinite_input_latches_witness :
  (F.isfinite S754_nan = false \/ F.isfinite F.zero = false) /\
  let '(s', out) := process default ([] ++ (S754_nan, F.zero) :: [(F.one, F.one)]) in
  permanentlyMuted_ s' = true /\
  skipn (S (length (@nil (spec_float * spec_float)))) out = repeat (F.zero, F.zero) (length [(F.one, F.one)]) /\
  (permanentlyMuted_ (fst (process default [])) = false ->
   muteReason_ s' = NaNInf \/ muteReason_ s' = DCOffset).
Proof.
  split; [left; reflexivity|].
  apply (nonfinite_input_latches default [] S754_nan F.zero [(F.one, F.one)]).
  left; reflexivity.
Defined.

End LimiterExtras.

Module ModulationEngineFacts.
Import ModulationEngine.
Local Open Scope R_scope.

Lemma ticks_spec n rng i m :
  Modulator.inv m ->
  Forall (fun v => Rabs v <= Modulator.depth_ m) (fst (ticks n rng i m)) /\
  length (fst (ticks n rng i m)) = n /\
  Modulator.inv (snd (ticks n rng i m)) /\
  Modulator.depth_ (snd (ticks n rng i m)) = Modulator.depth_ m.
Proof.
  revert i m. induction n as [|n IH]; intros i m Hinv; cbn [ticks].
  - cbn. auto.
  - pose proof (ModulatorFacts.tick_spec (rng i) m Hinv) as [Hv Hs].
    assert (Hd : Modulator.depth_ (snd (Modulator.tick (rng i) m)) = Modulator.depth_ m).
    { unfold Modulator.tick. destruct (Modulator.type_ m); cbn; try reflexivity.
      destruct (Modulator.lorenz_iter _ _) as [[x y] z]. reflexivity. }
    destruct (Modulator.tick (rng i) m) as [v m1]. cbn [fst snd] in *.
    destruct (IH (S i) m1 Hs) as (H1 & H2 & H3 & H4).
    destruct (ticks n rng (S i) m1) as [vs m2]. cbn [fst snd length] in *.
    rewrite Hd in H1, H4.
    split; [constructor; assumption|]. auto.
Qed.

Lemma bands_ticks n rng k bands :
  Forall Modulator.inv bands ->
  let out := map (fun '(ch, m) => ticks n (rng ch) 0 m) (combine (seq k (length bands)) bands) in
  Forall2 (fun m vs => length vs = n /\
                       Forall (fun v => Rabs v <= Modulator.depth_ m <= 1) vs)
          bands (map fst out) /\
  Forall Modulator.inv (map snd out) /\ length out = length bands.
Proof.
  revert k. induction bands as [|m bs IH]; intros k Hf; cbn; [auto|].
  inversion Hf as [|? ? Hm Hbs]; subst.
  destruct (ticks_spec n (rng k) 0 m Hm) as (H1 & H2 & H3 & _).
  destruct (IH (S k) Hbs) as (I1 & I2 & I3).
  assert (Hd : Modulator.depth_ m <= 1) by (destruct Hm as (_ & _ & Hd & _); lra).
  split; [constructor; [split; [exact H2|] | exact I1]|].
  { eapply Forall_impl; [|exact H1]. intros v Hv. lra. }
  split; [constructor; assumption|]. rewrite I3. reflexivity.
Qed.

Lemma update_nth_length {A} i (f : A -> A) l : length (update_nth i f l) = length l.
Proof.
  revert i. induction l as [|x r IH]; intros [|i]; cbn; auto.
Qed.

Lemma update_nth_Forall {A} (P : A -> Prop) i f l :
  (forall x, P x -> P (f x)) -> Forall P l -> Forall P (update_nth i f l).
Proof.
  intros Hf. revert i. induction l as [|x r IH]; intros [|i] H; cbn; auto;
    inversion H; subst; constructor; auto.
Qed.

(** What [process] does on an engine satisfying [einv]. *)
Lemma engine_process_spec n rng e :
  einv e ->
  ((n <= 0)%Z -> process n rng e = Some (e, ([], []))) /\
  ((0 < n)%Z -> (bufferSize_ e < n)%Z -> process n rng e = None) /\
  ((0 < n)%Z -> (n <= bufferSize_ e)%Z ->
     exists e' mv bvs, process n rng e = Some (e', (mv, bvs)) /\
       length mv = Z.to_nat n /\
       Forall (fun v => Rabs v <= Modulator.depth_ (masterModulator_ e) <= 1) mv /\
       length bvs = 8%nat /\
       Forall2 (fun m vs => length vs = Z.to_nat n /\
                            Forall (fun v => Rabs v <= Modulator.depth_ m <= 1) vs)
               (bandModulators_ e) bvs /\
       einv e' /\ bufferSize_ e' = bufferSize_ e).
Proof.
  intros (Hl & Hb & Hm). unfold process.
  split; [intros Hn; apply Z.leb_le in Hn; rewrite Hn; reflexivity|].
  split.
  - intros Hn Hs. apply Z.leb_gt in Hn. apply Z.ltb_lt in Hs. rewrite Hn, Hs. reflexivity.
  - intros Hn Hs. apply Z.leb_gt in Hn. apply Z.ltb_ge in Hs. rewrite Hn, Hs.
    destruct (ticks_spec (Z.to_nat n) (rng 8%nat) 0 (masterModulator_ e) Hm) as (M1 & M2 & M3 & _).
    destruct (bands_ticks (Z.to_nat n) rng 0 (bandModulators_ e) Hb) as (B1 & B2 & B3).
    destruct (ticks _ _ _ _) as [mv master]. cbn [fst snd] in *.
    assert (Hd : Modulator.depth_ (masterModulator_ e) <= 1) by (destruct Hm as (_ & _ & Hd & _); lra).
    eexists _, mv, _. split; [reflexivity|].
    split; [exact M2|].
    split; [eapply Forall_impl; [|exact M1]; intros v Hv; lra|].
    split; [rewrite length_map, length_map, length_combine, length_seq, Nat.min_id; exact Hl|].
    split; [exact B1|].
    split; [|reflexivity].
    unfold einv. cbn [bandModulators_ masterModulator_].
    rewrite length_map, B3. auto.
Qed.

Lemma engine_step_inv e o e' :
  prepare_ok o -> einv e -> step e o = Some e' -> einv e'.
Proof.
  intros Ho Hinv. pose proof Hinv as (Hl & Hb & Hm).
  destruct o as [sr mbs| |i ty r d|ty r d|n rng]; cbn [step]; intros Hs.
  - injection Hs as <-. cbn in Ho. unfold prepare, einv. cbn [bandModulators_ masterModulator_].
    rewrite length_map. split; [exact Hl|]. split.
    + apply Forall_map. eapply Forall_impl; [|exact Hb]. intros m Hi.
      exact (ModulatorFacts.mod_step_inv m (Modulator.Prepare sr) Ho Hi).
    + exact (ModulatorFacts.mod_step_inv _ (Modulator.Prepare sr) Ho Hm).
  - injection Hs as <-. unfold reset, einv. cbn [bandModulators_ masterModulator_].
    rewrite length_map. split; [exact Hl|]. split.
    + apply Forall_map. eapply Forall_impl; [|exact Hb]. intros m Hi.
      exact (ModulatorFacts.mod_step_inv m Modulator.Reset I Hi).
    + exact (ModulatorFacts.mod_step_inv _ Modulator.Reset I Hm).
  - injection Hs as <-. unfold setBandParams. destruct (_ && _)%Z; [|exact Hinv].
    unfold einv. cbn [bandModulators_ masterModulator_].
    rewrite update_nth_length. split; [exact Hl|]. split; [|exact Hm].
    apply update_nth_Forall; [|exact Hb]. intros m Hi.
    exact (ModulatorFacts.mod_step_inv m (Modulator.SetParams ty r d) I Hi).
  - injection Hs as <-. unfold setMasterParams, einv. cbn [bandModulators_ masterModulator_].
    split; [exact Hl|]. split; [exact Hb|].
    exact (ModulatorFacts.mod_step_inv _ (Modulator.SetParams ty r d) I Hm).
  - destruct (engine_process_spec n rng e Hinv) as (P1 & P2 & P3).
    destruct (Z.le_gt_cases n 0) as [Hn|Hn].
    + rewrite (P1 Hn) in Hs. injection Hs as <-. exact Hinv.
    + destruct (Z.lt_ge_cases (bufferSize_ e) n) as [Hz|Hz].
      * rewrite (P2 Hn Hz) in Hs. discriminate Hs.
      * destruct (P3 Hn Hz) as (e1 & mv & bvs & Hp & _ & _ & _ & _ & Hi & _).
        rewrite Hp in Hs. injection Hs as <-. exact Hi.
Qed.

(** A call other than [prepare] keeps the buffer size. *)
Lemma step_bufferSize e o e' :
  (forall sr mbs, o <> Prepare sr mbs) -> einv e -> step e o = Some e' ->
  bufferSize_ e' = bufferSize_ e.
Proof.
  intros Ho Hinv. destruct o as [sr mbs| |i ty r d|ty r d|n rng]; cbn [step]; intros Hs.
  - exfalso. exact (Ho sr mbs eq_refl).
  - injection Hs as <-. reflexivity.
  - injection Hs as <-. unfold setBandParams. destruct (_ && _)%Z; reflexivity.
  - injection Hs as <-. reflexivity.
  - destruct (engine_process_spec n rng e Hinv) as (P1 & P2 & P3).
    destruct (Z.le_gt_cases n 0) as [Hn|Hn].
    + rewrite (P1 Hn) in Hs. injection Hs as <-. reflexivity.
    + destruct (Z.lt_ge_cases (bufferSize_ e) n) as [Hz|Hz].
      * rewrite (P2 Hn Hz) in Hs. discriminate Hs.
      * destruct (P3 Hn Hz) as (e1 & mv & bvs & Hp & _ & _ & _ & _ & _ & Hb).
        rewrite Hp in Hs. injection Hs as <-. exact Hb.
Qed.

Lemma engine_run_inv ops e e' :
  Forall prepare_ok ops -> einv e -> run ops e = Some e' ->
  einv e' /\ ((forall sr mbs, ~ In (Prepare sr mbs) ops) -> bufferSize_ e' = bufferSize_ e).
Proof.
  revert e. induction ops as [|o ops IH]; intros e Hok Hinv Hr; cbn [run] in Hr.
  - injection Hr as <-. auto.
  - inversion Hok; subst.
    destruct (step e o) as [e1|] eqn:Hs; [|discriminate Hr].
    pose proof (engine_step_inv e o e1 ltac:(assumption) Hinv Hs) as Hi1.
    destruct (IH e1 ltac:(assumption) Hi1 Hr) as [Hi Hbs].
    split; [exact Hi|]. intros Hn.
    rewrite Hbs by (intros sr mbs Hin; exact (Hn sr mbs (or_intror Hin))).
    apply (step_bufferSize e o e1); [|exact Hinv|exact Hs].
    intros sr mbs ->. exact (Hn sr mbs (or_introl eq_refl)).
Qed.

Lemma engine_init_inv : einv init.
Proof.
  unfold einv, init. cbn [bandModulators_ masterModulator_].
  split; [reflexivity|]. split; [|exact ModulatorFacts.mod_init_inv].
  apply Forall_forall. intros m Hm. apply repeat_spec in Hm. subst. exact ModulatorFacts.mod_init_inv.
Qed.

End ModulationEngineFacts.

Module ModulationEngineExtras.
Import ModulationEngine ModulationEngineFacts.
Local Open Scope R_scope.

(** Extra X16. For an engine built by calls whose sample rates are at least 20
    Hz and that have no undefined behaviour, the engine keeps 8 band
    modulators; its buffers hold 0 samples if no prepare(sampleRate,
    maxBlockSize) was called.  process(n) with n <= 0 does nothing; with
    n > 0 it writes past the buffers (undefined behaviour) when n exceeds
    their size, in particular before any prepare; otherwise it yields n
    master values and 8 band sequences of n values, each bounded in
    magnitude by its modulator's depth, which is at most 1, and keeps the
    buffer size. *)
Theorem engine_outputs_within_depth ops e n rng :
  Forall prepare_ok ops -> run ops init = Some e ->
  length (bandModulators_ e) = 8%nat /\
  ((forall sr mbs, ~ In (Prepare sr mbs) ops) -> bufferSize_ e = 0%Z) /\
  ((n <= 0)%Z -> process n rng e = Some (e, ([], []))) /\
  ((0 < n)%Z -> (bufferSize_ e < n)%Z -> process n rng e = None) /\
  ((0 < n)%Z -> (n <= bufferSize_ e)%Z ->
     exists e' mv bvs, process n rng e = Some (e', (mv, bvs)) /\
       length mv = Z.to_nat n /\
       Forall (fun v => Rabs v <= Modulator.depth_ (masterModulator_ e) <= 1) mv /\
       length bvs = 8%nat /\
       Forall2 (fun m vs => length vs = Z.to_nat n /\
                            Forall (fun v => Rabs v <= Modulator.depth_ m <= 1) vs)
               (bandModulators_ e) bvs /\
       length (bandModulators_ e') = 8%nat /\ bufferSize_ e' = bufferSize_ e).
Proof.
  intros Hok Hr.
  destruct (engine_run_inv ops init e Hok engine_init_inv Hr) as [Hinv Hbs].
  destruct (engine_process_spec n rng e Hinv) as (P1 & P2 & P3).
  split; [exact (proj1 Hinv)|]. split; [exact Hbs|].
  split; [exact P1|]. split; [exact P2|].
  intros Hn Hz. destruct (P3 Hn Hz) as (e' & mv & bvs & H1 & H2 & H3 & H4 & H5 & H6 & H7).
  exists e', mv, bvs. repeat (split; [assumption|]). split; [exact (proj1 H6) | exact H7].
Qed.

Theorem engine_outputs_within_depth_witness :
  (Forall prepare_ok [Prepare 44100 512] /\
   run [Prepare 44100 512] init = Some (prepare 44100 512 init)) /\
  let e := prepare 44100 512 init in
  length (bandModulators_ e) = 8%nat /\
  ((forall sr mbs, ~ In (Prepare sr mbs) [Prepare 44100 512]) -> bufferSize_ e = 0%Z) /\
  ((1 <= 0)%Z -> process 1 (fun _ _ => 0) e = Some (e, ([], []))) /\
  ((0 < 1)%Z -> (bufferSize_ e < 1)%Z -> process 1 (fun _ _ => 0) e = None) /\
  ((0 < 1)%Z -> (1 <= bufferSize_ e)%Z ->
     exists e' mv bvs, process 1 (fun _ _ => 0) e = Some (e', (mv, bvs)) /\
       length mv = Z.to_nat 1 /\
       Forall (fun v => Rabs v <= Modulator.depth_ (masterModulator_ e) <= 1) mv /\
       length bvs = 8%nat /\
       Forall2 (fun m vs => length vs = Z.to_nat 1 /\
                            Forall (fun v => Rabs v <= Modulator.depth_ m <= 1) vs)
               (bandModulators_ e) bvs /\
       length (bandModulators_ e') = 8%nat /\ bufferSize_ e' = bufferSize_ e).
Proof.
  assert (H : Forall prepare_ok [Prepare 44100 512] /\
              run [Prepare 44100 512] init = Some (prepare 44100 512 init)).
  { split; [constructor; [cbn; lra | constructor] | reflexivity]. }
  split; [exact H|].
  exact (engine_outputs_within_depth [Prepare 44100 512] (prepare 44100 512 init) 1
           (fun _ _ => 0) (proj1 H) (proj2 H)).
Defined.

End ModulationEngineExtras.

Module AttackEnvelopeExtraFacts.
Import AttackEnvelope AttackEnvelopeFacts.
Local Open Scope R_scope.

Lemma uc_idem x : updateCoefficients (updateCoefficients x) = updateCoefficients x.
Proof.
  destruct x as [sr am rm th ac rc env trig]. unfold updateCoefficients at 2. cbn.
  destruct (Rle_dec sr 0) as [Hs|Hs]; [unfold updateCoefficients; cbn; destruct (Rle_dec sr 0); [reflexivity|lra]|].
  unfold updateCoefficients. cbn. destruct (Rle_dec sr 0); [lra|]. reflexivity.
Qed.

(** Whether [updateCoefficients] leaves a state unchanged depends on its
    rate, times and coefficients only. *)
Lemma uc_frame sr am rm ac rc th env trig th' env' trig' :
  updateCoefficients (mk sr am rm th ac rc env trig) = mk sr am rm th ac rc env trig ->
  updateCoefficients (mk sr am rm th' ac rc env' trig') = mk sr am rm th' ac rc env' trig'.
Proof.
  unfold updateCoefficients. cbn. destruct (Rle_dec sr 0); [reflexivity|].
  intros H. injection H as Ha Hr. rewrite Ha, Hr. reflexivity.
Qed.

Lemma uc_fields x :
  sampleRate_ (updateCoefficients x) = sampleRate_ x /\
  attackTimeMs_ (updateCoefficients x) = attackTimeMs_ x /\
  threshold_ (updateCoefficients x) = threshold_ x /\
  envelope_ (updateCoefficients x) = envelope_ x /\
  triggered_ (updateCoefficients x) = triggered_ x.
Proof. unfold updateCoefficients. destruct (Rle_dec _ _); cbn; auto. Qed.

Lemma consistent_step e o :
  updateCoefficients e = e -> updateCoefficients (step e o) = step e o.
Proof.
  intros H. destruct e as [sr am rm th ac rc env trig].
  destruct o as [sr'| |a|r|db|l|l r wl wr]; cbn [step].
  - unfold prepare. apply uc_idem.
  - unfold reset. cbn. eapply uc_frame. exact H.
  - unfold setAttackTimeMs. destruct (Req_dec_T _ _); [exact H | apply uc_idem].
  - unfold setReleaseTimeMs. destruct (Req_dec_T _ _); [exact H | apply uc_idem].
  - unfold setThreshold. cbn. eapply uc_frame. exact H.
  - unfold process. cbn [threshold_ envelope_ attackCoeff_ releaseCoeff_ triggered_].
    destruct (Rlt_dec th l); [cbn; eapply uc_frame; exact H|].
    destruct trig; [|exact H].
    destruct (Rlt_dec _ _); cbn; eapply uc_frame; exact H.
  - unfold processBlock. cbn [threshold_ envelope_ attackCoeff_ releaseCoeff_ triggered_].
    unfold process. cbn [threshold_ envelope_ attackCoeff_ releaseCoeff_ triggered_].
    destruct (Rlt_dec th _); [cbn; eapply uc_frame; exact H|].
    destruct trig; [|exact H].
    destruct (Rlt_dec _ _); cbn; eapply uc_frame; exact H.
Qed.

Lemma consistent_run ops e :
  updateCoefficients e = e -> updateCoefficients (run ops e) = run ops e.
Proof.
  unfold run. revert e. induction ops as [|o ops IH]; intros e H; cbn [fold_left]; [exact H|].
  apply IH. apply consistent_step. exact H.
Qed.


Lemma quiet_step e o : quiet e -> quiet (step e o).
Proof.
  unfold quiet. intros Hq. destruct o as [sr'| |a|r|db|l|l r wl wr]; cbn [step].
  - unfold prepare. destruct (uc_fields (mk sr' (attackTimeMs_ e) (releaseTimeMs_ e)
      (threshold_ e) (attackCoeff_ e) (releaseCoeff_ e) (envelope_ e) (triggered_ e)))
      as (_ & _ & _ & H2 & H3).
    rewrite H2, H3. exact Hq.
  - cbn. reflexivity.
  - unfold setAttackTimeMs. destruct (Req_dec_T _ _); [exact Hq|].
    destruct (uc_fields (mk (sampleRate_ e) (clamp a 0 5000) (releaseTimeMs_ e) (threshold_ e)
      (attackCoeff_ e) (releaseCoeff_ e) (envelope_ e) (triggered_ e))) as (_ & _ & _ & H2 & H3).
    rewrite H2, H3. exact Hq.
  - unfold setReleaseTimeMs. destruct (Req_dec_T _ _); [exact Hq|].
    destruct (uc_fields (mk (sampleRate_ e) (attackTimeMs_ e) (clamp r 1 5000) (threshold_ e)
      (attackCoeff_ e) (releaseCoeff_ e) (envelope_ e) (triggered_ e))) as (_ & _ & _ & H2 & H3).
    rewrite H2, H3. exact Hq.
  - cbn. exact Hq.
  - unfold process. destruct (Rlt_dec _ _); [cbn; discriminate|].
    destruct (triggered_ e); [|cbn; intros _; apply Hq; reflexivity].
    destruct (Rlt_dec _ _); cbn; [reflexivity | discriminate].
  - unfold processBlock, process. destruct (Rlt_dec _ _); [cbn; discriminate|].
    destruct (triggered_ e); [|cbn; intros _; apply Hq; reflexivity].
    destruct (Rlt_dec _ _); cbn; [reflexivity | discriminate].
Qed.

Lemma quiet_run ops e : quiet e -> quiet (run ops e).
Proof.
  unfold run. revert e. induction ops as [|o ops IH]; intros e H; cbn [fold_left]; [exact H|].
  apply IH. apply quiet_step. exact H.
Qed.

Lemma quiet_init : quiet init.
Proof. intros _. reflexivity. Qed.

End AttackEnvelopeExtraFacts.

Module AttackEnvelopeExtras.
Import AttackEnvelope AttackEnvelopeFacts AttackEnvelopeExtraFacts.
Local Open Scope R_scope.

(** Extra X17. Once prepare has been called, every later sequence of calls
    leaves the attack and release coefficients equal to those
    updateCoefficients computes from the current times and sample rate;
    the default-constructed envelope is not in this state, as its release
    coefficient 0.01 differs from the one for 100 ms at 44.1 kHz. *)
Theorem coefficients_follow_times sr ops :
  updateCoefficients (run ops (prepare sr init)) = run ops (prepare sr init) /\
  updateCoefficients init <> init.
Proof.
  split; [apply consistent_run; unfold prepare; apply uc_idem|].
  unfold updateCoefficients, init. cbn. destruct (Rle_dec 44100 0); [lra|].
  intros H. injection H as _ Hr.
  pose proof (exp_ineq1_le ((-5) / (100 / 1000 * 44100))) as He.
  assert (Hv : (-5) / (100 / 1000 * 44100) = - (5 / 4410)) by field.
  rewrite Hv in He, Hr. lra.
Qed.

(** Extra X18. After prepare, with a positive sample rate and an attack time
    of 0, an input above the threshold takes the envelope to exactly 1 in
    one sample and sets it triggered. *)
Theorem instant_attack sr ops l :
  let e := run ops (prepare sr init) in
  0 < sampleRate_ e -> attackTimeMs_ e = 0 -> threshold_ e < l ->
  fst (process l e) = 1 /\ envelope_ (snd (process l e)) = 1 /\
  triggered_ (snd (process l e)) = true.
Proof.
  cbv zeta. intros Hsr Ham Hl.
  pose proof (consistent_run ops _ (uc_idem (mk sr (attackTimeMs_ init) (releaseTimeMs_ init)
      (threshold_ init) (attackCoeff_ init) (releaseCoeff_ init) (envelope_ init)
      (triggered_ init)))) as Hc.
  fold (prepare sr init) in Hc.
  set (e := run ops (prepare sr init)) in *.
  assert (Ha : attackCoeff_ e = 1).
  { rewrite <- Hc. unfold updateCoefficients. destruct (Rle_dec _ 0); [lra|].
    cbn. destruct (Rlt_dec 0 (attackTimeMs_ e)); [lra | reflexivity]. }
  unfold process. destruct (Rlt_dec (threshold_ e) l); [|lra].
  cbn. rewrite Ha. split; [ring|]. split; [ring | reflexivity].
Qed.

(** Extra X19. From construction on, the envelope is 0 whenever it is not
    triggered; processing an input level at or below the threshold in that
    state returns 0 and leaves the state unchanged. *)
Theorem untriggered_is_silent ops l :
  (triggered_ (run ops init) = false -> envelope_ (run ops init) = 0) /\
  (triggered_ (run ops init) = false -> l <= threshold_ (run ops init) ->
   fst (process l (run ops init)) = 0 /\ snd (process l (run ops init)) = run ops init).
Proof.
  pose proof (quiet_run ops init quiet_init) as Hq.
  split; [exact Hq|].
  intros Hf Hl. unfold process. destruct (Rlt_dec _ l); [lra|]. rewrite Hf.
  cbn. split; [exact (Hq Hf) | reflexivity].
Qed.

(** Extra X20. For an input at or below the threshold, the returned envelope
    never exceeds the previous one, it is either 0 or at least 0.001, it
    becomes the stored envelope, and it is 0 whenever the envelope ends
    untriggered. *)
Theorem release_never_rises ops l :
  let e := run ops init in
  l <= threshold_ e ->
  fst (process l e) <= envelope_ e /\
  (fst (process l e) = 0 \/ 1 / 1000 <= fst (process l e)) /\
  envelope_ (snd (process l e)) = fst (process l e) /\
  (triggered_ (snd (process l e)) = false -> fst (process l e) = 0).
Proof.
  cbv zeta. intros Hl.
  pose proof (quiet_run ops init quiet_init) as Hq.
  pose proof (env_run_inv ops init env_init_inv) as Hinv.
  set (e := run ops init) in *.
  destruct Hinv as (_ & _ & Hrc & Henv).
  unfold process. destruct (Rlt_dec (threshold_ e) l); [lra|].
  destruct (triggered_ e) eqn:Ht'.
  - destruct (Rlt_dec _ (1 / 1000)); cbn.
    + split; [lra|]. split; [left; reflexivity|]. auto.
    + split; [nra|]. split; [right; lra|]. split; [reflexivity | discriminate].
  - cbn. rewrite (Hq Ht'). split; [lra|]. split; [left; reflexivity|].
    split; [reflexivity | auto].
Qed.

Theorem instant_attack_witness :
  (0 < sampleRate_ (run [] (prepare 44100 init)) /\
   attackTimeMs_ (run [] (prepare 44100 init)) = 0 /\
   threshold_ (run [] (prepare 44100 init)) < 1) /\
  fst (process 1 (run [] (prepare 44100 init))) = 1 /\
  envelope_ (snd (process 1 (run [] (prepare 44100 init)))) = 1 /\
  triggered_ (snd (process 1 (run [] (prepare 44100 init)))) = true.
Proof.
  assert (H : 0 < sampleRate_ (run [] (prepare 44100 init)) /\
              attackTimeMs_ (run [] (prepare 44100 init)) = 0 /\
              threshold_ (run [] (prepare 44100 init)) < 1).
  { cbn [run fold_left]. unfold prepare, updateCoefficients, init.
    destruct (Rle_dec _ 0); cbn; lra. }
  split; [exact H|].
  apply (instant_attack 44100 [] 1); apply H.
Defined.

(** With [ops = [Process 1]] the envelope is triggered at 1, and the next
    silent input takes the release branch (0.99). *)
Theorem release_never_rises_witness :
  let e := run [Process 1] init in
  0 <= threshold_ e /\
  fst (process 0 e) <= envelope_ e /\
  (fst (process 0 e) = 0 \/ 1 / 1000 <= fst (process 0 e)) /\
  envelope_ (snd (process 0 e)) = fst (process 0 e) /\
  (triggered_ (snd (process 0 e)) = false -> fst (process 0 e) = 0).
Proof.
  assert (H : 0 <= threshold_ (run [Process 1] init)).
  { cbn [run fold_left step]. unfold process. destruct (Rlt_dec _ _); cbn; lra. }
  split; [exact H|].
  exact (release_never_rises [Process 1] 0 H).
Defined.

(** After a trigger and a [reset()], an input at the threshold is silent. *)
Theorem untriggered_is_silent_witness :
  let e := run [Prepare 48000; Process 1; Reset] init in
  (triggered_ e = false /\ 1 / 1000 <= threshold_ e) /\
  fst (process (1 / 1000) e) = 0 /\ snd (process (1 / 1000) e) = e.
Proof.
  assert (H : triggered_ (run [Prepare 48000; Process 1; Reset] init) = false /\
              1 / 1000 <= threshold_ (run [Prepare 48000; Process 1; Reset] init)).
  { cbn [run fold_left step]. unfold process, prepare, updateCoefficients, reset.
    cbn. destruct (Rle_dec _ 0); [lra|]. cbn. destruct (Rlt_dec _ _); cbn; split; (reflexivity || lra). }
  split; [exact H|].
  exact (proj2 (untriggered_is_silent [Prepare 48000; Process 1; Reset] (1 / 1000))
           (proj1 H) (proj2 H)).
Defined.

End AttackEnvelopeExtras.

Module NodeColorsExtras.
Import NodeColors.
Local Open Scope Z_scope.

(** Extra X21. With the default theme, the cable colour of every source id
    equals getBandColor(id - 1); the 8 band colours are pairwise distinct
    and all differ from the default cable colour used for the Input node. *)
Theorem cable_colors :
  (forall s, getCableColorForSource default_theme s = getBandColor (s - 1)) /\
  (forall i j, 0 <= i < 8 -> 0 <= j < 8 -> getBandColor i = getBandColor j -> i = j) /\
  (forall i, 0 <= i < 8 -> getBandColor i <> cableDefault default_theme).
Proof.
  assert (Hcases : forall i, 0 <= i < 8 ->
            i = 0 \/ i = 1 \/ i = 2 \/ i = 3 \/ i = 4 \/ i = 5 \/ i = 6 \/ i = 7) by lia.
  split; [|split].
  - intros s. unfold getCableColorForSource, getBandColor.
    destruct ((1 <=? s) && (s <=? 8)) eqn:H1; [reflexivity|].
    destruct ((0 <=? s - 1) && (s - 1 <? 8)) eqn:H2; [|reflexivity].
    apply andb_true_iff in H2. rewrite Z.leb_le, Z.ltb_lt in H2.
    apply andb_false_iff in H1. rewrite Z.leb_gt, Z.leb_gt in H1. lia.
  - intros i j Hi Hj.
    destruct (Hcases i Hi) as [->|[->|[->|[->|[->|[->|[->| ->]]]]]]];
    destruct (Hcases j Hj) as [->|[->|[->|[->|[->|[->|[->| ->]]]]]]];
    vm_compute; congruence.
  - intros i Hi.
    destruct (Hcases i Hi) as [->|[->|[->|[->|[->|[->|[->| ->]]]]]]]; vm_compute; congruence.
Qed.

End NodeColorsExtras.
